(** * arxiv2markdown: the scheduling and resilience layer

    A shallow embedding of the worker pool, the result aggregator
    ([arxiv_parser/parallel_processor.py]), the quarantine manager
    ([arxiv_parser/utils/file_system.py]) and the batch orchestrator
    ([batch_processor.py], [arxiv_parser/main.py]), with the properties of
    the design document stated and settled against it.

    Conventions.  Python [int] is [Z]; Python [float] is IEEE binary64,
    taken from the standard library's [spec_float] with [prec = 53] and
    [emax = 1024]; [str] is [string] (file names are taken to be ASCII);
    a [dict] whose order matters is an association list with unique keys;
    a directory is a finite map from file names to contents.  A call that
    may raise returns in [py]. *)

From Stdlib Require Import ZArith List Lia Bool String Ascii.
From Stdlib Require Import Permutation Sorted SpecFloat.
From stdpp Require Import base option list gmap strings pretty.
Import ListNotations.

Local Open Scope string_scope.
Local Open Scope Z_scope.

(** ** Python exceptions and fallible calls *)

Module Py.

(** The part of the exception hierarchy the sources discriminate on:
    [except Exception] catches the first four constructors, and
    [except (KeyboardInterrupt, SystemExit)] the next two. *)
Inductive exn : Type :=
| ZeroDivisionError
| ValueError
| OverflowError
| OtherException (msg : string)
| KeyboardInterrupt
| SystemExit
| OtherBaseException.

Definition is_Exception (e : exn) : bool :=
  match e with
  | ZeroDivisionError | ValueError | OverflowError | OtherException _ => true
  | KeyboardInterrupt | SystemExit | OtherBaseException => false
  end.

Definition is_interrupt_or_exit (e : exn) : bool :=
  match e with
  | KeyboardInterrupt | SystemExit => true
  | _ => false
  end.

Inductive py (A : Type) : Type :=
| Ret (a : A)
| Raise (e : exn).

Arguments Ret {A} a.
Arguments Raise {A} e.

Definition bind {A B : Type} (c : py A) (k : A -> py B) : py B :=
  match c with
  | Ret a => k a
  | Raise e => Raise e
  end.

End Py.

Import Py.

#[global] Instance py_ret : MRet py := @Py.Ret.
#[global] Instance py_bind : MBind py := fun A B k c => Py.bind c k.

(** ** binary64 floats *)

Module F.

Definition prec : Z := 53.
Definition emax : Z := 1024.

Definition float : Type := spec_float.

Definition zero : float := S754_zero false.

(** [float(z)], correctly rounded, for [z] within the range of a
    float. *)
Definition of_int (z : Z) : float := binary_normalize prec emax z 0 false.

Definition add : float -> float -> float := SFadd prec emax.
Definition sub : float -> float -> float := SFsub prec emax.
Definition mul : float -> float -> float := SFmul prec emax.
Definition div : float -> float -> float := SFdiv prec emax.

(** [x > y], [x == y] *)
Definition gtb (x y : float) : bool := SFltb y x.
Definition eqb (x y : float) : bool := SFeqb x y.

Definition is_inf (x : float) : bool :=
  match x with S754_infinity _ => true | _ => false end.

(** [a / b] on two [int]s: the correctly rounded quotient,
    [ZeroDivisionError] on a zero divisor and [OverflowError] when the
    quotient does not fit a float. *)
Definition int_truediv (a b : Z) : py float :=
  match a, b with
  | _, Z0 => Raise ZeroDivisionError
  | Z0, _ => Ret (S754_zero (b <? 0))
  | _, _ =>
      let sgn := xorb (a <? 0) (b <? 0) in
      let '(q, e, l) := SFdiv_core_binary prec emax (Z.abs a) 0 (Z.abs b) 0 in
      let r := binary_round_aux prec emax sgn q e l in
      if is_inf r then Raise OverflowError else Ret r
  end.

(** [x / n] and [x * n] with a float on the left and an [int] on the
    right: the [int] is converted first. *)
Definition div_int (x : float) (n : Z) : py float :=
  if n =? 0 then Raise ZeroDivisionError else Ret (div x (of_int n)).

Definition mul_int (x : float) (n : Z) : float := mul x (of_int n).

(** The fixed-precision conversion [f"{x:.2f}"]: the exact binary value
    is rounded to two decimals, ties to even. *)
Definition round_half_even_div (n d : Z) : Z :=
  let q := n / d in
  let r := n mod d in
  match 2 * r ?= d with
  | Lt => q
  | Gt => q + 1
  | Eq => if Z.even q then q else q + 1
  end.

Definition hundredths (m : positive) (e : Z) : Z :=
  match e with
  | Zneg p => round_half_even_div (Zpos m * 100) (2 ^ Zpos p)
  | _ => Zpos m * 100 * 2 ^ e
  end.

Definition two_digits (n : Z) : string :=
  if n <? 10 then "0" +:+ pretty n else pretty n.

Definition format_2f (x : float) : string :=
  match x with
  | S754_nan => "nan"
  | S754_infinity s => if s then "-inf" else "inf"
  | S754_zero s => if s then "-0.00" else "0.00"
  | S754_finite s m e =>
      let h := hundredths m e in
      (if s then "-" else "") +:+ pretty (h / 100) +:+ "." +:+ two_digits (h mod 100)
  end.

End F.

Abbreviation float := F.float.

(** ** ProcessingStats *)

Record ProcessingStats : Type := mkStats {
  total_files : Z;
  processed_files : Z;
  successful_files : Z;
  failed_files : Z;
  skipped_files : Z;
  start_time : float;
  end_time : float;
  processing_times : list float
}.

(** [ProcessingStats(total_files=n)] created at clock reading [now]. *)
Definition new_stats (n : Z) (now : float) : ProcessingStats :=
  mkStats n 0 0 0 0 now F.zero [].

(** The builtins [max] and [min] over a list: [ValueError] on the empty
    list, otherwise the first extremal element. *)
Definition py_max (l : list float) : py float :=
  match l with
  | [] => Raise ValueError
  | x :: xs => Ret (fold_left (fun m y => if F.gtb y m then y else m) xs x)
  end.

Definition py_min (l : list float) : py float :=
  match l with
  | [] => Raise ValueError
  | x :: xs => Ret (fold_left (fun m y => if F.gtb m y then y else m) xs x)
  end.

(** [if not self.processing_times] / [if self.processing_times] *)
Definition is_empty {A : Type} (l : list A) : bool :=
  match l with [] => true | _ => false end.

Section Metrics.

(** Library functions the properties call and the repository does not
    define: the builtin [sum] over floats (a plain left fold before
    CPython 3.12, compensated from 3.12 on), [numpy.median] and
    [numpy.percentile]. *)
Variable py_sum : list float -> float.
Variable np_median : list float -> float.
Variable np_percentile : list float -> Z -> float.

Definition total_time (now : float) (st : ProcessingStats) : float :=
  if F.eqb (end_time st) F.zero
  then F.sub now (start_time st)
  else F.sub (end_time st) (start_time st).

Definition average_time (st : ProcessingStats) : py float :=
  if is_empty (processing_times st) then Ret F.zero
  else F.div_int (py_sum (processing_times st))
                 (Z.of_nat (length (processing_times st))).

Definition median_time (st : ProcessingStats) : py float :=
  if is_empty (processing_times st) then Ret F.zero
  else Ret (np_median (processing_times st)).

Definition max_time (st : ProcessingStats) : py float :=
  if is_empty (processing_times st) then Ret F.zero
  else py_max (processing_times st).

Definition min_time (st : ProcessingStats) : py float :=
  if is_empty (processing_times st) then Ret F.zero
  else py_min (processing_times st).

Definition success_rate (st : ProcessingStats) : py float :=
  if successful_files st + failed_files st =? 0 then Ret F.zero
  else
    q ← F.int_truediv (successful_files st)
                       (successful_files st + failed_files st);
    Ret (F.mul_int q 100).

Definition middle_80_percent_time_range (st : ProcessingStats)
  : py (float * float) :=
  if (length (processing_times st) <? 2)%nat then Ret (F.zero, F.zero)
  else
    let p10 := np_percentile (processing_times st) 10 in
    let p90 := np_percentile (processing_times st) 90 in
    Ret (p10, p90).

(** [generate_csv_report]: the rows handed to the CSV writer after the
    header, in the order of [report_data].  Writing them may fail with an
    [IOError], which the method catches; the rows are built before. *)
Definition generate_csv_report (now : float) (st : ProcessingStats)
  : py (list (string * string)) :=
  range ← middle_80_percent_time_range st;
  rate ← success_rate st;
  avg ← average_time st;
  med ← median_time st;
  hi ← max_time st;
  lo ← min_time st;
  Ret [ ("总耗时 (s)", F.format_2f (total_time now st));
        ("文件总数", pretty (total_files st));
        ("已处理文件数 (成功+失败)",
           pretty (successful_files st + failed_files st));
        ("成功文件数", pretty (successful_files st));
        ("失败文件数", pretty (failed_files st));
        ("跳过文件数", pretty (skipped_files st));
        ("成功率 (%)", F.format_2f rate);
        ("平均处理时长 (s)", F.format_2f avg);
        ("中位数处理时长 (s)", F.format_2f med);
        ("最高处理时长 (s)", F.format_2f hi);
        ("最低处理时长 (s)", F.format_2f lo);
        ("中部80%处理时长范围 (s)",
           F.format_2f (fst range) +:+ " - " +:+ F.format_2f (snd range)) ].

(** [print_summary]: the lines sent to the logger. *)
Definition print_summary (now : float) (st : ProcessingStats)
  : py (list string) :=
  let head :=
    [ "------------- 处理完成 -------------";
      " 总耗时: " +:+ F.format_2f (total_time now st) +:+ " 秒";
      " 文件总数: " +:+ pretty (total_files st) +:+ ", 已处理: "
        +:+ pretty (processed_files st);
      "   - 成功: " +:+ pretty (successful_files st);
      "   - 失败: " +:+ pretty (failed_files st);
      "   - 跳过: " +:+ pretty (skipped_files st) ] in
  let foot := [ "------------------------------------" ] in
  if is_empty (processing_times st) then Ret (head ++ foot)%list
  else
    rate ← success_rate st;
    avg ← average_time st;
    lo ← min_time st;
    med ← median_time st;
    hi ← max_time st;
    range ← middle_80_percent_time_range st;
    Ret (head ++
         [ " 成功率: " +:+ F.format_2f rate +:+ "%";
           " 平均处理时长: " +:+ F.format_2f avg +:+ " s";
           " 时长 (min/median/max): " +:+ F.format_2f lo +:+ "s / "
             +:+ F.format_2f med +:+ "s / " +:+ F.format_2f hi +:+ "s";
           " 中部80%处理时长: " +:+ F.format_2f (fst range) +:+ "s - "
             +:+ F.format_2f (snd range) +:+ "s" ] ++ foot)%list.

End Metrics.

(** ** Paths

    [pathlib]'s [suffix] and [stem] of a final path component, and the
    string tests the sources apply to file names. *)

Module Path.

(** [name.rfind('.')], [None] for Python's [-1]. *)
Fixpoint rfind_dot (s : string) : option nat :=
  match s with
  | EmptyString => None
  | String c s' =>
      match rfind_dot s' with
      | Some i => Some (S i)
      | None => if Ascii.eqb c "."%char then Some O else None
      end
  end.

(** The index [i] of the last dot when [0 < i < len(name) - 1]. *)
Definition split_point (name : string) : option nat :=
  match rfind_dot name with
  | Some i =>
      if ((0 <? i) && (S i <? String.length name))%nat then Some i else None
  | None => None
  end.

Definition suffix (name : string) : string :=
  match split_point name with
  | Some i => String.substring i (String.length name - i) name
  | None => ""
  end.

Definition stem (name : string) : string :=
  match split_point name with
  | Some i => String.substring 0 i name
  | None => name
  end.

Definition lower_char (c : ascii) : ascii :=
  let n := nat_of_ascii c in
  if ((65 <=? n) && (n <=? 90))%nat then ascii_of_nat (n + 32) else c.

Fixpoint lower (s : string) : string :=
  match s with
  | EmptyString => EmptyString
  | String c s' => String (lower_char c) (lower s')
  end.

Definition endswith (s suf : string) : bool :=
  let n := String.length s in
  let m := String.length suf in
  (m <=? n)%nat && String.eqb (String.substring (n - m) m s) suf.

Definition str_in (x : string) (l : list string) : bool :=
  existsb (String.eqb x) l.

End Path.

(** ** Classification ([arxiv_parser/main.py], [arxiv_parser/config.py]) *)

Definition SUPPORTED_PDF_EXTENSIONS : list string := [".pdf"].
Definition SUPPORTED_TEX_EXTENSIONS : list string := [".gz"; ".tar.gz"].

Definition get_file_type (name : string) : string :=
  let suffix := Path.lower (Path.suffix name) in
  if Path.str_in suffix SUPPORTED_PDF_EXTENSIONS then "pdf"
  else if Path.str_in suffix SUPPORTED_TEX_EXTENSIONS
          || Path.endswith name ".tar.gz" then "tex"
  else "unknown".

(** ** Outcome records and the worker ([worker_process]) *)

Record result : Type := mkResult {
  file_name : string;
  status : string;
  time : float
}.

(** What the world does while a worker holds an item: an exception may
    arrive during classification; the converter
    [process_single_file_with_failover] returns or raises; the clock is
    read before the work and after it. *)
Record item_run : Type := mkRun {
  classify_exn : option exn;
  convert : py bool;
  clock_start : float;
  clock_done : float
}.

(** A work item: the name of the file (the last component of its path,
    which is all the worker looks at) and what the world does with it. *)
Record work_item : Type := mkItem {
  path : string;
  run : item_run
}.

Definition elapsed (w : work_item) : float :=
  F.sub (clock_done (run w)) (clock_start (run w)).

(** The body of the inner [try]. *)
Definition try_item (w : work_item) : py result :=
  let result := mkResult (path w) "failure" F.zero in
  file_type ← match classify_exn (run w) with
              | Some e => Raise e
              | None => Ret (get_file_type (path w))
              end;
  if String.eqb file_type "pdf" then
    Ret (mkResult (file_name result) "skipped" (time result))
  else if String.eqb file_type "tex" then
    success ← convert (run w);
    let processing_time := elapsed w in
    if success : bool
    then Ret (mkResult (file_name result) "success" processing_time)
    else Ret (mkResult (file_name result) "failure" processing_time)
  else
    Ret (mkResult (file_name result) "skipped" (time result)).

(** One turn of the worker's loop on an item: the inner [try] with its
    [except Exception] handler.  [Ret r] is the record put on the result
    queue; [Raise e] leaves the inner [try] with nothing put. *)
Definition worker_item (w : work_item) : py result :=
  match try_item w with
  | Ret r => Ret r
  | Raise e =>
      if is_Exception e
      then Ret (mkResult (path w) "failure" (elapsed w))
      else Raise e
  end.

(** [worker_process] for one worker alone on a task queue: the records
    it puts, in order, and how its loop ends.  It leaves on the sentinel
    [None], on [KeyboardInterrupt] or [SystemExit] (the outer handler's
    [break]), dies of any other exception that [except Exception] does
    not catch, and waits on [file_queue.get()] when the queue is empty. *)
Inductive worker_end : Type :=
| LeftOnSentinel
| LeftOnInterrupt (e : exn)
| Crashed (e : exn)
| WaitingForTask.

Fixpoint worker_process (file_queue : list (option work_item))
  : list result * worker_end :=
  match file_queue with
  | [] => ([], WaitingForTask)
  | None :: _ => ([], LeftOnSentinel)
  | Some w :: q =>
      match worker_item w with
      | Ret r => let '(rs, e) := worker_process q in (r :: rs, e)
      | Raise e =>
          if is_interrupt_or_exit e then ([], LeftOnInterrupt e)
          else ([], Crashed e)
      end
  end.

(** ** The aggregator (the collecting loop of [process_files]) *)

Definition collect_result (st : ProcessingStats) (r : result)
  : ProcessingStats :=
  let processed := processed_files st + 1 in
  if String.eqb (status r) "success" then
    mkStats (total_files st) processed (successful_files st + 1)
            (failed_files st) (skipped_files st) (start_time st)
            (end_time st) (processing_times st ++ [time r])
  else if String.eqb (status r) "failure" then
    mkStats (total_files st) processed (successful_files st)
            (failed_files st + 1) (skipped_files st) (start_time st)
            (end_time st)
            (if F.gtb (time r) F.zero
             then processing_times st ++ [time r]
             else processing_times st)
  else if String.eqb (status r) "skipped" then
    mkStats (total_files st) processed (successful_files st)
            (failed_files st) (skipped_files st + 1) (start_time st)
            (end_time st) (processing_times st)
  else
    mkStats (total_files st) processed (successful_files st)
            (failed_files st) (skipped_files st) (start_time st)
            (end_time st) (processing_times st).

Definition collect_all (st : ProcessingStats) (rs : list result)
  : ProcessingStats :=
  fold_left collect_result rs st.

(** Does the aggregator append this record's duration? *)
Definition measured (r : result) : bool :=
  String.eqb (status r) "success"
  || (String.eqb (status r) "failure" && F.gtb (time r) F.zero).

(** ** The worker pool ([ParallelProcessor.process_files])

    The task queue is filled before the workers start.  A worker waits on
    the task queue, holds one item at a time and puts its record on the
    result queue; one that left its loop (sentinel, [KeyboardInterrupt],
    [SystemExit]) or crashed is [Gone].  The parent takes
    [len(file_list)] records off the result queue with a blocking [get],
    then puts one sentinel per worker and stamps [end_time].  The joins
    after that ([join(timeout=10)], then [terminate] for a worker still
    alive) no longer touch the statistics and are not part of the state.
    [collected] is a ghost log of the records taken so far.

    [step_fn] is the pool left to itself.  The parent's second way out
    of its loop, [except (KeyboardInterrupt, SystemExit): break], and
    [terminate] are the events that [pstep_fn] adds to it further down. *)

Inductive wstate : Type :=
| Waiting
| Busy (w : work_item)
| Gone.

Inductive phase : Type :=
| Collecting (remaining : nat)
| Finished.

Record pool : Type := mkPool {
  file_queue : list (option work_item);
  result_queue : list result;
  workers : list wstate;
  stage : phase;
  stats : ProcessingStats;
  collected : list result
}.

Definition init_pool (file_list : list work_item) (num_workers : Z)
    (now : float) : pool :=
  mkPool (map Some file_list) [] (replicate (Z.to_nat num_workers) Waiting)
         (Collecting (length file_list))
         (new_stats (Z.of_nat (length file_list)) now) [].

Inductive action : Type :=
| Take (i : nat)          (* worker [i]: [file_queue.get()] returns *)
| Finish (i : nat)        (* worker [i] is done with its item *)
| Collect                 (* parent: [result_queue.get()] returns *)
| Shutdown (now : float). (* parent: sentinels, joins, [end_time] *)

Definition set_end_time (now : float) (st : ProcessingStats)
  : ProcessingStats :=
  mkStats (total_files st) (processed_files st) (successful_files st)
          (failed_files st) (skipped_files st) (start_time st) now
          (processing_times st).

Definition step_fn (a : action) (s : pool) : option pool :=
  match a with
  | Take i =>
      match workers s !! i, file_queue s with
      | Some Waiting, Some w :: q =>
          Some (mkPool q (result_queue s) (<[i := Busy w]> (workers s))
                       (stage s) (stats s) (collected s))
      | Some Waiting, None :: q =>
          Some (mkPool q (result_queue s) (<[i := Gone]> (workers s))
                       (stage s) (stats s) (collected s))
      | _, _ => None
      end
  | Finish i =>
      match workers s !! i with
      | Some (Busy w) =>
          match worker_item w with
          | Ret r =>
              Some (mkPool (file_queue s) (result_queue s ++ [r])
                           (<[i := Waiting]> (workers s))
                           (stage s) (stats s) (collected s))
          | Raise _ =>
              Some (mkPool (file_queue s) (result_queue s)
                           (<[i := Gone]> (workers s))
                           (stage s) (stats s) (collected s))
          end
      | _ => None
      end
  | Collect =>
      match stage s, result_queue s with
      | Collecting (S n), r :: rq =>
          Some (mkPool (file_queue s) rq (workers s) (Collecting n)
                       (collect_result (stats s) r) (collected s ++ [r]))
      | _, _ => None
      end
  | Shutdown now =>
      match stage s with
      | Collecting O =>
          Some (mkPool (file_queue s ++ replicate (length (workers s)) None)
                       (result_queue s) (workers s) Finished
                       (set_end_time now (stats s)) (collected s))
      | _ => None
      end
  end.

Definition step (s s' : pool) : Prop := exists a, step_fn a s = Some s'.

(** [steps n s s']: [s'] is reached from [s] in exactly [n] steps. *)
Inductive steps : nat -> pool -> pool -> Prop :=
| steps_O s : steps O s s
| steps_S n s s' s'' : steps n s s' -> step s' s'' -> steps (S n) s s''.

Definition reachable (s s' : pool) : Prop := exists n, steps n s s'.

(** A scheduler's choices played from a state. *)
Fixpoint play (sched : list action) (s : pool) : option pool :=
  match sched with
  | [] => Some s
  | a :: sched' =>
      match step_fn a s with
      | Some s' => play sched' s'
      | None => None
      end
  end.

(** [process_files(file_list)] under a scheduler: the statistics it
    returns, or [None] when the scheduler's choices cannot be played or
    leave the parent in its collecting loop. *)
Definition process_files (file_list : list work_item) (num_workers : Z)
    (now : float) (sched : list action) : option ProcessingStats :=
  s ← play sched (init_pool file_list num_workers now);
  match stage s with
  | Finished => Some (stats s)
  | Collecting _ => None
  end.

(** The records the workers emit for a list of items, one per item that
    does not cost its worker. *)
Definition outcomes (file_list : list work_item) : list result :=
  omap (fun w => match worker_item w with
                 | Ret r => Some r
                 | Raise _ => None
                 end) file_list.

(** The item does not cost its worker: the turn ends with a record. *)
Definition survives (w : work_item) : Prop :=
  exists r, worker_item w = Ret r.

(** How far a pool is from rest: every step lowers it. *)
Definition busy_count (ws : list wstate) : nat :=
  length (List.filter (fun w => match w with Busy _ => true | _ => false end) ws).

Definition remaining (s : pool) : nat :=
  match stage s with
  | Collecting n => n
  | Finished => O
  end.

Definition measure (s : pool) : nat :=
  (3 * length (file_queue s) + 2 * busy_count (workers s)
   + length (result_queue s) + remaining s
   + match stage s with
     | Collecting _ => 3 * length (workers s) + 1
     | Finished => 0
     end)%nat.

(** The items the workers hold, and the items still queued. *)
Definition busy_items (ws : list wstate) : list work_item :=
  omap (fun w => match w with Busy x => Some x | _ => None end) ws.

Definition queued (q : list (option work_item)) : list work_item :=
  omap id q.

Definition valid_status (r : result) : Prop :=
  status r = "success" \/ status r = "failure" \/ status r = "skipped".

(** What holds of every state of a run over [file_list] in which no item
    costs a worker. *)
Record pool_inv (file_list : list work_item) (k : nat) (s : pool)
  : Prop := mkInv {
  inv_workers : length (workers s) = k;
  inv_survive :
    Forall survives (busy_items (workers s) ++ queued (file_queue s));
  inv_account :
    outcomes file_list ≡ₚ
      collected s ++ result_queue s ++ outcomes (busy_items (workers s))
      ++ outcomes (queued (file_queue s));
  inv_count : (length (collected s) + remaining s)%nat = length file_list;
  inv_collecting :
    stage s <> Finished ->
    Forall (fun o => is_Some o) (file_queue s)
    /\ Forall (fun w => w <> Gone) (workers s);
  inv_stats :
    processed_files (stats s) = Z.of_nat (length (collected s))
    /\ total_files (stats s) = Z.of_nat (length file_list)
    /\ successful_files (stats s) + failed_files (stats s)
       + skipped_files (stats s) = Z.of_nat (length (collected s))
}.

(** The bookkeeping that holds of every state of every run, whatever the
    items do to the workers. *)
Definition pool_accounts (file_list : list work_item) (s : pool) : Prop :=
  outcomes file_list ≡ₚ
    collected s ++ result_queue s ++ outcomes (busy_items (workers s))
    ++ outcomes (queued (file_queue s))
  /\ (length (collected s) + remaining s)%nat = length file_list.

(** ** The quarantine ([arxiv_parser/utils/file_system.py])

    A directory maps the names of its files to their contents.  The
    failure log [fail.log] is one of the files of the quarantine
    directory. *)

Record file_system : Type := mkFs {
  source_dir : gmap string string;
  failed_dir : gmap string string
}.

Definition newline : string := String (ascii_of_nat 10) EmptyString.

(** [write_failure_log]; [stamp] is the formatted [datetime.now()]. *)
Definition write_failure_log (stamp filename error_info : string)
    (dir : gmap string string) : gmap string string :=
  let log_entry :=
    "[" +:+ stamp +:+ "] " +:+ filename +:+ ": " +:+ error_info +:+ newline in
  <["fail.log" := default "" (dir !! "fail.log") +:+ log_entry]> dir.

(** [if target_path.exists()] *)
Definition exists_in (name : string) (dir : gmap string string) : bool :=
  bool_decide (is_Some (dir !! name)).

(** The name the file is moved to; [now] is [int(time.time())]. *)
Definition target_name (now : Z) (name : string)
    (dir : gmap string string) : string :=
  if exists_in name dir
  then Path.stem name +:+ "_" +:+ pretty now +:+ Path.suffix name
  else name.

(** [safe_move_to_failed(file_path, failed_dir, error_info)] for the
    file [name] of the source directory.  [shutil.move] raises when the
    source is missing, which the function catches and reports by [False];
    on an existing target it replaces the target. *)
Definition safe_move_to_failed (now : Z) (stamp : string) (name : string)
    (error_info : option string) (fs : file_system) : bool * file_system :=
  let target := target_name now name (failed_dir fs) in
  match source_dir fs !! name with
  | None => (false, fs)
  | Some content =>
      let moved := <[target := content]> (failed_dir fs) in
      let logged :=
        match error_info with
        | Some msg =>
            if String.eqb msg "" then moved
            else write_failure_log stamp name msg moved
        | None => moved
        end in
      (true, mkFs (delete name (source_dir fs)) logged)
  end.

(** [safe_move_to_failed] when a call it makes raises.  [mkdir] raises
    before anything is moved.  [shutil.move] renames, or copies and
    then removes the source: when it raises the source is still there
    and the target holds what the copy got to.  [write_failure_log]
    appends to the log and keeps what its handler catches to itself;
    when its write raises the log has what was appended until then.
    An exception that [except Exception] catches makes
    [safe_move_to_failed] return [False], or [True] when it stayed in
    [write_failure_log]; another one, a [KeyboardInterrupt] say, leaves
    the function. *)
Inductive move_fault : Type :=
| Obeys
| MkdirRaises (e : exn)
| MoveRaises (e : exn) (target_after : option string)
| LogRaises (e : exn) (appended : option string).

Definition safe_move_to_failed_with (fault : move_fault) (now : Z)
    (stamp : string) (name : string) (error_info : option string)
    (fs : file_system) : py bool * file_system :=
  let target := target_name now name (failed_dir fs) in
  match fault with
  | Obeys =>
      let '(moved, fs') := safe_move_to_failed now stamp name error_info fs in
      (Ret moved, fs')
  | MkdirRaises e =>
      (if is_Exception e then Ret false else Raise e, fs)
  | MoveRaises e target_after =>
      (if is_Exception e then Ret false else Raise e,
       mkFs (source_dir fs)
            (partial_alter (fun _ => target_after) target (failed_dir fs)))
  | LogRaises e appended =>
      match source_dir fs !! name with
      | None => (Ret false, fs)
      | Some content =>
          let moved := <[target := content]> (failed_dir fs) in
          let logs :=
            match error_info with
            | Some msg => negb (String.eqb msg "")
            | None => false
            end in
          if logs then
            let logged :=
              match appended with
              | Some more =>
                  <["fail.log" := default "" (moved !! "fail.log") +:+ more]>
                    moved
              | None => moved
              end in
            (if is_Exception e then Ret true else Raise e,
             mkFs (delete name (source_dir fs)) logged)
          else (Ret true, mkFs (delete name (source_dir fs)) moved)
      end
  end.

(** A later archive brings a file into the source directory. *)
Definition arrive (name content : string) (fs : file_system) : file_system :=
  mkFs (<[name := content]> (source_dir fs)) (failed_dir fs).

(** ** The batch orchestrator ([batch_processor.py]) *)

(** *** The file-name pattern [src_(\d+)_(\d+)\.tar]

    A backtracking matcher for sequences of literal characters and
    greedy digit groups, searched for at the leftmost position as
    [re.search] does. *)

Module Re.

Inductive atom : Type :=
| Lit (c : ascii)
| Digits.          (* the group [(\d+)] *)

(** The ASCII digits.  On a [str] pattern Python's [\d] also matches
    the decimal digits of other scripts, and [int] reads them; a string
    here is the bytes of its UTF-8 encoding, in which such a digit is a
    run of bytes of 128 and more.  The model of the pattern is that of
    Python on the names that [ascii_name] admits. *)
Definition is_digit (c : ascii) : bool :=
  let n := nat_of_ascii c in ((48 <=? n) && (n <=? 57))%nat.

Fixpoint digit_run (s : list ascii) : nat :=
  match s with
  | c :: s' => if is_digit c then S (digit_run s') else O
  | [] => O
  end.

(** The group takes [k] characters, then [k - 1], ..., down to one,
    until the rest of the pattern matches what follows. *)
Fixpoint try_lengths (k : nat)
    (rest : list ascii -> option (list (list ascii))) (s : list ascii)
  : option (list (list ascii)) :=
  match k with
  | O => None
  | S k' =>
      match rest (drop k s) with
      | Some groups => Some (take k s :: groups)
      | None => try_lengths k' rest s
      end
  end.

Fixpoint match_here (p : list atom) (s : list ascii)
  : option (list (list ascii)) :=
  match p with
  | [] => Some []
  | Lit c :: p' =>
      match s with
      | c' :: s' => if Ascii.eqb c c' then match_here p' s' else None
      | [] => None
      end
  | Digits :: p' => try_lengths (digit_run s) (match_here p') s
  end.

Fixpoint search (p : list atom) (s : list ascii)
  : option (list (list ascii)) :=
  match match_here p s with
  | Some groups => Some groups
  | None =>
      match s with
      | [] => None
      | _ :: s' => search p s'
      end
  end.

Definition lit (s : string) : list atom :=
  map Lit (list_ascii_of_string s).

Definition src_tar : list atom :=
  lit "src_" ++ [Digits; Lit "_"%char; Digits] ++ lit ".tar".

End Re.

(** [int(s)] on a string of decimal digits. *)
Definition int_of_digits (s : list ascii) : Z :=
  fold_left (fun acc c => 10 * acc + (Z.of_nat (nat_of_ascii c) - 48)) s 0.

Definition get_priority_from_filename (filename : string) : Z :=
  match Re.search Re.src_tar (list_ascii_of_string filename) with
  | Some [g1; g2] => int_of_digits (g1 ++ g2)
  | _ => 0
  end.

(** *** Dictionaries in insertion order *)

Section Dict.

Context {V : Type}.

Fixpoint dict_get (k : string) (d : list (string * V)) : option V :=
  match d with
  | [] => None
  | (k', v) :: d' => if String.eqb k k' then Some v else dict_get k d'
  end.

Definition dict_mem (k : string) (d : list (string * V)) : bool :=
  match dict_get k d with Some _ => true | None => false end.

(** [d[k] = v]: in place when the key is there, at the end otherwise. *)
Fixpoint dict_set (k : string) (v : V) (d : list (string * V))
  : list (string * V) :=
  match d with
  | [] => [(k, v)]
  | (k', v') :: d' =>
      if String.eqb k k' then (k', v) :: d' else (k', v') :: dict_set k v d'
  end.

End Dict.

(** *** The state file *)

Record entry : Type := mkEntry {
  entry_path : string;
  entry_status : string;
  priority : Z
}.

(** [state_data["files"]] *)
Definition store : Type := list (string * entry).

(** [list.sort(key=..., reverse=True)]: descending by key, entries of
    equal key in their original order. *)
Fixpoint insert_desc {A : Type} (key : A -> Z) (x : A) (l : list A)
  : list A :=
  match l with
  | [] => [x]
  | y :: l' =>
      if key x <? key y then y :: insert_desc key x l' else x :: y :: l'
  end.

Definition sort_desc {A : Type} (key : A -> Z) (l : list A) : list A :=
  fold_right (insert_desc key) [] l.

Definition is_pending (item : string * entry) : bool :=
  String.eqb (entry_status (snd item)) "pending".

Definition task_priority (item : string * entry) : Z := priority (snd item).

(** The discovery loop: a found file that the store does not know yet
    is added as pending. *)
Definition discover (d : store) (found : string * string) : store :=
  let '(filename, filepath) := found in
  if dict_mem filename d then d
  else dict_set filename
         (mkEntry filepath "pending" (get_priority_from_filename filename)) d.

(** [initialize_state(source_dir)]: [state_file] is the content of the
    state file when it exists, [globbed] the name and path of every
    [*.tar] file of the source directory.  Returns the store as written
    back and the pending tasks. *)
Definition initialize_state (state_file : option store)
    (globbed : list (string * string)) : store * list (string * entry) :=
  let state_data := default [] state_file in
  let found_files :=
    fold_left (fun d '(name, p) => dict_set name p d) globbed [] in
  let state_data := fold_left discover found_files state_data in
  let pending_tasks := List.filter is_pending state_data in
  (state_data, sort_desc task_priority pending_tasks).

(** What happens to one archive between the cleaning of the work area
    and the status update: an exception before the worker pool is
    started, an exception out of [run_parallel_processing], or its
    return, with the statistics of the pool when it ran one. *)
Inductive archive_outcome : Type :=
| RaisedBeforePool
| PoolRaised
| PoolReturned (st : option ProcessingStats).

Inductive event : Type :=
| MonitorStarted
| PoolStarted (filename : string)
| Marked (filename status : string)
| MonitorStopped.

(** [state_data["files"][filename]["status"] = status].  The tasks come
    from the store, so the file name is one of its keys; Python raises
    [KeyError] otherwise. *)
Definition mark (filename status : string) (d : store) : store :=
  match dict_get filename d with
  | Some e => dict_set filename (mkEntry (entry_path e) status (priority e)) d
  | None => d
  end.

Definition process_archive (world : string -> archive_outcome)
    (filename : string) (d : store) : store * list event :=
  match world filename with
  | RaisedBeforePool =>
      (mark filename "failed" d, [Marked filename "failed"])
  | PoolRaised =>
      (mark filename "failed" d,
       [PoolStarted filename; Marked filename "failed"])
  | PoolReturned _ =>
      (mark filename "completed" d,
       [PoolStarted filename; Marked filename "completed"])
  end.

Fixpoint process_tasks (world : string -> archive_outcome)
    (tasks : list (string * entry)) (d : store) : store * list event :=
  match tasks with
  | [] => (d, [])
  | (filename, _) :: rest =>
      let '(d1, evs1) := process_archive world filename d in
      let '(d2, evs2) := process_tasks world rest d1 in
      (d2, (evs1 ++ evs2)%list)
  end.

(** [main(source_dir_path, num_workers)]: the state file it leaves and
    what it started.  It returns [None] on every path. *)
Definition main (is_dir : bool) (state_file : option store)
    (globbed : list (string * string)) (world : string -> archive_outcome)
  : option store * list event :=
  if negb is_dir then (state_file, [])
  else
    let '(d, pending_tasks) := initialize_state state_file globbed in
    if is_empty pending_tasks then (Some d, [])
    else
      let '(d', evs) := process_tasks world pending_tasks d in
      (Some d', (MonitorStarted :: evs ++ [MonitorStopped])%list).

(** The command line of [batch_processor.py]: the [--test-speed] probe,
    a well-formed [--source-dir] with [--workers], or something
    [argparse] rejects. *)
Inductive command_line : Type :=
| SpeedProbe
| Batch (source_dir_path : string) (num_workers : Z)
| Rejected.

(** The exit status of the script: [sys.exit(0)] after the probe, 2 from
    [argparse], and otherwise the end of the module is reached after
    [main] has returned. *)
Definition batch_exit_status (cmd : command_line) (is_dir : bool)
    (state_file : option store) (globbed : list (string * string))
    (world : string -> archive_outcome) : Z :=
  match cmd with
  | SpeedProbe => 0
  | Rejected => 2
  | Batch _ _ =>
      let '(_, _) := main is_dir state_file globbed world in 0
  end.

(** [arxiv_parser/main.py]: the sequential driver.  [converts name] is
    what [process_single_file_with_failover] returns for the file. *)
Definition sequential_main (source_exists : bool) (files : list string)
    (converts : string -> bool) : Z :=
  if negb source_exists then 1
  else if is_empty files then 0
  else
    let failed_count :=
      fold_left
        (fun failed name =>
           let file_type := get_file_type name in
           if String.eqb file_type "unknown" then failed
           else if String.eqb file_type "pdf" then failed
           else if converts name then failed else failed + 1)
        files 0 in
    if failed_count =? 0 then 0 else 1.

(** An entry that has kept its path and priority and whose status is
    what it was or has gone from pending to completed or failed. *)
Definition advanced (e e' : entry) : Prop :=
  entry_path e' = entry_path e
  /\ priority e' = priority e
  /\ (entry_status e' = entry_status e
      \/ (entry_status e = "pending"
          /\ (entry_status e' = "completed" \/ entry_status e' = "failed"))).

Definition store_advanced (d d' : store) : Prop :=
  map fst d' = map fst d
  /\ forall name e, dict_get name d = Some e ->
       exists e', dict_get name d' = Some e' /\ advanced e e'.

(** An entry as the discovery scan creates it. *)
Definition discovered (globbed : list (string * string)) (old : store)
    (item : string * entry) : Prop :=
  entry_status (snd item) = "pending"
  /\ priority (snd item) = get_priority_from_filename (fst item)
  /\ In (fst item) (map fst globbed)
  /\ dict_get (fst item) old = None.



(** The file name holds [src_], a period [g1], [_], a sequence number
    [g2] and [.tar], both numbers non-empty strings of decimal digits. *)
Definition all_digits (g : list ascii) : Prop :=
  Forall (fun c => Re.is_digit c = true) g.

Definition names_archive (filename : string) (g1 g2 : list ascii) : Prop :=
  exists pre post,
    list_ascii_of_string filename
    = (pre ++ list_ascii_of_string "src_" ++ g1 ++ ["_"%char] ++ g2
       ++ list_ascii_of_string ".tar" ++ post)%list
    /\ g1 <> [] /\ g2 <> [] /\ all_digits g1 /\ all_digits g2.

(** The archives the orchestrator marks, in the order it marks them. *)
Definition marked_names (evs : list event) : list string :=
  omap (fun ev => match ev with Marked name _ => Some name | _ => None end)
       evs.

(** ** Base names ([arxiv_parser/utils/file_system.py]) *)

(** [get_base_name(file_path)]: [name[:-7]] for a name that ends in
    [.tar.gz], the stem otherwise. *)
Definition get_base_name (name : string) : string :=
  if Path.endswith name ".tar.gz"
  then String.substring 0 (String.length name - 7) name
  else Path.stem name.


(** ** One conversion ([processors/tex_processor.py], [arxiv_parser/main.py])

    The converter works on the source and quarantine directories and on
    the output directory, which maps the base name of an item to what
    its output directory holds.  The drivers hand the converter file
    names that do not begin with a period; the base name of such a name
    is the name of a directory of its own under the output directory,
    while that of [.tar.gz] or [..gz] is the output directory itself.
    Names are told apart as strings. *)

Record workspace : Type := mkWs {
  files : file_system;
  output_dir : gmap string string
}.

(** A computation on the workspace that returns or raises.  What it has
    done to the workspace stays done when it raises. *)
Definition io (A : Type) : Type := workspace -> py A * workspace.

Definition io_ret {A : Type} (a : A) : io A := fun ws => (Ret a, ws).

Definition io_bind {A B : Type} (m : io A) (k : A -> io B) : io B :=
  fun ws =>
    match m ws with
    | (Ret a, ws') => k a ws'
    | (Raise e, ws') => (Raise e, ws')
    end.

Notation "'do' x <- m ; k" := (io_bind m (fun x => k))
  (at level 10, x pattern, m at level 100, k at level 200, only parsing).

(** A call that does not touch the workspace. *)
Definition lift {A : Type} (c : py A) : io A := fun ws => (c, ws).

(** [try: m except Exception as e: h e] *)
Definition except_Exception {A : Type} (m : io A) (h : exn -> io A)
  : io A :=
  fun ws =>
    match m ws with
    | (Ret a, ws') => (Ret a, ws')
    | (Raise e, ws') => if is_Exception e then h e ws' else (Raise e, ws')
    end.

(** [try: m finally: f]: an exception out of [f] replaces the outcome
    of [m]. *)
Definition finally {A : Type} (m : io A) (f : io unit) : io A :=
  fun ws =>
    let '(r, ws') := m ws in
    match f ws' with
    | (Ret _, ws'') => (r, ws'')
    | (Raise e, ws'') => (Raise e, ws'')
    end.

(** How a call that removes or creates a directory ends: it does it, or
    it raises and leaves of the directory what the world says. *)
Inductive dir_outcome : Type :=
| Done
| Failed (e : exn) (remains : option string).

Definition output_exists (base_name : string) : io bool :=
  fun ws => (Ret (exists_in base_name (output_dir ws)), ws).

(** [shutil.rmtree(OUTPUT_DIR / base_name)] *)
Definition rmtree (o : dir_outcome) (base_name : string) : io unit :=
  fun ws =>
    match o with
    | Done => (Ret tt, mkWs (files ws) (delete base_name (output_dir ws)))
    | Failed e remains =>
        (Raise e,
         mkWs (files ws)
              (partial_alter (fun _ => remains) base_name (output_dir ws)))
    end.

(** [shutil.move(temp_output_dir, OUTPUT_DIR / base_name)] *)
Definition move_output (o : dir_outcome) (content base_name : string)
  : io unit :=
  fun ws =>
    match o with
    | Done =>
        (Ret tt, mkWs (files ws) (<[base_name := content]> (output_dir ws)))
    | Failed e remains =>
        (Raise e,
         mkWs (files ws)
              (partial_alter (fun _ => remains) base_name (output_dir ws)))
    end.

(** What the world does during the conversion of one item.  The
    helpers of the converter are calls into the world: each returns or
    raises, and does to the workspace what the world says; an archive
    can unpack outside the directory it is extracted to.  The world
    also gives the content of the temporary output directory once it is
    complete, the outcome of each call that removes or moves an output
    directory, what the quarantine move meets, and its two clock
    readings.  Logging is taken to return. *)
Record conversion : Type := mkConversion {
  create_unique_temp_dirs : io unit;
  extract_archive : io unit;
  find_main_tex_file : io (option string);
  process_additional_files : io unit;
  convert_with_latexml_html : io (bool * string);
  append_asset_links_to_html : io unit;
  convert_html_to_markdown : io (bool * string);
  temp_output : string;
  remove_old_output : dir_outcome;
  move_to_final : dir_outcome;
  cleanup_temp_dirs : io unit;
  cleanup_output : dir_outcome;
  quarantine_fault : move_fault;
  move_time : Z;
  log_stamp : string
}.

(** A call that leaves the workspace as it is. *)
Definition leaves_alone {A : Type} (m : io A) : Prop :=
  forall ws, snd (m ws) = ws.

(** The helpers keep to the temporary directories. *)
Definition tidy (c : conversion) : Prop :=
  leaves_alone (create_unique_temp_dirs c)
  /\ leaves_alone (extract_archive c)
  /\ leaves_alone (find_main_tex_file c)
  /\ leaves_alone (process_additional_files c)
  /\ leaves_alone (convert_with_latexml_html c)
  /\ leaves_alone (append_asset_links_to_html c)
  /\ leaves_alone (convert_html_to_markdown c)
  /\ leaves_alone (cleanup_temp_dirs c).

Section Conversion.

(** [str(e)] *)
Variable str : exn -> string.

(** [tex_processor.process(gz_path, output_base_dir, temp_base_dir)].
    The inner [try] around [extract_archive] returns its message as the
    function's result. *)
Definition process (c : conversion) (gz_name : string)
  : io (bool * string) :=
  let base_name := get_base_name gz_name in
  finally
    (except_Exception
       (do _ <- create_unique_temp_dirs c;
        do extract_error <-
          except_Exception
            (do _ <- extract_archive c; io_ret None)
            (fun e => io_ret (Some ("解压失败: " +:+ str e)));
        match extract_error with
        | Some error_msg => io_ret (false, error_msg)
        | None =>
            do main_tex_path <- find_main_tex_file c;
            match main_tex_path with
            | None =>
                io_ret (false,
                  "无法找到主TeX文件 (搜索了常见的主文件名和包含\documentclass的文件)")
            | Some _ =>
                do _ <- except_Exception
                          (process_additional_files c)
                          (fun _ => io_ret tt);
                do (success, latexml_error) <- convert_with_latexml_html c;
                if negb success
                then io_ret (false, "LaTeXML转换失败: " +:+ latexml_error)
                else
                  do _ <- append_asset_links_to_html c;
                  do _ <- convert_html_to_markdown c;
                  do there <- output_exists base_name;
                  do _ <- (if there : bool
                           then rmtree (remove_old_output c) base_name
                           else io_ret tt);
                  do _ <- move_output (move_to_final c) (temp_output c)
                            base_name;
                  io_ret (true, "")
            end
        end)
       (fun e => io_ret (false, "未知错误: " +:+ str e)))
    (cleanup_temp_dirs c).

(** [process_single_file(file_path)] *)
Definition process_single_file (c : conversion) (name : string)
  : io (bool * string) :=
  let file_type := get_file_type name in
  except_Exception
    (if String.eqb file_type "pdf" then
       io_ret (false, "跳过PDF文件 (仅处理TeX压缩包)")
     else if String.eqb file_type "tex" then
       do (success, error_msg) <- process c name;
       if success : bool then io_ret (true, "")
       else io_ret (false, error_msg)
     else
       io_ret (false, "不支持的文件类型: " +:+ Path.suffix name))
    (fun e => io_ret (false, "处理异常: " +:+ str e)).

(** [cleanup_failed_output_directory(file_path)] *)
Definition cleanup_failed_output_directory (c : conversion)
    (name : string) : io unit :=
  except_Exception
    (let base_name := get_base_name name in
     do there <- output_exists base_name;
     if there : bool then rmtree (cleanup_output c) base_name
     else io_ret tt)
    (fun _ => io_ret tt).

(** The call of [safe_move_to_failed] on the workspace. *)
Definition move_to_failed (c : conversion) (name error_msg : string)
  : io bool :=
  fun ws =>
    let '(moved, fs) :=
      safe_move_to_failed_with (quarantine_fault c) (move_time c)
        (log_stamp c) name (Some error_msg) (files ws) in
    (moved, mkWs fs (output_dir ws)).

(** [process_single_file_with_failover(file_path)] *)
Definition process_single_file_with_failover (c : conversion)
    (name : string) : io bool :=
  do (success, error_msg) <- process_single_file c name;
  if negb success then
    do _ <- cleanup_failed_output_directory c name;
    do _ <- move_to_failed c name error_msg;
    io_ret success
  else io_ret success.

End Conversion.

(** ** The sequential driver ([arxiv_parser/main.py])

    A directory listing gives each entry's name and whether it is a
    regular file. *)

Definition startswith (s pre : string) : bool := String.prefix pre s.

(** [[f for f in all_files if f.is_file() and not f.name.startswith('.')]] *)
Definition files_to_process (all_files : list (string * bool))
  : list string :=
  map fst
    (List.filter (fun f => snd f && negb (startswith (fst f) ".")) all_files).

(** [sum(1 for f in l if p(f))] *)
Definition count_if {A : Type} (p : A -> bool) (l : list A) : Z :=
  fold_left (fun n f => if p f then n + 1 else n) l 0.

Definition get_processing_statistics (all_files : list (string * bool))
  : Z * Z * Z :=
  let all_files := files_to_process all_files in
  let pdf_count :=
    count_if (fun f => String.eqb (get_file_type f) "pdf") all_files in
  let tex_count :=
    count_if (fun f => String.eqb (get_file_type f) "tex") all_files in
  (Z.of_nat (length all_files), pdf_count, tex_count).

Record tally : Type := mkTally {
  successful_count : Z;
  failed_count : Z;
  skipped_count : Z;
  pdf_skipped_count : Z
}.

Section Driver.

Variable str : exn -> string.

(** What the world does during the conversion of each file. *)
Variable world : string -> conversion.

(** The loop of [main] over [files_to_process]. *)
Fixpoint main_loop (files_to_process : list string) (t : tally)
  : io tally :=
  match files_to_process with
  | [] => io_ret t
  | name :: rest =>
      let file_type := get_file_type name in
      if String.eqb file_type "unknown" then
        main_loop rest
          (mkTally (successful_count t) (failed_count t)
                   (skipped_count t + 1) (pdf_skipped_count t))
      else if String.eqb file_type "pdf" then
        main_loop rest
          (mkTally (successful_count t) (failed_count t)
                   (skipped_count t) (pdf_skipped_count t + 1))
      else
        do success <- process_single_file_with_failover str (world name) name;
        if success : bool then
          main_loop rest
            (mkTally (successful_count t + 1) (failed_count t)
                     (skipped_count t) (pdf_skipped_count t))
        else
          main_loop rest
            (mkTally (successful_count t) (failed_count t + 1)
                     (skipped_count t) (pdf_skipped_count t))
  end.

(** [main()]: the exit code it returns.  [ensure_directories] and the
    emptying of the temporary directory are taken to return. *)
Definition arxiv_main (source_exists : bool)
    (all_files : list (string * bool)) : io Z :=
  if negb source_exists then io_ret 1
  else
    let files_to_process := files_to_process all_files in
    if is_empty files_to_process then io_ret 0
    else
      do t <- main_loop files_to_process (mkTally 0 0 0 0);
      io_ret (if failed_count t =? 0 then 0 else 1).

End Driver.

(** The number of records of a status. *)
Definition count_status (s : string) (rs : list result) : Z :=
  Z.of_nat (length (List.filter (fun r => String.eqb (status r) s) rs)).

(** The workers that wait on the task queue. *)
Definition waiting_count (ws : list wstate) : nat :=
  length
    (List.filter (fun w => match w with Waiting => true | _ => false end) ws).

(** ** The intake of one archive (step d of [batch_processor.main])

    What the extraction of the archive leaves in the temporary
    directory: files, and directories with their entries.  An entry is
    a regular file, a symbolic link that leads to a regular file, or
    something else: a directory, a link that leads to a directory or
    nowhere.  [is_file()] follows a link and [shutil.move] moves the
    link itself, so a link that leads to a file goes to the intake
    directory as a link; whether it leads anywhere from there is
    another matter.  A directory here is whatever [is_dir()] accepts, a
    link to a directory included, with the entries found there.  A move
    onto an existing name replaces what is there.  A move can raise:
    the exception leaves the loops, and the intake directory is emptied
    in [finally] before anything looks at it.  Listing a directory is
    taken to return. *)

Inductive dir_entry : Type :=
| RegularFile (content : string)
| LinkToFile (link : string)
| OtherEntry.

Inductive node : Type :=
| File (content : string)
| Directory (entries : list (string * dir_entry)).

(** [file_item.is_file()] *)
Definition is_file (e : dir_entry) : bool :=
  match e with
  | RegularFile _ | LinkToFile _ => true
  | OtherEntry => false
  end.

(** The inner loop: the visible files of the extracted directory [dir].
    [raises dir name] is the exception that the move of [name] out of
    [dir] raises, if it does. *)
Fixpoint move_visible_files (raises : string -> string -> option exn)
    (dir : string) (entries : list (string * dir_entry))
    (arxiv_dir : gmap string dir_entry) : py (gmap string dir_entry) :=
  match entries with
  | [] => Ret arxiv_dir
  | (name, e) :: rest =>
      if is_file e && negb (startswith name ".") then
        match raises dir name with
        | Some x => Raise x
        | None =>
            move_visible_files raises dir rest (<[name := e]> arxiv_dir)
        end
      else move_visible_files raises dir rest arxiv_dir
  end.

(** The loop over the temporary directory; [filename] is the name of
    the archive. *)
Fixpoint move_extracted_files (raises : string -> string -> option exn)
    (filename : string) (temp_tar_dir : list (string * node))
    (arxiv_dir : gmap string dir_entry) : py (gmap string dir_entry) :=
  match temp_tar_dir with
  | [] => Ret arxiv_dir
  | (d, Directory entries) :: rest =>
      if negb (String.eqb d filename) then
        match move_visible_files raises d entries arxiv_dir with
        | Ret arxiv_dir => move_extracted_files raises filename rest arxiv_dir
        | Raise x => Raise x
        end
      else move_extracted_files raises filename rest arxiv_dir
  | (_, File _) :: rest => move_extracted_files raises filename rest arxiv_dir
  end.

(** ** The name an attachment is copied to ([process_additional_files])

    The loop that looks for a free name in the assets directory. *)

Inductive placement : Type :=
| Placed (dest : string)
| GaveUp
| OutOfFuel.

Fixpoint free_name (fuel : nat) (counter : Z) (dest original_stem
    original_suffix : string) (assets : gmap string string) : placement :=
  if exists_in dest assets then
    match fuel with
    | O => OutOfFuel
    | S fuel' =>
        let new_name :=
          original_stem +:+ "_" +:+ pretty counter +:+ original_suffix in
        let counter := counter + 1 in
        if counter >? 100 then GaveUp
        else free_name fuel' counter new_name original_stem original_suffix
               assets
    end
  else Placed dest.

Definition asset_name (file_name : string) (assets : gmap string string)
  : placement :=
  free_name 100 1 file_name (Path.stem file_name) (Path.suffix file_name)
    assets.

(** The names the loop tries, in order: the name of the file, then the
    stem with a counter. *)
Definition candidate (file_name : string) (k : Z) : string :=
  if k =? 0 then file_name
  else Path.stem file_name +:+ "_" +:+ pretty k +:+ Path.suffix file_name.

(** ** The pool under signals ([ParallelProcessor.process_files])

    [step_fn] is the pool left alone.  The collecting loop has a second
    way out, [except (KeyboardInterrupt, SystemExit): break], and the
    shutdown a second way to end a worker, [terminate()] after
    [join(timeout=10)].  A signal finds the parent inside the [try] of
    its loop: waiting in [result_queue.get()], or with a record in hand
    that it has taken and not counted, counted as processed only, or
    counted under its status without its duration.  After the [break]
    the parent puts the sentinels and stamps [end_time] as after the
    last record.  A worker still alive when its [join(timeout=10)]
    gives up, waiting on the task queue or holding an item, is
    terminated, with the item if it holds one.  A signal that reaches
    the parent outside the [try] leaves [process_files] by the
    exception; such a run returns nothing.  A signal can also reach a
    worker: while it holds an item this is the item costing the worker,
    as in [step_fn]; while it waits in [file_queue.get()] the outer
    handler of [worker_process] ends its loop with the task queue as it
    is.  The queues themselves are taken to work. *)

Inductive interrupt_point : Type :=
| AtGet
| RecordTaken
| CountedProcessed
| CountedStatus.

(** The bookkeeping of a record as far as the signal lets it go. *)
Definition partial_collect (point : interrupt_point) (st : ProcessingStats)
    (r : result) : ProcessingStats :=
  match point with
  | AtGet | RecordTaken => st
  | CountedProcessed =>
      mkStats (total_files st) (processed_files st + 1) (successful_files st)
              (failed_files st) (skipped_files st) (start_time st)
              (end_time st) (processing_times st)
  | CountedStatus =>
      let st' := collect_result st r in
      mkStats (total_files st') (processed_files st') (successful_files st')
              (failed_files st') (skipped_files st') (start_time st')
              (end_time st') (processing_times st)
  end.

(** The sentinels and [end_time]. *)
Definition shut_down (now : float) (s : pool) : pool :=
  mkPool (file_queue s ++ replicate (length (workers s)) None)
         (result_queue s) (workers s) Finished
         (set_end_time now (stats s)) (collected s).

Inductive parent_event : Type :=
| Act (a : action)
| Interrupt (point : interrupt_point) (now : float)
| Terminate (i : nat)
| Leave (i : nat).

Definition pstep_fn (e : parent_event) (s : pool) : option pool :=
  match e with
  | Act a => step_fn a s
  | Interrupt point now =>
      match stage s with
      | Collecting (S n) =>
          match point, result_queue s with
          | AtGet, _ => Some (shut_down now s)
          | _, r :: rq =>
              Some (shut_down now
                      (mkPool (file_queue s) rq (workers s) (Collecting n)
                              (partial_collect point (stats s) r)
                              (collected s ++ [r])))
          | _, [] => None
          end
      | _ => None
      end
  | Terminate i =>
      match stage s, workers s !! i with
      | Finished, Some Waiting | Finished, Some (Busy _) =>
          Some (mkPool (file_queue s) (result_queue s)
                       (<[i := Gone]> (workers s))
                       (stage s) (stats s) (collected s))
      | _, _ => None
      end
  | Leave i =>
      match workers s !! i with
      | Some Waiting =>
          Some (mkPool (file_queue s) (result_queue s)
                       (<[i := Gone]> (workers s))
                       (stage s) (stats s) (collected s))
      | _ => None
      end
  end.

Fixpoint pplay (events : list parent_event) (s : pool) : option pool :=
  match events with
  | [] => Some s
  | e :: events' =>
      match pstep_fn e s with
      | Some s' => pplay events' s'
      | None => None
      end
  end.

(** [process_files(file_list)] under the events of a run: the
    statistics it returns, or [None] when the events cannot be played
    or leave the parent in its collecting loop. *)
Definition process_files_signalled (file_list : list work_item)
    (num_workers : Z) (now : float) (events : list parent_event)
  : option ProcessingStats :=
  s ← pplay events (init_pool file_list num_workers now);
  match stage s with
  | Finished => Some (stats s)
  | Collecting _ => None
  end.

(** No signal reaches the parent or a worker that waits. *)
Definition uninterrupted (events : list parent_event) : Prop :=
  Forall (fun e => match e with
                   | Interrupt _ _ | Leave _ => False
                   | _ => True
                   end)
         events.

(** ** The orchestrator under faults ([batch_processor.main])

    [process_archive] is an archive whose handling ends in a status
    update that is followed by the cleaning of the work area.  The code
    has other ways out.  [except Exception] does not catch
    [KeyboardInterrupt] or [SystemExit]; the handler reads and writes
    the state file itself and can raise; and [clear_directory] in
    [finally] can raise after the update.  Each of them leaves the loop
    and [main], through the outer [finally] that stops the monitor; the
    archives that follow are not touched.  An exception leaves the
    archive either before its entry is written, the entry still
    pending, with the pool started or not, or after the update.
    [initialize_state] and the lines around it are outside any [try]:
    an exception there leaves [main] before the monitor is started,
    with the scanned store written back or not.  The state file is
    read and written whole, and only by [main]: a write cut short is
    taken not to have happened. *)

Inductive archive_end : Type :=
| Settled (o : archive_outcome)
| EscapedUnmarked (started : bool)
| EscapedMarked (o : archive_outcome).

Inductive scan_end : Type :=
| ScanReturns
| ScanEscapes (written : bool).

Record batch_world : Type := mkBatchWorld {
  scan_of : scan_end;
  end_of : string -> archive_end
}.

(** The store, the events, and whether the loop goes on. *)
Definition process_archive_ev (w : archive_end) (filename : string)
    (d : store) : store * list event * bool :=
  match w with
  | Settled o =>
      let '(d', evs) := process_archive (fun _ => o) filename d in
      (d', evs, true)
  | EscapedUnmarked started =>
      (d, if started then [PoolStarted filename] else [], false)
  | EscapedMarked o =>
      let '(d', evs) := process_archive (fun _ => o) filename d in
      (d', evs, false)
  end.

Fixpoint process_tasks_ev (world : string -> archive_end)
    (tasks : list (string * entry)) (d : store)
  : store * list event * bool :=
  match tasks with
  | [] => (d, [], true)
  | (filename, _) :: rest =>
      let '(d1, evs1, goes_on) :=
        process_archive_ev (world filename) filename d in
      if goes_on then
        let '(d2, evs2, r) := process_tasks_ev world rest d1 in
        (d2, (evs1 ++ evs2)%list, r)
      else (d1, evs1, false)
  end.

(** What a call of [main] leaves: the state file, what was started, and
    whether the call returned rather than raised. *)
Record batch_run : Type := mkBatchRun {
  state_after : option store;
  trace : list event;
  returned : bool
}.

Definition main_ev (is_dir : bool) (state_file : option store)
    (globbed : list (string * string)) (w : batch_world) : batch_run :=
  if negb is_dir then mkBatchRun state_file [] true
  else
    let '(d, pending_tasks) := initialize_state state_file globbed in
    match scan_of w with
    | ScanEscapes written =>
        mkBatchRun (if written then Some d else state_file) [] false
    | ScanReturns =>
        if is_empty pending_tasks then mkBatchRun (Some d) [] true
        else
          let '(d', evs, r) :=
            process_tasks_ev (end_of w) pending_tasks d in
          mkBatchRun (Some d')
                     (MonitorStarted :: evs ++ [MonitorStopped])%list r
    end.

(** The archives for which the pool was started, in that order. *)
Definition started_names (evs : list event) : list string :=
  omap (fun ev => match ev with PoolStarted name => Some name | _ => None end)
       evs.

(** What holds of the bookkeeping in every state of every run, signals
    and terminations included. *)
Record signalled_inv (file_list : list work_item) (now : float) (s : pool)
  : Prop := mkSignalledInv {
  sig_accounts :
    (collected s ++ result_queue s ++ outcomes (busy_items (workers s))
     ++ outcomes (queued (file_queue s)))%list ⊆+ outcomes file_list;
  sig_count : (length (collected s) + remaining s <= length file_list)%nat;
  sig_total : total_files (stats s) = Z.of_nat (length file_list);
  sig_start : start_time (stats s) = now;
  sig_processed :
    successful_files (stats s) + failed_files (stats s)
    + skipped_files (stats s) <= processed_files (stats s)
    /\ processed_files (stats s) <= Z.of_nat (length (collected s));
  sig_success :
    0 <= successful_files (stats s) <= count_status "success" (collected s);
  sig_failure :
    0 <= failed_files (stats s) <= count_status "failure" (collected s);
  sig_skipped :
    0 <= skipped_files (stats s) <= count_status "skipped" (collected s);
  sig_times :
    sublist (processing_times (stats s))
            (map time (List.filter measured (collected s)))
}.

(** The pool after the sentinels of a run without signals. *)
Definition settled (s : pool) : Prop :=
  stage s = Finished /\ busy_items (workers s) = [] /\ result_queue s = []
  /\ exists m, file_queue s = replicate m None
               /\ (waiting_count (workers s) <= m)%nat.

(** * Properties *)

Example format_examples :
  F.format_2f (F.of_int 70) = "70.00" /\
  F.format_2f (F.div (F.of_int 1) (F.of_int 3)) = "0.33" /\
  F.format_2f (F.div (F.of_int 1) (F.of_int 8)) = "0.12" /\
  F.format_2f (F.div (F.of_int 3) (F.of_int 8)) = "0.38" /\
  F.format_2f (F.of_int (-5)) = "-5.00" /\
  F.format_2f (F.div (F.of_int 201) (F.of_int 2)) = "100.50".
Proof. vm_compute. repeat split. Qed.

(** ** The aggregator *)

Lemma collect_all_app st rs rs' :
  collect_all st (rs ++ rs')%list = collect_all (collect_all st rs) rs'.
Proof. unfold collect_all. apply fold_left_app. Qed.

Lemma collect_result_times st r :
  processing_times (collect_result st r) =
  (processing_times st ++ (if measured r then [time r] else []))%list.
Proof.
  unfold collect_result, measured.
  destruct (String.eqb (status r) "success") eqn:Hs; simpl; [done|].
  destruct (String.eqb (status r) "failure") eqn:Hf; simpl.
  - destruct (F.gtb (time r) F.zero); simpl; [done|]. by rewrite app_nil_r.
  - destruct (String.eqb (status r) "skipped"); simpl; by rewrite app_nil_r.
Qed.

Lemma collect_all_times rs : forall st,
  processing_times (collect_all st rs) =
  (processing_times st ++ map time (List.filter measured rs))%list.
Proof.
  induction rs as [|r rs IH]; intros st; simpl.
  - by rewrite app_nil_r.
  - rewrite IH, collect_result_times.
    destruct (measured r); simpl; by rewrite <- app_assoc.
Qed.

Lemma gtb_zero_nonzero (t : float) :
  F.gtb t F.zero = true -> F.eqb t F.zero = false.
Proof. destruct t as [[]|[]| |[] m e]; simpl; done. Qed.

(** The success count never exceeds what the duration list can hold. *)
Lemma collect_result_successes st r :
  successful_files (collect_result st r) - successful_files st
  <= Z.of_nat (length (processing_times (collect_result st r)))
     - Z.of_nat (length (processing_times st))
  /\ successful_files st <= successful_files (collect_result st r)
  /\ failed_files st <= failed_files (collect_result st r).
Proof.
  unfold collect_result.
  repeat (case_match; simpl); rewrite ?length_app; simpl; lia.
Qed.

Lemma collect_all_successes rs : forall st,
  successful_files (collect_all st rs) - successful_files st
  <= Z.of_nat (length (processing_times (collect_all st rs)))
     - Z.of_nat (length (processing_times st))
  /\ successful_files st <= successful_files (collect_all st rs)
  /\ failed_files st <= failed_files (collect_all st rs).
Proof.
  induction rs as [|r rs IH]; intros st; simpl; [lia|].
  specialize (IH (collect_result st r)).
  pose proof (collect_result_successes st r). lia.
Qed.

(** ** Success rate *)

Lemma int_truediv_no_zero_division a b :
  b <> 0 -> F.int_truediv a b <> Raise ZeroDivisionError.
Proof.
  intros Hb. unfold F.int_truediv.
  destruct a, b; try done;
    destruct (SFdiv_core_binary _ _ _ _ _ _) as [[q e] l];
    destruct (F.is_inf _); done.
Qed.

(** The quotient of two counts never overflows: the division core
    yields a mantissa and an exponent whose value is at most one, and
    rounding such a pair never gives an infinity. *)

Lemma digits2_pos_bounds p :
  2 ^ (Zpos (digits2_pos p) - 1) <= Zpos p < 2 ^ Zpos (digits2_pos p).
Proof.
  induction p as [p IH|p IH|]; cbn [digits2_pos].
  - rewrite Pos2Z.inj_succ. change (Zpos p~1) with (2 * Zpos p + 1).
    replace (Z.succ (Zpos (digits2_pos p)) - 1)
      with (Z.succ (Zpos (digits2_pos p) - 1)) by lia.
    rewrite !Z.pow_succ_r by lia.
    destruct IH as [IH1 IH2]. revert IH1 IH2.
    generalize (2 ^ (Zpos (digits2_pos p) - 1)) (2 ^ Zpos (digits2_pos p)).
    intros; lia.
  - rewrite Pos2Z.inj_succ. change (Zpos p~0) with (2 * Zpos p).
    replace (Z.succ (Zpos (digits2_pos p)) - 1)
      with (Z.succ (Zpos (digits2_pos p) - 1)) by lia.
    rewrite !Z.pow_succ_r by lia.
    destruct IH as [IH1 IH2]. revert IH1 IH2.
    generalize (2 ^ (Zpos (digits2_pos p) - 1)) (2 ^ Zpos (digits2_pos p)).
    intros; lia.
  - simpl. lia.
Qed.

Lemma Zdigits2_le m k :
  0 <= k -> 0 <= m <= 2 ^ k -> Zdigits2 m <= k + 1.
Proof.
  intros Hk [Hm Hmk]. destruct m as [|p|p]; simpl; [lia| |lia].
  pose proof (digits2_pos_bounds p) as [Hlo _].
  assert (H : 2 ^ (Zpos (digits2_pos p) - 1) <= 2 ^ k) by lia.
  apply Z.pow_le_mono_r_iff in H; lia.
Qed.

Lemma shr_1_m mrs :
  0 <= shr_m mrs ->
  0 <= shr_m (shr_1 mrs) /\ 2 * shr_m (shr_1 mrs) <= shr_m mrs.
Proof.
  destruct mrs as [m r s]. simpl.
  destruct m as [|[p|p|]|p]; simpl; lia.
Qed.

Lemma iter_shr_1_m p : forall mrs,
  0 <= shr_m mrs ->
  0 <= shr_m (SpecFloat.iter_pos shr_1 p mrs)
  /\ 2 ^ Zpos p * shr_m (SpecFloat.iter_pos shr_1 p mrs) <= shr_m mrs.
Proof.
  induction p as [p IH|p IH|]; intros mrs Hm; cbn [SpecFloat.iter_pos].
  - destruct (shr_1_m mrs Hm) as [H1 H2].
    destruct (IH _ H1) as [H3 H4]. destruct (IH _ H3) as [H5 H6].
    split; [done|].
    change (Zpos p~1) with (2 * Zpos p + 1).
    replace (2 * Zpos p + 1) with (Zpos p + Zpos p + 1) by lia.
    rewrite !Z.pow_add_r by lia. change (2 ^ 1) with 2.
    assert (0 < 2 ^ Zpos p) by (apply Z.pow_pos_nonneg; lia). nia.
  - destruct (IH _ Hm) as [H3 H4]. destruct (IH _ H3) as [H5 H6].
    split; [done|].
    change (Zpos p~0) with (2 * Zpos p).
    replace (2 * Zpos p) with (Zpos p + Zpos p) by lia.
    rewrite !Z.pow_add_r by lia.
    assert (0 < 2 ^ Zpos p) by (apply Z.pow_pos_nonneg; lia). nia.
  - destruct (shr_1_m mrs Hm) as [H1 H2]. split; [done|].
    change (2 ^ 1) with 2. lia.
Qed.

Lemma fexp_small x : x <= 2 -> fexp F.prec F.emax x <= 0.
Proof. unfold fexp, emin, F.prec, F.emax. lia. Qed.

(** Shifting to the canonical exponent neither raises the value nor
    leaves the exponents below zero. *)
Lemma shr_fexp_bounds m e l :
  0 <= m -> e <= 0 -> m <= 2 ^ (- e) ->
  let '(mrs, e') := shr_fexp F.prec F.emax m e l in
  0 <= shr_m mrs /\ e' <= 0 /\ shr_m mrs <= 2 ^ (- e').
Proof.
  intros Hm He Hme. unfold shr_fexp.
  assert (Hd : Zdigits2 m + e <= 1).
  { pose proof (Zdigits2_le m (- e)). lia. }
  pose proof (fexp_small (Zdigits2 m + e)) as Hf.
  assert (Hrec : shr_m (shr_record_of_loc m l) = m)
    by (destruct l as [|[]]; done).
  unfold shr.
  destruct (fexp F.prec F.emax (Zdigits2 m + e) - e) as [|p|p] eqn:E.
  - rewrite Hrec. lia.
  - destruct (iter_shr_1_m p (shr_record_of_loc m l)) as [H1 H2];
      [by rewrite Hrec|].
    rewrite Hrec in H2. split; [done|]. split; [lia|].
    assert (Hp : 2 ^ (- e) = 2 ^ Zpos p * 2 ^ (- (e + Zpos p))).
    { rewrite <- Z.pow_add_r by lia. f_equal. lia. }
    rewrite Hp in Hme.
    assert (0 < 2 ^ Zpos p) by (apply Z.pow_pos_nonneg; lia).
    nia.
  - rewrite Hrec. lia.
Qed.

Lemma round_nearest_even_bounds m l :
  0 <= m -> 0 <= round_nearest_even m l <= m + 1.
Proof.
  intros Hm. unfold round_nearest_even.
  destruct l as [|[]]; try destruct (Z.even m); lia.
Qed.

Lemma binary_round_aux_finite sx m e l :
  0 <= m -> e <= 0 -> m <= 2 ^ (- e) ->
  F.is_inf (binary_round_aux F.prec F.emax sx m e l) = false.
Proof.
  intros Hm He Hme. unfold binary_round_aux.
  pose proof (shr_fexp_bounds m e l Hm He Hme) as H1.
  destruct (shr_fexp F.prec F.emax m e l) as [mrs1 e1].
  destruct H1 as (Hm1 & He1 & Hb1).
  pose proof (round_nearest_even_bounds (shr_m mrs1)
                (loc_of_shr_record mrs1) Hm1) as [Hr0 Hr1].
  set (r := round_nearest_even (shr_m mrs1) (loc_of_shr_record mrs1)) in *.
  unfold shr_fexp, shr.
  assert (Hd : Zdigits2 r + e1 <= 2).
  { pose proof (Zdigits2_le r (- e1 + 1)).
    assert (2 ^ (- e1 + 1) = 2 * 2 ^ (- e1))
      by (rewrite Z.pow_add_r by lia; change (2 ^ 1) with 2; lia).
    assert (0 < 2 ^ (- e1)) by (apply Z.pow_pos_nonneg; lia).
    lia. }
  pose proof (fexp_small (Zdigits2 r + e1) Hd) as Hf.
  destruct (fexp F.prec F.emax (Zdigits2 r + e1) - e1) as [|p|p] eqn:E.
  - destruct (shr_m (shr_record_of_loc r loc_Exact)); [done| |done].
    destruct (e1 <=? F.emax - F.prec) eqn:L; [done|].
    apply Z.leb_gt in L. unfold F.emax, F.prec in L. lia.
  - destruct (shr_m (SpecFloat.iter_pos shr_1 p (shr_record_of_loc r loc_Exact)));
      [done| |done].
    destruct (e1 + Zpos p <=? F.emax - F.prec) eqn:L; [done|].
    apply Z.leb_gt in L. unfold F.emax, F.prec in L. lia.
  - destruct (shr_m (shr_record_of_loc r loc_Exact)); [done| |done].
    destruct (e1 <=? F.emax - F.prec) eqn:L; [done|].
    apply Z.leb_gt in L. unfold F.emax, F.prec in L. lia.
Qed.

Lemma div_core_bounds a b :
  0 < a <= b ->
  let '(q, e, l) := SFdiv_core_binary F.prec F.emax a 0 b 0 in
  0 <= q /\ e <= 0 /\ q <= 2 ^ (- e).
Proof.
  intros [Ha Hab]. unfold SFdiv_core_binary.
  match goal with
  | |- context [IntDef.Z.div_eucl ?m ?d] =>
      change (IntDef.Z.div_eucl m d) with (Z.div_eucl m d);
      set (m' := m)
  end.
  match goal with
  | |- context [(_, ?x, new_location _ _)] => set (e := x)
  end.
  assert (He : e <= 0) by (unfold e; lia).
  assert (Hm' : m' = a * 2 ^ (- e)).
  { unfold m'. fold e. destruct (0 - 0 - e) as [|p|p] eqn:E; [| |lia].
    - replace (- e) with 0 by lia. simpl. lia.
    - rewrite Z.shiftl_mul_pow2 by lia. f_equal. f_equal. lia. }
  clearbody m' e.
  pose proof (Z.div_eucl_eq m' b ltac:(lia)) as Hdiv.
  pose proof (Z.mod_pos_bound m' b ltac:(lia)) as Hmod.
  unfold Z.modulo in Hmod.
  destruct (Z.div_eucl m' b) as [q r].
  assert (Hp : 0 < 2 ^ (- e)) by (apply Z.pow_pos_nonneg; lia).
  nia.
Qed.

(** A quotient of two positive integers that is at most one fits a
    float. *)
Lemma int_truediv_le_one a b :
  0 < a <= b -> exists r, F.int_truediv a b = Ret r.
Proof.
  intros Hab. pose proof (div_core_bounds a b Hab) as H.
  unfold F.int_truediv.
  destruct a as [|a|a]; [lia| |lia]. destruct b as [|b|b]; [lia| |lia].
  change (Z.abs (Zpos a)) with (Zpos a).
  change (Z.abs (Zpos b)) with (Zpos b).
  destruct (SFdiv_core_binary F.prec F.emax (Zpos a) 0 (Zpos b) 0)
    as [[q e] l].
  destruct H as (Hq & He & Hqe).
  rewrite binary_round_aux_finite by done. by eexists.
Qed.

Lemma success_rate_total (st : ProcessingStats) :
  0 <= successful_files st -> 0 <= failed_files st ->
  exists r, success_rate st = Ret r.
Proof.
  intros Hs Hf. unfold success_rate.
  destruct (successful_files st + failed_files st =? 0) eqn:E; [by eexists|].
  apply Z.eqb_neq in E.
  destruct (Z.eq_dec (successful_files st) 0) as [H0|H0].
  - rewrite H0. simpl.
    destruct (failed_files st) as [|p|p]; [lia| |lia]. by eexists.
  - destruct (int_truediv_le_one (successful_files st)
                (successful_files st + failed_files st)) as [r Hr]; [lia|].
    rewrite Hr. by eexists.
Qed.

(** C6.  The success rate is [successful / (successful + failed) * 100],
    with [0.0] returned when the denominator is zero; the property never
    raises [ZeroDivisionError], and with counts that are not negative it
    raises nothing at all; 7 successes and 3 failures give 70.0, printed
    [70.00], and no outcome at all gives 0.0, printed [0.00]. *)
Theorem success_rate_formula :
  (forall st : ProcessingStats,
     success_rate st =
       (if successful_files st + failed_files st =? 0 then Ret F.zero
        else q ← F.int_truediv (successful_files st)
                               (successful_files st + failed_files st);
             Ret (F.mul q (F.of_int 100)))
     /\ success_rate st <> Raise ZeroDivisionError)
  /\ (forall st : ProcessingStats,
        0 <= successful_files st -> 0 <= failed_files st ->
        exists r, success_rate st = Ret r)
  /\ (forall total processed skipped t0 t1 times,
        success_rate (mkStats total processed 7 3 skipped t0 t1 times)
        = Ret (F.of_int 70))
  /\ F.format_2f (F.of_int 70) = "70.00"
  /\ (forall total processed skipped t0 t1 times,
        success_rate (mkStats total processed 0 0 skipped t0 t1 times)
        = Ret F.zero)
  /\ F.format_2f F.zero = "0.00".
Proof.
  split; [|split; [exact success_rate_total|];
           repeat split; intros; vm_compute; reflexivity].
  intros st. split; [reflexivity|].
  unfold success_rate.
  destruct (successful_files st + failed_files st =? 0) eqn:Hz; [done|].
  apply Z.eqb_neq in Hz.
  pose proof (int_truediv_no_zero_division (successful_files st) _ Hz) as Hq.
  destruct (F.int_truediv _ _) as [q|e]; simpl; [done|].
  intros [= ->]. done.
Qed.

Lemma success_rate_formula_witness :
  let st := mkStats 10 10 7 3 0 F.zero (F.of_int 9) [] in
  0 <= successful_files st /\ 0 <= failed_files st
  /\ exists r, success_rate st = Ret r.
Proof.
  intros st.
  assert (Hs : 0 <= successful_files st) by (simpl; lia).
  assert (Hf : 0 <= failed_files st) by (simpl; lia).
  split; [exact Hs|]. split; [exact Hf|].
  destruct success_rate_formula as (_ & Htotal & _).
  exact (Htotal st Hs Hf).
Defined.

(** ** Durations *)

(** C9.  The aggregator appends the duration of every success, the
    duration of a failure exactly when it is positive (so never a zero),
    and nothing for a skipped record, which moves only the skipped count
    among the outcome counts and leaves the success rate alone; the
    worker emits skipped records with zero elapsed time, and emits one at
    once for every file that is not classified as TeX; over a whole run
    the duration list is the list of measured durations in arrival
    order. *)
Theorem durations_accumulate :
  (forall st name t,
     processing_times (collect_result st (mkResult name "success" t))
     = (processing_times st ++ [t])%list)
  /\ (forall st name t,
        processing_times (collect_result st (mkResult name "failure" t))
        = if F.gtb t F.zero then (processing_times st ++ [t])%list
          else processing_times st)
  /\ (forall t, F.gtb t F.zero = true -> F.eqb t F.zero = false)
  /\ (forall st name,
        processing_times (collect_result st (mkResult name "failure" F.zero))
        = processing_times st)
  /\ (forall st name t,
        let st' := collect_result st (mkResult name "skipped" t) in
        skipped_files st' = skipped_files st + 1
        /\ successful_files st' = successful_files st
        /\ failed_files st' = failed_files st
        /\ processing_times st' = processing_times st
        /\ success_rate st' = success_rate st)
  /\ (forall w r,
        worker_item w = Ret r -> status r = "skipped" -> time r = F.zero)
  /\ (forall w,
        classify_exn (run w) = None -> get_file_type (path w) <> "tex" ->
        worker_item w = Ret (mkResult (path w) "skipped" F.zero))
  /\ (forall st rs,
        processing_times (collect_all st rs)
        = (processing_times st ++ map time (List.filter measured rs))%list).
Proof.
  split; [done|]. split.
  { intros st name t. unfold collect_result; simpl.
    destruct (F.gtb t F.zero); done. }
  split; [apply gtb_zero_nonzero|]. split; [done|].
  split; [intros st name t; repeat split|]. split.
  - intros w r Hw Hs. unfold worker_item in Hw.
    destruct (try_item w) as [r'|e] eqn:Ht.
    + injection Hw as ->. unfold try_item in Ht.
      destruct (classify_exn (run w)); simpl in Ht; [done|].
      destruct (String.eqb (get_file_type (path w)) "pdf").
      { injection Ht as <-. done. }
      destruct (String.eqb (get_file_type (path w)) "tex").
      { destruct (convert (run w)) as [[]|]; simpl in Ht; try done;
          injection Ht as <-; simpl in Hs; done. }
      injection Ht as <-. done.
    + destruct (is_Exception e); [|done].
      injection Hw as <-. simpl in Hs. done.
  - split; [|intros st rs; apply collect_all_times].
    intros w Hc Ht. unfold worker_item, try_item. rewrite Hc. simpl.
    destruct (String.eqb (get_file_type (path w)) "pdf"); [done|].
    destruct (String.eqb (get_file_type (path w)) "tex") eqn:E; [|done].
    by apply String.eqb_eq in E.
Qed.

Lemma durations_accumulate_witness :
  let w := mkItem "paper.pdf" (mkRun None (Ret true) F.zero (F.of_int 2)) in
  let r := mkResult "paper.pdf" "skipped" F.zero in
  worker_item w = Ret r /\ status r = "skipped" /\ time r = F.zero
  /\ F.gtb (F.of_int 2) F.zero = true
  /\ F.eqb (F.of_int 2) F.zero = false.
Proof.
  pose proof durations_accumulate
    as (_ & _ & Hpos & _ & _ & Hskip & Hout & _).
  split; [apply Hout; [reflexivity|vm_compute; discriminate]|].
  split; [reflexivity|].
  split; [apply (Hskip (mkItem "paper.pdf"
                         (mkRun None (Ret true) F.zero (F.of_int 2))));
          reflexivity|].
  split; [reflexivity|]. apply Hpos. reflexivity.
Defined.

(** ** Metrics of an empty duration list *)

Section EmptyMetrics.

Variable py_sum : list float -> float.
Variable np_median : list float -> float.
Variable np_percentile : list float -> Z -> float.

Lemma report_without_successes now st :
  processing_times st = [] -> successful_files st = 0 ->
  0 <= failed_files st ->
  exists total files done_ ok bad skip,
    generate_csv_report py_sum np_median np_percentile now st =
    Ret [ ("总耗时 (s)", total); ("文件总数", files);
          ("已处理文件数 (成功+失败)", done_);
          ("成功文件数", ok); ("失败文件数", bad); ("跳过文件数", skip);
          ("成功率 (%)", "0.00");
          ("平均处理时长 (s)", "0.00");
          ("中位数处理时长 (s)", "0.00");
          ("最高处理时长 (s)", "0.00");
          ("最低处理时长 (s)", "0.00");
          ("中部80%处理时长范围 (s)", "0.00 - 0.00") ].
Proof.
  intros Ht Hs Hfail.
  unfold generate_csv_report, middle_80_percent_time_range, success_rate,
    average_time, median_time, max_time, min_time.
  rewrite Ht, Hs. simpl.
  destruct (failed_files st) eqn:Hf; [| |lia]; simpl; rewrite ?Ht; simpl;
    repeat eexists.
Qed.

(** C10.  With an empty duration list the mean, median, maximum and
    minimum all return 0.0 without raising, the summary is printed
    without evaluating any metric, and after a run whose records left the
    duration list empty the CSV report is built without raising, its
    metric rows all reading [0.00]; the report is built without raising
    for any statistics with an empty duration list and counts that are
    not negative. *)
Theorem empty_durations_total :
  (forall st : ProcessingStats,
     processing_times st = [] ->
     average_time py_sum st = Ret F.zero
     /\ median_time np_median st = Ret F.zero
     /\ max_time st = Ret F.zero
     /\ min_time st = Ret F.zero)
  /\ (forall now st,
        processing_times st = [] ->
        exists lines,
          print_summary py_sum np_median np_percentile now st = Ret lines)
  /\ (forall now st,
        processing_times st = [] ->
        0 <= successful_files st -> 0 <= failed_files st ->
        exists rows,
          generate_csv_report py_sum np_median np_percentile now st
          = Ret rows)
  /\ (forall now n t0 rs,
        let st := collect_all (new_stats n t0) rs in
        processing_times st = [] ->
        exists rows,
          generate_csv_report py_sum np_median np_percentile now st
          = Ret rows
          /\ map snd (drop 6 rows)
             = ["0.00"; "0.00"; "0.00"; "0.00"; "0.00"; "0.00 - 0.00"]).
Proof.
  split; [|split; [|split]].
  - intros st Ht.
    unfold average_time, median_time, max_time, min_time. rewrite Ht. done.
  - intros now st Ht. unfold print_summary. rewrite Ht. simpl. eauto.
  - intros now st Ht Hs Hf.
    destruct (success_rate_total st Hs Hf) as [r Hr].
    unfold generate_csv_report, middle_80_percent_time_range,
      average_time, median_time, max_time, min_time.
    rewrite Ht, Hr. simpl. eauto.
  - intros now n t0 rs st Ht.
    assert (Hs : successful_files st = 0 /\ 0 <= failed_files st).
    { pose proof (collect_all_successes rs (new_stats n t0)) as (H1 & H2 & H3).
      fold st in H1, H2, H3. rewrite Ht in H1. simpl in *. lia. }
    destruct Hs as [Hs Hfail].
    destruct (report_without_successes now st Ht Hs Hfail)
      as (a & b & c & d & e & f & Hrep).
    eexists. split; [exact Hrep|reflexivity].
Qed.

End EmptyMetrics.

Lemma empty_durations_total_witness :
  let sum := fold_left F.add in
  let st := collect_all (new_stats 1 F.zero)
              [mkResult "paper.pdf" "skipped" F.zero] in
  processing_times st = []
  /\ average_time (fun l => sum l F.zero) st = Ret F.zero
  /\ exists rows,
       generate_csv_report (fun l => sum l F.zero) (fun _ => F.zero)
         (fun _ _ => F.zero) (F.of_int 5) st = Ret rows.
Proof.
  pose proof (empty_durations_total (fun l => fold_left F.add l F.zero)
                (fun _ => F.zero) (fun _ _ => F.zero)) as (Hm & _ & _ & Hr).
  split; [reflexivity|]. split.
  - apply Hm. reflexivity.
  - destruct (Hr (F.of_int 5) 1 F.zero
                 [mkResult "paper.pdf" "skipped" F.zero] eq_refl)
      as (rows & Hrows & _).
    exists rows. exact Hrows.
Defined.

(** ** The worker pool *)

Lemma worker_status w r : worker_item w = Ret r -> valid_status r.
Proof.
  unfold worker_item, try_item, valid_status. intros H.
  destruct (classify_exn (run w)) as [e|]; simpl in H.
  - destruct (is_Exception e); [|done]. injection H as <-. simpl. tauto.
  - destruct (String.eqb (get_file_type (path w)) "pdf").
    { injection H as <-. simpl. tauto. }
    destruct (String.eqb (get_file_type (path w)) "tex").
    + destruct (convert (run w)) as [[]|e]; simpl in H.
      * injection H as <-. simpl. tauto.
      * injection H as <-. simpl. tauto.
      * destruct (is_Exception e); [|done]. injection H as <-. simpl. tauto.
    + injection H as <-. simpl. tauto.
Qed.

Lemma collect_result_counts st r :
  valid_status r ->
  processed_files (collect_result st r) = processed_files st + 1
  /\ total_files (collect_result st r) = total_files st
  /\ successful_files (collect_result st r) + failed_files (collect_result st r)
     + skipped_files (collect_result st r)
     = successful_files st + failed_files st + skipped_files st + 1.
Proof.
  intros [H|[H|H]]; unfold collect_result; rewrite H; simpl; lia.
Qed.

Lemma outcomes_app l l' :
  outcomes (l ++ l') = (outcomes l ++ outcomes l')%list.
Proof. apply omap_app. Qed.

Lemma outcomes_cons_ret w r l :
  worker_item w = Ret r -> outcomes (w :: l) = r :: outcomes l.
Proof. intros H. unfold outcomes. simpl. by rewrite H. Qed.

Lemma outcomes_in r l : r ∈ outcomes l -> exists w, worker_item w = Ret r.
Proof.
  unfold outcomes. rewrite list_elem_of_omap. intros (w & _ & H).
  exists w. destruct (worker_item w); congruence.
Qed.

Lemma outcomes_length l :
  Forall survives l -> length (outcomes l) = length l.
Proof.
  induction 1 as [|w l [r Hr] _ IH]; [done|].
  rewrite (outcomes_cons_ret _ _ _ Hr). simpl. by rewrite IH.
Qed.

(** Replacing the state of worker [i]. *)
Lemma busy_items_middle l1 x l2 :
  busy_items (l1 ++ x :: l2) = (busy_items l1 ++ busy_items [x] ++ busy_items l2)%list.
Proof.
  unfold busy_items. rewrite omap_app. f_equal. by destruct x.
Qed.

Lemma busy_items_insert ws i old new :
  ws !! i = Some old ->
  exists l1 l2,
    busy_items ws
    = (l1 ++ busy_items [old] ++ l2)%list
    /\ busy_items (<[i := new]> ws)
       = (l1 ++ busy_items [new] ++ l2)%list.
Proof.
  intros Hi.
  exists (busy_items (take i ws)), (busy_items (drop (S i) ws)).
  pose proof (lookup_lt_Some _ _ _ Hi) as Hlt.
  split.
  - rewrite <- (take_drop_middle ws i old Hi) at 1.
    apply busy_items_middle.
  - rewrite insert_take_drop by done.
    apply busy_items_middle.
Qed.

Lemma busy_count_middle l1 x l2 :
  busy_count (l1 ++ x :: l2)
  = (busy_count l1 + busy_count [x] + busy_count l2)%nat.
Proof.
  unfold busy_count. rewrite List.filter_app, length_app. simpl.
  destruct x; simpl; lia.
Qed.

Lemma busy_count_insert ws i old new :
  ws !! i = Some old ->
  (busy_count (<[i := new]> ws) + busy_count [old]
   = busy_count ws + busy_count [new])%nat.
Proof.
  intros Hi. pose proof (lookup_lt_Some _ _ _ Hi) as Hlt.
  pose proof (take_drop_middle ws i old Hi) as E.
  rewrite insert_take_drop by done.
  remember (take i ws) as l1 eqn:E1. remember (drop (S i) ws) as l2 eqn:E2.
  clear E1 E2. subst ws. rewrite !busy_count_middle. lia.
Qed.

(** Every step brings the pool closer to rest. *)
Ltac measure_arith :=
  unfold measure, remaining;
  cbn [file_queue result_queue workers stage];
  rewrite ?length_insert, ?length_app, ?length_replicate;
  cbn [length]; lia.

Lemma step_measure s s' : step s s' -> (measure s' < measure s)%nat.
Proof.
  intros [a H]. destruct s as [fq rq ws st sts col].
  destruct a as [i|i| |now]; simpl in H.
  - destruct (ws !! i) as [[|w|]|] eqn:Hw; try done.
    destruct fq as [|[w|] q]; try done; injection H as <-.
    + pose proof (busy_count_insert ws i _ (Busy w) Hw) as B.
      change (busy_count [Waiting]) with 0%nat in B.
      change (busy_count [Busy w]) with 1%nat in B.
      destruct st; measure_arith.
    + pose proof (busy_count_insert ws i _ Gone Hw) as B.
      change (busy_count [Waiting]) with 0%nat in B.
      change (busy_count [Gone]) with 0%nat in B.
      destruct st; measure_arith.
  - destruct (ws !! i) as [[|w|]|] eqn:Hw; try done.
    pose proof (busy_count_insert ws i _ Waiting Hw) as B1.
    pose proof (busy_count_insert ws i _ Gone Hw) as B2.
    change (busy_count [Waiting]) with 0%nat in B1.
    change (busy_count [Gone]) with 0%nat in B2.
    change (busy_count [Busy w]) with 1%nat in B1, B2.
    destruct (worker_item w); injection H as <-; destruct st; measure_arith.
  - destruct st as [[|n]|]; try done. destruct rq as [|r rq]; try done.
    injection H as <-. measure_arith.
  - destruct st as [[|n]|]; try done. injection H as <-. measure_arith.
Qed.

Lemma steps_measure n s s' :
  steps n s s' -> (n + measure s' <= measure s)%nat.
Proof.
  induction 1 as [s|n s s' s'' _ IH Hstep]; [lia|].
  apply step_measure in Hstep. lia.
Qed.

Lemma busy_items_replicate_waiting k : busy_items (replicate k Waiting) = [].
Proof. induction k; [done|]. simpl. done. Qed.

Lemma queued_map_Some l : queued (map Some l) = l.
Proof.
  induction l as [|w l IH]; [done|].
  unfold queued in *. simpl. f_equal. exact IH.
Qed.

Lemma queued_sentinels q k : queued (q ++ replicate k None) = queued q.
Proof.
  unfold queued. rewrite omap_app.
  replace (omap id (replicate k (@None work_item))) with (@nil work_item).
  - by rewrite app_nil_r.
  - induction k; [done|]. simpl. done.
Qed.

Lemma outcomes_cons w l :
  outcomes (w :: l) = (outcomes [w] ++ outcomes l)%list.
Proof. apply (outcomes_app [w] l). Qed.

Lemma init_pool_inv file_list num_workers now :
  Forall survives file_list ->
  pool_inv file_list (Z.to_nat num_workers)
           (init_pool file_list num_workers now).
Proof.
  intros Hs. unfold init_pool. split; simpl.
  - apply length_replicate.
  - by rewrite busy_items_replicate_waiting, queued_map_Some.
  - by rewrite busy_items_replicate_waiting, queued_map_Some.
  - unfold remaining. simpl. lia.
  - intros _. split.
    + apply List.Forall_forall. intros o Ho.
      apply in_map_iff in Ho as (w & <- & _). done.
    + apply Forall_forall. intros w Hw.
      apply elem_of_replicate in Hw as [-> _]. done.
  - lia.
Qed.

Lemma queued_cons_Some w q : queued (Some w :: q) = w :: queued q.
Proof. done. Qed.

Lemma queued_cons_None q : queued (None :: q) = queued q.
Proof. done. Qed.

Lemma busy_items_single w :
  busy_items [w] = match w with Busy x => [x] | _ => [] end.
Proof. by destruct w. Qed.

Ltac pool_fields :=
  cbn [file_queue result_queue workers stage stats collected] in *.

Lemma step_pool_inv file_list k s s' :
  pool_inv file_list k s -> step s s' -> pool_inv file_list k s'.
Proof.
  intros [Hk Hsurv Hacc Hcnt Hcol Hst] [a H].
  destruct s as [fq rq ws st sts col]. unfold remaining in Hcnt. pool_fields.
  destruct a as [i|i| |now]; cbn [step_fn] in H; pool_fields.
  - (* a worker takes an item or a sentinel *)
    destruct (ws !! i) as [[|w|]|] eqn:Hw; try done.
    destruct fq as [|[w|] q]; try done; injection H as <-.
    + destruct (busy_items_insert ws i _ (Busy w) Hw) as (l1 & l2 & E1 & E2).
      rewrite busy_items_single in E1, E2.
      rewrite queued_cons_Some in Hsurv, Hacc.
      split; unfold remaining; pool_fields.
      * by rewrite length_insert.
      * rewrite E2. rewrite E1 in Hsurv.
        assert (P : (l1 ++ [w] ++ l2) ++ queued q
                    ≡ₚ (l1 ++ [] ++ l2) ++ w :: queued q)
          by solve_Permutation.
        by rewrite P.
      * rewrite Hacc, E1, E2. rewrite !outcomes_app.
        rewrite (outcomes_cons w (queued q)). solve_Permutation.
      * exact Hcnt.
      * intros Hf. destruct (Hcol Hf) as [Hq Hg]. split.
        -- by inversion Hq.
        -- apply Forall_insert; done.
      * exact Hst.
    + destruct (busy_items_insert ws i _ Gone Hw) as (l1 & l2 & E1 & E2).
      rewrite busy_items_single in E1, E2.
      rewrite queued_cons_None in Hsurv, Hacc.
      split; unfold remaining; pool_fields.
      * by rewrite length_insert.
      * by rewrite E2, <- E1.
      * by rewrite E2, <- E1.
      * exact Hcnt.
      * intros Hf. destruct (Hcol Hf) as [Hq Hg].
        inversion Hq as [|? ? [? ?]]; done.
      * exact Hst.
  - (* a worker is done with its item *)
    destruct (ws !! i) as [[|w|]|] eqn:Hw; try done.
    destruct (busy_items_insert ws i _ Waiting Hw) as (l1 & l2 & E1 & E2).
    rewrite busy_items_single in E1, E2.
    assert (Hw_surv : survives w).
    { rewrite E1 in Hsurv.
      rewrite !Forall_app, Forall_cons in Hsurv. tauto. }
    destruct Hw_surv as [r Hr]. rewrite Hr in H. injection H as <-.
    split; unfold remaining; pool_fields.
    + by rewrite length_insert.
    + rewrite E2. rewrite E1 in Hsurv.
      rewrite !Forall_app, Forall_cons in Hsurv.
      rewrite !Forall_app. tauto.
    + rewrite Hacc, E1, E2. rewrite !outcomes_app.
      rewrite (outcomes_cons_ret w r [] Hr). solve_Permutation.
    + exact Hcnt.
    + intros Hf. destruct (Hcol Hf) as [Hq Hg]. split; [done|].
      apply Forall_insert; done.
    + exact Hst.
  - (* the parent takes a record *)
    destruct st as [[|n]|]; try done. destruct rq as [|r rq]; try done.
    injection H as <-.
    assert (Hr : valid_status r).
    { assert (Hin : r ∈ outcomes file_list).
      { rewrite Hacc, !elem_of_app, elem_of_cons. auto. }
      apply outcomes_in in Hin as [w Hw]. by apply worker_status in Hw. }
    destruct (collect_result_counts sts r Hr) as (C1 & C2 & C3).
    split; unfold remaining; pool_fields.
    + exact Hk.
    + exact Hsurv.
    + rewrite Hacc. solve_Permutation.
    + rewrite length_app. simpl. lia.
    + intros _. apply Hcol. done.
    + rewrite length_app. simpl. lia.
  - (* the parent shuts the pool down *)
    destruct st as [[|n]|]; try done. injection H as <-.
    split; unfold remaining; pool_fields.
    + exact Hk.
    + by rewrite queued_sentinels.
    + by rewrite queued_sentinels.
    + exact Hcnt.
    + done.
    + exact Hst.
Qed.

Lemma reachable_pool_inv file_list num_workers now s :
  Forall survives file_list ->
  reachable (init_pool file_list num_workers now) s ->
  pool_inv file_list (Z.to_nat num_workers) s.
Proof.
  intros Hs [n Hn].
  remember (init_pool file_list num_workers now) as s0 eqn:E.
  induction Hn as [s|n s s' s'' _ IH Hstep]; subst.
  - by apply init_pool_inv.
  - eapply step_pool_inv; [apply IH|]; done.
Qed.

Lemma busy_items_nil ws i w :
  busy_items ws = [] -> ws !! i <> Some (Busy w).
Proof.
  intros Hb Hi.
  destruct (busy_items_insert ws i _ Waiting Hi) as (l1 & l2 & E & _).
  rewrite Hb, busy_items_single in E. by destruct l1.
Qed.

Lemma busy_items_cons ws x l :
  busy_items ws = x :: l -> exists i w, ws !! i = Some (Busy w).
Proof.
  induction ws as [|[|w|] ws IH]; intros Hb; try done.
  - destruct (IH Hb) as (i & w & Hi). by exists (S i), w.
  - by exists O, w.
  - destruct (IH Hb) as (i & w & Hi). by exists (S i), w.
Qed.

(** While the parent is collecting, something can always move. *)
Lemma pool_progress file_list k s :
  (0 < k)%nat -> Forall survives file_list ->
  pool_inv file_list k s -> stage s <> Finished -> exists s', step s s'.
Proof.
  intros Hpos Hfl [Hk Hsurv Hacc Hcnt Hcol Hst] Hstage.
  destruct (Hcol Hstage) as [Hq Hg].
  destruct s as [fq rq ws st sts col]. unfold remaining in Hcnt. pool_fields.
  destruct st as [[|n]|]; [| |done].
  { eexists. exists (Shutdown F.zero). reflexivity. }
  destruct rq as [|r rq].
  2: { eexists. exists Collect. reflexivity. }
  destruct (busy_items ws) as [|x l] eqn:Hb.
  2: { destruct (busy_items_cons _ _ _ Hb) as (i & w & Hi).
       destruct (worker_item w) as [r|e] eqn:Hr;
         eexists; exists (Finish i); cbn [step_fn]; pool_fields;
         rewrite Hi, Hr; reflexivity. }
  destruct fq as [|o q].
  { apply Permutation_length in Hacc.
    rewrite outcomes_length in Hacc by done.
    rewrite !length_app in Hacc. simpl in Hacc. lia. }
  inversion Hq as [|? ? [w ->] _]; subst.
  destruct ws as [|x ws]; [simpl in Hpos; lia|].
  destruct x as [|w'|].
  - eexists. exists (Take 0). reflexivity.
  - by specialize (busy_items_nil (Busy w' :: ws) 0 w' Hb).
  - by inversion Hg.
Qed.

(** Once the parent is through, every item has been counted once. *)
Lemma pool_finished file_list k s :
  Forall survives file_list ->
  pool_inv file_list k s -> stage s = Finished ->
  collected s ≡ₚ outcomes file_list
  /\ processed_files (stats s) = Z.of_nat (length file_list)
  /\ total_files (stats s) = Z.of_nat (length file_list)
  /\ successful_files (stats s) + failed_files (stats s)
     + skipped_files (stats s) = Z.of_nat (length file_list).
Proof.
  intros Hfl [Hk Hsurv Hacc Hcnt Hcol Hst] Hstage.
  unfold remaining in Hcnt. rewrite Hstage in Hcnt.
  assert (Hlen : length (collected s) = length file_list) by lia.
  split; [|rewrite Hlen in Hst; tauto].
  pose proof (Permutation_length Hacc) as Hl.
  rewrite outcomes_length in Hl by done.
  rewrite !length_app in Hl.
  destruct (result_queue s); [|simpl in Hl; lia].
  destruct (outcomes (busy_items (workers s))); [|simpl in Hl; lia].
  destruct (outcomes (queued (file_queue s))); [|simpl in Hl; lia].
  by rewrite Hacc, !app_nil_r.
Qed.

Lemma steps_cons n s s1 s' :
  step s s1 -> steps n s1 s' -> steps (S n) s s'.
Proof.
  intros Hstep Hn. induction Hn as [s1|n s1 s2 s3 _ IH Hlast].
  - eapply steps_S; [apply steps_O|exact Hstep].
  - eapply steps_S; [apply IH, Hstep|exact Hlast].
Qed.

Lemma play_reachable sched : forall s s',
  play sched s = Some s' -> reachable s s'.
Proof.
  induction sched as [|a sched IH]; intros s s' H; simpl in H.
  - injection H as <-. exists O. constructor.
  - destruct (step_fn a s) as [s1|] eqn:E; [|done].
    destruct (IH _ _ H) as [n Hn]. exists (S n).
    eapply steps_cons; [by exists a|exact Hn].
Qed.

(** From every state of such a run some scheduler brings the parent to
    the end. *)
Lemma run_completes file_list k :
  (0 < k)%nat -> Forall survives file_list ->
  forall n s, (measure s <= n)%nat -> pool_inv file_list k s ->
    exists sched s', play sched s = Some s' /\ stage s' = Finished.
Proof.
  intros Hk Hfl. induction n as [|n IH]; intros s Hm Hinv.
  - destruct (stage s) eqn:Hs; [|by exists [], s].
    unfold measure in Hm. rewrite Hs in Hm. lia.
  - destruct (stage s) eqn:Hs; [|by exists [], s].
    destruct (pool_progress file_list k s Hk Hfl Hinv) as [s1 Hstep];
      [by rewrite Hs|].
    pose proof (step_measure _ _ Hstep) as Hlt.
    pose proof (step_pool_inv _ _ _ _ Hinv Hstep) as Hinv1.
    destruct (IH s1) as (sched & s' & Hplay & Hend); [lia|done|].
    destruct Hstep as [a Ha].
    exists (a :: sched), s'. simpl. by rewrite Ha.
Qed.

(** A run of that pool under one scheduler: both workers take an item,
    the second finishes first, and the parent ends with one success, one
    failure and one skipped record. *)
Example pool_run_example :
  let t := F.of_int 3 in
  let file_list :=
    [ mkItem "2208.00001.gz" (mkRun None (Ret true) F.zero t);
      mkItem "2208.00002.pdf" (mkRun None (Ret true) F.zero t);
      mkItem "2208.00003.gz"
             (mkRun None (Raise (OtherException "timeout")) F.zero t) ] in
  let sched :=
    [ Take 0; Take 1; Finish 1; Collect; Take 1; Finish 0; Finish 1;
      Collect; Collect; Shutdown (F.of_int 9); Take 0; Take 1 ]%nat in
  (fun s => (stage s, workers s, map status (collected s),
             successful_files (stats s), failed_files (stats s),
             skipped_files (stats s), processing_times (stats s)))
    <$> play sched (init_pool file_list 2 F.zero)
  = Some (Finished, [Gone; Gone], ["skipped"; "success"; "failure"],
          1, 1, 1, [t; t]).
Proof. vm_compute. reflexivity. Qed.

(** ** A worker lost with its item *)

Lemma outcomes_cons_raise w e l :
  worker_item w = Raise e -> outcomes (w :: l) = outcomes l.
Proof. intros H. unfold outcomes. simpl. by rewrite H. Qed.

Lemma outcomes_length_le l : (length (outcomes l) <= length l)%nat.
Proof.
  induction l as [|w l IH]; [done|].
  destruct (worker_item w) as [r|e] eqn:Hw.
  - rewrite (outcomes_cons_ret _ _ _ Hw). simpl. lia.
  - rewrite (outcomes_cons_raise _ _ _ Hw). simpl. lia.
Qed.

Lemma outcomes_short l :
  ~ Forall survives l -> (length (outcomes l) < length l)%nat.
Proof.
  induction l as [|w l IH]; intros H; [destruct H; constructor|].
  destruct (worker_item w) as [r|e] eqn:Hw.
  - rewrite (outcomes_cons_ret _ _ _ Hw). simpl.
    assert (~ Forall survives l).
    { intros Hl. apply H. constructor; [by exists r|done]. }
    specialize (IH H0). lia.
  - rewrite (outcomes_cons_raise _ _ _ Hw). simpl.
    pose proof (outcomes_length_le l). lia.
Qed.

Lemma init_pool_accounts file_list num_workers now :
  pool_accounts file_list (init_pool file_list num_workers now).
Proof.
  unfold pool_accounts, init_pool, remaining. pool_fields.
  rewrite busy_items_replicate_waiting, queued_map_Some. simpl.
  split; [done|lia].
Qed.

Lemma step_pool_accounts file_list s s' :
  pool_accounts file_list s -> step s s' -> pool_accounts file_list s'.
Proof.
  intros [Hacc Hcnt] [a H]. unfold pool_accounts.
  destruct s as [fq rq ws st sts col]. unfold remaining in *. pool_fields.
  destruct a as [i|i| |now]; cbn [step_fn] in H; pool_fields.
  - destruct (ws !! i) as [[|w|]|] eqn:Hw; try done.
    destruct fq as [|[w|] q]; try done; injection H as <-; pool_fields.
    + destruct (busy_items_insert ws i _ (Busy w) Hw) as (l1 & l2 & E1 & E2).
      rewrite busy_items_single in E1, E2.
      rewrite queued_cons_Some in Hacc. split; [|done].
      rewrite Hacc, E1, E2. rewrite !outcomes_app.
      rewrite (outcomes_cons w (queued q)). solve_Permutation.
    + destruct (busy_items_insert ws i _ Gone Hw) as (l1 & l2 & E1 & E2).
      rewrite busy_items_single in E1, E2.
      rewrite queued_cons_None in Hacc. split; [|done].
      by rewrite E2, <- E1.
  - destruct (ws !! i) as [[|w|]|] eqn:Hw; try done.
    destruct (worker_item w) as [r|e] eqn:Hr; injection H as <-; pool_fields.
    + destruct (busy_items_insert ws i _ Waiting Hw) as (l1 & l2 & E1 & E2).
      rewrite busy_items_single in E1, E2. split; [|done].
      rewrite Hacc, E1, E2. rewrite !outcomes_app.
      rewrite (outcomes_cons_ret w r [] Hr). solve_Permutation.
    + destruct (busy_items_insert ws i _ Gone Hw) as (l1 & l2 & E1 & E2).
      rewrite busy_items_single in E1, E2. split; [|done].
      rewrite Hacc, E1, E2. rewrite !outcomes_app.
      by rewrite (outcomes_cons_raise w e [] Hr).
  - destruct st as [[|n]|]; try done. destruct rq as [|r rq]; try done.
    injection H as <-. pool_fields. split.
    + rewrite Hacc. solve_Permutation.
    + rewrite length_app. simpl. lia.
  - destruct st as [[|n]|]; try done. injection H as <-. pool_fields.
    by rewrite queued_sentinels.
Qed.

Lemma reachable_pool_accounts file_list num_workers now s :
  reachable (init_pool file_list num_workers now) s ->
  pool_accounts file_list s.
Proof.
  intros [n Hn].
  remember (init_pool file_list num_workers now) as s0 eqn:E.
  induction Hn as [s|n s s1 s2 _ IH Hstep]; subst.
  - apply init_pool_accounts.
  - eapply step_pool_accounts; [by apply IH|done].
Qed.

(** Whatever the number of workers and the scheduler: when one of the
    items costs its worker, the parent never gets out of its collecting
    loop, and [process_files] does not return. *)
Lemma lost_item_blocks_every_run file_list num_workers now :
  ~ Forall survives file_list ->
  (forall s, reachable (init_pool file_list num_workers now) s ->
             stage s <> Finished)
  /\ forall sched, process_files file_list num_workers now sched = None.
Proof.
  intros Hlost.
  assert (Hnever : forall s,
            reachable (init_pool file_list num_workers now) s ->
            stage s <> Finished).
  { intros s Hr Hs.
    destruct (reachable_pool_accounts _ _ _ _ Hr) as [Hacc Hcnt].
    unfold remaining in Hcnt.
    rewrite Hs in Hcnt. apply Permutation_length in Hacc.
    rewrite !length_app in Hacc.
    pose proof (outcomes_short file_list Hlost). lia. }
  split; [exact Hnever|].
  intros sched. unfold process_files.
  destruct (play sched (init_pool file_list num_workers now)) as [s|] eqn:Hp;
    [|done].
  simpl. apply play_reachable in Hp. apply Hnever in Hp.
  by destruct (stage s).
Qed.

(** C2 (evaluation).  One item whose converter raises [SystemExit]:
    with any number of workers and under any scheduler [process_files]
    does not return; with one worker, the worker leaves its loop with
    nothing put on the result queue, and from then on no step is
    possible while the parent still waits for its one record; it never
    reaches the shutdown with its bounded joins. *)
Theorem lost_worker_blocks_collection :
  let w := mkItem "2208.00001.gz"
                  (mkRun None (Raise SystemExit) F.zero (F.of_int 3)) in
  let s0 := init_pool [w] 1 F.zero in
  (forall num_workers sched,
     process_files [w] num_workers F.zero sched = None)
  /\ (forall s, reachable s0 s -> stage s = Collecting 1)
  /\ exists s, play [Take O; Finish O] s0 = Some s
               /\ workers s = [Gone] /\ result_queue s = []
               /\ forall s', ~ step s s'.
Proof.
  intros w s0. split.
  { intros num_workers sched.
    apply lost_item_blocks_every_run.
    intros H. inversion H as [|? ? [r Hr] _]. discriminate. }
  set (s1 := mkPool [] [] [Busy w] (Collecting 1) (new_stats 1 F.zero) []).
  set (s2 := mkPool [] [] [Gone] (Collecting 1) (new_stats 1 F.zero) []).
  assert (Hstuck : forall s', ~ step s2 s').
  { intros s' [a Ha].
    destruct a as [[|i]|[|i]| |t]; simpl in Ha; discriminate. }
  assert (Hreach : forall s, reachable s0 s -> s = s0 \/ s = s1 \/ s = s2).
  { intros s [n Hn]. revert s Hn.
    induction n as [|n IH]; intros s Hn.
    { inversion Hn. by left. }
    inversion Hn as [|n' a s' b Hn' Hstep]. clear Hn.
    destruct (IH s' Hn') as [E | [E | E]]; rewrite E in Hstep.
    - destruct Hstep as [act Ha].
      destruct act as [[|i]|[|i]| |t]; simpl in Ha; try discriminate.
      injection Ha as <-. right; left. reflexivity.
    - destruct Hstep as [act Ha].
      destruct act as [[|i]|[|i]| |t]; simpl in Ha; try discriminate.
      injection Ha as <-. right; right. reflexivity.
    - by apply Hstuck in Hstep. }
  split.
  - intros s Hs. destruct (Hreach s Hs) as [E | [E | E]]; by rewrite E.
  - exists s2. repeat split. exact Hstuck.
Qed.

(** ** Exceptions in the worker *)

(** C8 (counterexample).  A converter that raises [SystemExit]: the
    exception leaves the inner [try] unconverted, the worker held at
    index 0 is gone after its turn and the result queue is still
    empty. *)
Lemma system_exit_costs_the_worker :
  let w := mkItem "2208.00001.gz"
                  (mkRun None (Raise SystemExit) F.zero (F.of_int 3)) in
  let s := mkPool [] [] [Busy w] (Collecting 1) (new_stats 1 F.zero) [] in
  try_item w = Raise SystemExit
  /\ worker_item w = Raise SystemExit
  /\ worker_process [Some w; None] = ([], LeftOnInterrupt SystemExit)
  /\ (fun s' => (workers s', result_queue s')) <$> step_fn (Finish 0) s
     = Some ([Gone], [])
  /\ ~ (forall w e, try_item w = Raise e ->
          exists r, worker_item w = Ret r /\ status r = "failure").
Proof.
  repeat split.
  intros H.
  destruct (H (mkItem "2208.00001.gz"
                 (mkRun None (Raise SystemExit) F.zero (F.of_int 3)))
              SystemExit eq_refl) as (r & Hr & _).
  discriminate.
Qed.

(** C8 (amended).  An exception raised while classifying or converting
    an item that derives from [Exception] is turned into one ['failure']
    record for that item, put on the result queue, and the worker goes
    on with the rest of its queue; any other exception
    ([KeyboardInterrupt], [SystemExit]) leaves the turn unconverted: no
    record is put and the worker is gone. *)
Theorem worker_exception_handling (w : work_item) (e : exn) :
  try_item w = Raise e ->
  let failure := mkResult (path w) "failure" (elapsed w) in
  (is_Exception e = true ->
     worker_item w = Ret failure
     /\ (forall q,
           worker_process (Some w :: q)
           = (failure :: fst (worker_process q), snd (worker_process q)))
     /\ forall s i, workers s !! i = Some (Busy w) ->
          step_fn (Finish i) s
          = Some (mkPool (file_queue s) (result_queue s ++ [failure])
                    (<[i := Waiting]> (workers s))
                    (stage s) (stats s) (collected s)))
  /\ (is_Exception e = false ->
        worker_item w = Raise e
        /\ (forall q,
              worker_process (Some w :: q)
              = ([], if is_interrupt_or_exit e then LeftOnInterrupt e
                     else Crashed e))
        /\ forall s i, workers s !! i = Some (Busy w) ->
             step_fn (Finish i) s
             = Some (mkPool (file_queue s) (result_queue s)
                       (<[i := Gone]> (workers s))
                       (stage s) (stats s) (collected s))).
Proof.
  intros Ht failure.
  assert (Hw : worker_item w =
               if is_Exception e then Ret failure else Raise e).
  { unfold worker_item. by rewrite Ht. }
  split; intros He; rewrite He in Hw; (split; [exact Hw|]); split.
  - intros q. cbn [worker_process]. rewrite Hw.
    by destruct (worker_process q).
  - intros s i Hi. cbn [step_fn]. by rewrite Hi, Hw.
  - intros q. cbn [worker_process]. rewrite Hw.
    by destruct (is_interrupt_or_exit e).
  - intros s i Hi. cbn [step_fn]. by rewrite Hi, Hw.
Qed.

Lemma worker_exception_handling_witness :
  let w := mkItem "2208.00003.gz"
                  (mkRun None (Raise (OtherException "timeout"))
                         F.zero (F.of_int 3)) in
  try_item w = Raise (OtherException "timeout")
  /\ is_Exception (OtherException "timeout") = true
  /\ worker_item w = Ret (mkResult "2208.00003.gz" "failure" (F.of_int 3)).
Proof.
  intros w.
  assert (Ht : try_item w = Raise (OtherException "timeout"))
    by reflexivity.
  split; [exact Ht|]. split; [reflexivity|].
  destruct (worker_exception_handling w _ Ht) as [Hexc _].
  destruct (Hexc eq_refl) as [Hw _]. exact Hw.
Defined.

(** ** Dictionaries *)

Section DictFacts.

Context {V : Type}.
Implicit Types (d : list (string * V)) (k : string) (v : V).

Lemma dict_get_set_eq k v d : dict_get k (dict_set k v d) = Some v.
Proof.
  induction d as [|[k' v'] d IH]; simpl.
  - by rewrite String.eqb_refl.
  - destruct (String.eqb k k') eqn:E; simpl; rewrite E; done.
Qed.

Lemma dict_get_set_ne k k' v d :
  k <> k' -> dict_get k' (dict_set k v d) = dict_get k' d.
Proof.
  intros Hne. induction d as [|[k0 v0] d IH]; simpl.
  - destruct (String.eqb k' k) eqn:E; [|done].
    apply String.eqb_eq in E. congruence.
  - destruct (String.eqb k k0) eqn:E; simpl; [|by rewrite IH].
    apply String.eqb_eq in E. subst k0.
    destruct (String.eqb k' k) eqn:E'; [|done].
    apply String.eqb_eq in E'. congruence.
Qed.

Lemma dict_set_keys k v d :
  dict_mem k d = true -> map fst (dict_set k v d) = map fst d.
Proof.
  unfold dict_mem. induction d as [|[k0 v0] d IH]; simpl; [done|].
  destruct (String.eqb k k0) eqn:E; simpl; [done|].
  intros H. by rewrite IH.
Qed.

Lemma dict_set_fresh k v d :
  dict_get k d = None -> dict_set k v d = (d ++ [(k, v)])%list.
Proof.
  induction d as [|[k0 v0] d IH]; simpl; [done|].
  destruct (String.eqb k k0); [done|]. intros H. by rewrite IH.
Qed.

Lemma dict_get_app_l k v d d' :
  dict_get k d = Some v -> dict_get k (d ++ d') = Some v.
Proof.
  induction d as [|[k0 v0] d IH]; simpl; [done|].
  destruct (String.eqb k k0); auto.
Qed.

Lemma dict_get_app_r k d d' :
  dict_get k d = None -> dict_get k (d ++ d') = dict_get k d'.
Proof.
  induction d as [|[k0 v0] d IH]; simpl; [done|].
  destruct (String.eqb k k0); [done|]. auto.
Qed.

Lemma dict_get_None k d : dict_get k d = None <-> ~ In k (map fst d).
Proof.
  induction d as [|[k0 v0] d IH]; simpl; [tauto|].
  destruct (String.eqb k k0) eqn:E.
  - apply String.eqb_eq in E. subst k0. split; [done|].
    intros H. destruct H. by left.
  - apply String.eqb_neq in E. rewrite IH. split.
    + intros H [H'|H']; [congruence|tauto].
    + tauto.
Qed.

Lemma dict_get_In k v d :
  NoDup (map fst d) -> In (k, v) d -> dict_get k d = Some v.
Proof.
  induction d as [|[k0 v0] d IH]; simpl; [done|].
  intros Hnd [H|H]; apply NoDup_cons in Hnd as [Hk0 Hnd].
  - injection H as -> ->. by rewrite String.eqb_refl.
  - destruct (String.eqb k k0) eqn:E; [|auto].
    apply String.eqb_eq in E. subst k0. destruct Hk0.
    apply list_elem_of_In. apply (in_map fst) in H. exact H.
Qed.

End DictFacts.

(** ** Sorting the backlog *)

Section SortFacts.

Context {A : Type} (key : A -> Z).

Lemma insert_desc_perm x l : insert_desc key x l ≡ₚ x :: l.
Proof.
  induction l as [|y l IH]; simpl; [done|].
  destruct (key x <? key y); [|done].
  rewrite IH. apply perm_swap.
Qed.

Lemma sort_desc_perm l : sort_desc key l ≡ₚ l.
Proof.
  induction l as [|x l IH]; simpl; [done|].
  by rewrite insert_desc_perm, IH.
Qed.





End SortFacts.

(** ** The state store *)

Lemma discover_grows globbed found : forall d,
  incl (map fst found) (map fst globbed) ->
  NoDup (map fst d) ->
  exists added,
    fold_left discover found d = (d ++ added)%list
    /\ Forall (discovered globbed d) added
    /\ NoDup (map fst (d ++ added)).
Proof.
  induction found as [|[filename filepath] found IH]; intros d Hincl Hnd.
  { exists []. rewrite app_nil_r. by repeat split. }
  assert (Hincl' : incl (map fst found) (map fst globbed)).
  { intros x Hx. apply Hincl. by right. }
  cbn [fold_left discover]. unfold dict_mem.
  destruct (dict_get filename d) as [e|] eqn:Hget.
  { destruct (IH d Hincl' Hnd) as (added & E & Hadd & Hnd').
    by exists added. }
  rewrite (dict_set_fresh _ _ _ Hget).
  set (e := mkEntry filepath "pending" (get_priority_from_filename filename)).
  assert (Hnd1 : NoDup (map fst (d ++ [(filename, e)]))).
  { rewrite map_app. simpl. apply NoDup_app. repeat split; [done| |].
    - intros x Hx Hx'. apply list_elem_of_singleton in Hx'. subst x.
      apply dict_get_None in Hget. apply Hget. by apply list_elem_of_In.
    - apply NoDup_singleton. }
  destruct (IH _ Hincl' Hnd1) as (added & E & Hadd & Hnd').
  exists ((filename, e) :: added). rewrite E, <- !app_assoc. simpl.
  split; [done|]. split; [|by rewrite <- app_assoc in Hnd'].
  constructor.
  - repeat split; simpl; [|done]. apply Hincl. by left.
  - eapply Forall_impl; [exact Hadd|].
    intros [name e'] (H1 & H2 & H3 & H4). repeat split; try done.
    simpl in *. apply dict_get_None. apply dict_get_None in H4.
    rewrite map_app, in_app_iff in H4. tauto.
Qed.

Lemma found_files_keys (globbed : list (string * string)) :
  forall (acc : list (string * string)) k,
  In k (map fst (fold_left (fun d '(name, p) => dict_set name p d)
                           globbed acc)) ->
  In k (map fst acc) \/ In k (map fst globbed).
Proof.
  induction globbed as [|[name p] globbed IH]; intros acc k Hk; [by left|].
  cbn [fold_left] in Hk. apply IH in Hk as [Hk|Hk]; [|right; by right].
  destruct (dict_get name acc) as [v|] eqn:Hget.
  - rewrite dict_set_keys in Hk; [by left|]. unfold dict_mem. by rewrite Hget.
  - rewrite (dict_set_fresh _ _ _ Hget), map_app, in_app_iff in Hk.
    destruct Hk as [Hk|[<-|[]]]; [by left|]. right. by left.
Qed.

Lemma initialize_state_grows state_file globbed :
  NoDup (map fst (default [] state_file)) ->
  exists added,
    fst (initialize_state state_file globbed)
    = (default [] state_file ++ added)%list
    /\ Forall (discovered globbed (default [] state_file)) added
    /\ NoDup (map fst (default [] state_file ++ added)).
Proof.
  intros Hnd. unfold initialize_state. cbn [fst].
  apply discover_grows; [|done].
  intros k Hk. apply found_files_keys in Hk as [[]|Hk]. exact Hk.
Qed.

Lemma mark_keys filename status d : map fst (mark filename status d) = map fst d.
Proof.
  unfold mark. destruct (dict_get filename d) eqn:Hget; [|done].
  apply dict_set_keys. unfold dict_mem. by rewrite Hget.
Qed.

Lemma mark_advanced filename status d0 d e0 :
  status = "completed" \/ status = "failed" ->
  dict_get filename d0 = Some e0 -> entry_status e0 = "pending" ->
  store_advanced d0 d -> store_advanced d0 (mark filename status d).
Proof.
  intros Hst Hget Hpend [Hkeys Hadv]. split.
  { by rewrite mark_keys. }
  intros name e Hname.
  destruct (Hadv name e Hname) as (e' & Hget' & Hp & Hq & Hs).
  unfold mark. destruct (decide (filename = name)) as [<-|Hne].
  - rewrite Hget'. rewrite dict_get_set_eq. eexists. split; [done|].
    assert (e = e0) as -> by congruence.
    repeat split; simpl; try done. right. tauto.
  - destruct (dict_get filename d); [|by eauto].
    rewrite dict_get_set_ne by done. exists e'. by repeat split.
Qed.

Lemma process_tasks_advanced world tasks : forall d0 d,
  (forall name info, In (name, info) tasks ->
     exists e, dict_get name d0 = Some e /\ entry_status e = "pending") ->
  store_advanced d0 d ->
  store_advanced d0 (fst (process_tasks world tasks d)).
Proof.
  induction tasks as [|[filename info] tasks IH]; intros d0 d Htasks Hadv;
    [done|].
  cbn [process_tasks].
  destruct (process_archive world filename d) as [d1 evs1] eqn:E1.
  destruct (process_tasks world tasks d1) as [d2 evs2] eqn:E2.
  cbn [fst].
  replace d2 with (fst (process_tasks world tasks d1)) by (by rewrite E2).
  apply IH.
  { intros name info' Hin. apply (Htasks name info'). by right. }
  destruct (Htasks filename info) as (e0 & Hget & Hpend); [by left|].
  unfold process_archive in E1.
  destruct (world filename); injection E1 as <- _;
    eapply mark_advanced; eauto.
Qed.

Lemma store_advanced_refl d : store_advanced d d.
Proof.
  split; [done|]. intros name e H. exists e. split; [done|].
  repeat split. by left.
Qed.

Lemma initialize_state_pending state_file globbed :
  snd (initialize_state state_file globbed)
  = sort_desc task_priority
      (List.filter is_pending (fst (initialize_state state_file globbed))).
Proof. reflexivity. Qed.

Lemma pending_tasks_in_store state_file globbed name info :
  NoDup (map fst (default [] state_file)) ->
  In (name, info) (snd (initialize_state state_file globbed)) ->
  dict_get name (fst (initialize_state state_file globbed)) = Some info
  /\ entry_status info = "pending".
Proof.
  intros Hnd Hin.
  destruct (initialize_state_grows state_file globbed Hnd)
    as (added & E & _ & Hnd').
  rewrite initialize_state_pending in Hin.
  apply list_elem_of_In in Hin. rewrite sort_desc_perm in Hin.
  apply list_elem_of_In, filter_In in Hin as [Hin Hp].
  split.
  - apply dict_get_In; [by rewrite E|exact Hin].
  - unfold is_pending in Hp. by apply String.eqb_eq in Hp.
Qed.

Lemma main_store_advanced state_file globbed world :
  NoDup (map fst (default [] state_file)) ->
  exists d',
    fst (main true state_file globbed world) = Some d'
    /\ store_advanced (fst (initialize_state state_file globbed)) d'.
Proof.
  intros Hnd. unfold main. cbn [negb].
  pose proof (pending_tasks_in_store state_file globbed) as Hp.
  destruct (initialize_state state_file globbed) as [d pending_tasks].
  cbn [fst snd] in Hp.
  destruct (is_empty pending_tasks).
  { exists d. split; [done|]. apply store_advanced_refl. }
  pose proof (process_tasks_advanced world pending_tasks d d) as Hadv.
  destruct (process_tasks world pending_tasks d) as [d' evs].
  exists d'. split; [done|]. apply Hadv; [|apply store_advanced_refl].
  intros name info Hin. exists info. by apply Hp.
Qed.

Lemma nothing_to_discover (d : store) found :
  incl (map fst found) (map fst d) -> fold_left discover found d = d.
Proof.
  induction found as [|[filename filepath] found IH]; intros Hincl; [done|].
  cbn [fold_left discover]. unfold dict_mem.
  destruct (dict_get filename d) eqn:Hget.
  - apply IH. intros x Hx. apply Hincl. by right.
  - apply dict_get_None in Hget. destruct Hget. apply Hincl. by left.
Qed.

Lemma no_pending_when_completed (d : store) :
  Forall (fun item => entry_status (snd item) = "completed") d ->
  List.filter is_pending d = [].
Proof.
  induction 1 as [|[name e] d He _ IH]; [done|].
  cbn [List.filter]. unfold is_pending at 1. simpl in *.
  rewrite He. exact IH.
Qed.

(** A run over a store with one completed and one newly found archive:
    only the new one is processed, and the completed one is untouched. *)
Example main_run_example :
  let old := mkEntry "/data/arXiv_src_2201_005.tar" "completed" 2201005 in
  let d := [("arXiv_src_2201_005.tar", old)] in
  let globbed := [("arXiv_src_2201_005.tar", "/data/arXiv_src_2201_005.tar");
                  ("arXiv_src_2203_001.tar", "/data/arXiv_src_2203_001.tar")] in
  main true (Some d) globbed (fun _ => PoolRaised)
  = (Some [("arXiv_src_2201_005.tar", old);
           ("arXiv_src_2203_001.tar",
            mkEntry "/data/arXiv_src_2203_001.tar" "failed" 2203001)],
     [MonitorStarted; PoolStarted "arXiv_src_2203_001.tar";
      Marked "arXiv_src_2203_001.tar" "failed"; MonitorStopped]).
Proof. vm_compute. reflexivity. Qed.

(** ** The file-name pattern *)

Lemma match_lit_inv l p s groups :
  Re.match_here (map Re.Lit l ++ p) s = Some groups ->
  exists s', s = (l ++ s')%list /\ Re.match_here p s' = Some groups.
Proof.
  revert s. induction l as [|a l IH]; intros s H; simpl in *.
  - by exists s.
  - destruct s as [|c s]; [done|].
    destruct (Ascii.eqb a c) eqn:E; [|done].
    apply Ascii.eqb_eq in E. subst c.
    destruct (IH s H) as (s' & -> & H'). by exists s'.
Qed.

Lemma match_lit l p s :
  Re.match_here (map Re.Lit l ++ p) (l ++ s) = Re.match_here p s.
Proof.
  induction l as [|a l IH]; simpl; [done|]. by rewrite Ascii.eqb_refl.
Qed.

Lemma try_lengths_inv k rest s groups :
  Re.try_lengths k rest s = Some groups ->
  exists j groups',
    (1 <= j <= k)%nat /\ groups = take j s :: groups'
    /\ rest (drop j s) = Some groups'.
Proof.
  induction k as [|k IH]; [done|]. cbn [Re.try_lengths].
  destruct (rest (drop (S k) s)) as [groups'|] eqn:E.
  - intros [= <-]. exists (S k), groups'. repeat split; [lia|lia|done].
  - intros H. destruct (IH H) as (j & groups' & Hj & Hg & Hr).
    exists j, groups'. repeat split; [lia|lia|done|done].
Qed.

Lemma take_digit_run j s :
  (j <= Re.digit_run s)%nat ->
  all_digits (take j s) /\ length (take j s) = j.
Proof.
  revert s. induction j as [|j IH]; intros s Hj.
  - split; [constructor|done].
  - destruct s as [|c s]; simpl in Hj; [lia|].
    destruct (Re.is_digit c) eqn:E; [|lia].
    destruct (IH s) as [Hd Hl]; [lia|]. split.
    + simpl. by constructor.
    + simpl. by rewrite Hl.
Qed.

Lemma digit_run_app g c s :
  all_digits g -> Re.is_digit c = false ->
  Re.digit_run (g ++ c :: s) = length g.
Proof.
  intros Hg Hc. induction Hg as [|d g Hd _ IH]; simpl.
  - by rewrite Hc.
  - by rewrite Hd, IH.
Qed.

Lemma try_lengths_longest g c s rest groups :
  g <> [] -> all_digits g -> Re.is_digit c = false ->
  rest (c :: s) = Some groups ->
  Re.try_lengths (Re.digit_run (g ++ c :: s)) rest (g ++ c :: s)
  = Some (g :: groups).
Proof.
  intros Hne Hg Hc Hrest. rewrite digit_run_app by done.
  destruct g as [|d g]; [done|]. cbn [length Re.try_lengths].
  change (S (length g)) with (length (d :: g)).
  rewrite drop_app_length, Hrest, take_app_length. done.
Qed.

Lemma src_tar_sound s groups :
  Re.match_here Re.src_tar s = Some groups ->
  exists g1 g2 post,
    groups = [g1; g2]
    /\ s = (list_ascii_of_string "src_" ++ g1 ++ ["_"%char] ++ g2
            ++ list_ascii_of_string ".tar" ++ post)%list
    /\ g1 <> [] /\ g2 <> [] /\ all_digits g1 /\ all_digits g2.
Proof.
  unfold Re.src_tar, Re.lit. intros H.
  apply match_lit_inv in H as (s1 & -> & H).
  cbn [app Re.match_here] in H.
  apply try_lengths_inv in H as (j1 & groups1 & Hj1 & -> & H).
  change (Re.match_here (map Re.Lit ["_"%char]
            ++ Re.Digits :: map Re.Lit (list_ascii_of_string ".tar") ++ [])
            (drop j1 s1) = Some groups1) in H.
  apply match_lit_inv in H as (s2 & E1 & H).
  cbn [Re.match_here] in H.
  apply try_lengths_inv in H as (j2 & groups2 & Hj2 & -> & H).
  apply match_lit_inv in H as (post & E2 & H).
  injection H as <-.
  destruct (take_digit_run j1 s1) as [D1 L1]; [lia|].
  destruct (take_digit_run j2 s2) as [D2 L2]; [lia|].
  exists (take j1 s1), (take j2 s2), post. repeat split; try done.
  - rewrite <- (take_drop j1 s1) at 1. rewrite E1.
    rewrite <- (take_drop j2 s2) at 1. rewrite E2. done.
  - intros E. rewrite E in L1. simpl in L1. lia.
  - intros E. rewrite E in L2. simpl in L2. lia.
Qed.

Lemma src_tar_complete g1 g2 post :
  g1 <> [] -> g2 <> [] -> all_digits g1 -> all_digits g2 ->
  Re.match_here Re.src_tar
    (list_ascii_of_string "src_" ++ g1 ++ ["_"%char] ++ g2
     ++ list_ascii_of_string ".tar" ++ post)
  = Some [g1; g2].
Proof.
  intros N1 N2 D1 D2. unfold Re.src_tar, Re.lit.
  rewrite match_lit. cbn [app Re.match_here].
  apply try_lengths_longest; try done.
  change (Re.match_here (map Re.Lit ["_"%char]
            ++ Re.Digits :: map Re.Lit (list_ascii_of_string ".tar") ++ [])
            (["_"%char] ++ g2 ++ list_ascii_of_string ".tar" ++ post)
          = Some [g2]).
  rewrite match_lit. cbn [Re.match_here].
  change (list_ascii_of_string ".tar" ++ post)%list
    with ("."%char :: (list_ascii_of_string "tar" ++ post))%list.
  apply try_lengths_longest; try done.
Qed.

Lemma search_sound p s groups :
  Re.search p s = Some groups ->
  exists pre s', s = (pre ++ s')%list /\ Re.match_here p s' = Some groups.
Proof.
  induction s as [|c s IH]; cbn [Re.search].
  - destruct (Re.match_here p []) eqn:E; [|done].
    intros [= <-]. by exists [], [].
  - destruct (Re.match_here p (c :: s)) eqn:E.
    + intros [= <-]. by exists [], (c :: s).
    + intros H. destruct (IH H) as (pre & s' & -> & Hm).
      by exists (c :: pre), s'.
Qed.

Lemma search_complete p pre s' :
  Re.search p (pre ++ s') = None -> Re.match_here p s' = None.
Proof.
  induction pre as [|c pre IH]; simpl.
  - destruct s'; cbn [Re.search]; destruct (Re.match_here p _); done.
  - destruct (Re.match_here p (c :: pre ++ s')); [done|]. exact IH.
Qed.

Lemma int_of_digits_app g1 g2 :
  int_of_digits (g1 ++ g2)
  = int_of_digits g1 * 10 ^ Z.of_nat (length g2) + int_of_digits g2.
Proof.
  unfold int_of_digits. rewrite fold_left_app.
  generalize (fold_left (fun acc c => 10 * acc + (Z.of_nat (nat_of_ascii c) - 48))
                        g1 0).
  induction g2 as [|c g2 IH] using rev_ind; intros acc.
  - simpl. lia.
  - rewrite !fold_left_app, length_app. simpl. rewrite IH.
    rewrite Nat2Z.inj_add, Z.pow_add_r by lia. simpl Z.of_nat.
    change (10 ^ 1) with 10. lia.
Qed.

Lemma priority_by_pattern filename :
  (exists g1 g2,
     names_archive filename g1 g2
     /\ get_priority_from_filename filename = int_of_digits (g1 ++ g2))
  \/ ((forall g1 g2, ~ names_archive filename g1 g2)
      /\ get_priority_from_filename filename = 0).
Proof.
  unfold get_priority_from_filename.
  destruct (Re.search Re.src_tar (list_ascii_of_string filename))
    as [groups|] eqn:E.
  - left. apply search_sound in E as (pre & s' & Hs & Hm).
    apply src_tar_sound in Hm as (g1 & g2 & post & -> & -> & Hrest).
    exists g1, g2. split; [|done]. by exists pre, post.
  - right. split; [|done].
    intros g1 g2 (pre & post & Hs & N1 & N2 & D1 & D2).
    rewrite Hs in E. apply search_complete in E.
    by rewrite src_tar_complete in E.
Qed.

(** ** The backlog *)

Lemma process_tasks_order world tasks : forall d,
  marked_names (snd (process_tasks world tasks d)) = map fst tasks.
Proof.
  induction tasks as [|[filename info] tasks IH]; intros d; [done|].
  cbn [process_tasks].
  destruct (process_archive world filename d) as [d1 evs1] eqn:E1.
  specialize (IH d1).
  destruct (process_tasks world tasks d1) as [d2 evs2].
  cbn [snd map fst] in *. unfold marked_names in *. rewrite omap_app, IH.
  unfold process_archive in E1.
  destruct (world filename); injection E1 as _ <-; done.
Qed.

Lemma marked_names_monitor evs :
  marked_names (MonitorStarted :: evs ++ [MonitorStopped]) = marked_names evs.
Proof.
  unfold marked_names.
  change (MonitorStarted :: evs ++ [MonitorStopped])%list
    with ([MonitorStarted] ++ evs ++ [MonitorStopped])%list.
  rewrite !omap_app. simpl. by rewrite app_nil_r.
Qed.



(** ** The quarantine *)

(** What does hold: a move keeps every quarantined file other than its
    target and the failure log. *)
Lemma safe_move_keeps_other_files now stamp name info fs fs' other :
  safe_move_to_failed now stamp name info fs = (true, fs') ->
  other <> target_name now name (failed_dir fs) -> other <> "fail.log" ->
  failed_dir fs' !! other = failed_dir fs !! other.
Proof.
  unfold safe_move_to_failed. intros H Ht Hl.
  destruct (source_dir fs !! name) as [content|]; [|done].
  injection H as <-. cbn [failed_dir].
  destruct info as [msg|]; [destruct (String.eqb msg "")|];
    unfold write_failure_log; by rewrite ?lookup_insert_ne.
Qed.

(** C4 (evaluation).  Three failing files of one name: the first keeps
    its name, the second gets the time-stamped name, and the third,
    quarantined within the same second as the second, is moved onto the
    second's file.  Two files are left for three log lines, and the
    second file's content is gone. *)
Theorem quarantine_overwrites_within_a_second :
  let name := "0704.0001.gz" in
  let fs0 := mkFs {[ name := "first" ]} ∅ in
  let r1 := safe_move_to_failed 1700000000 "2023-11-14 22:13:20" name
              (Some "timeout") fs0 in
  let r2 := safe_move_to_failed 1700000100 "2023-11-14 22:15:00" name
              (Some "timeout") (arrive name "second" (snd r1)) in
  let r3 := safe_move_to_failed 1700000100 "2023-11-14 22:15:00" name
              (Some "timeout") (arrive name "third" (snd r2)) in
  (fst r1, fst r2, fst r3) = (true, true, true)
  /\ failed_dir (snd r2) !! "0704.0001_1700000100.gz" = Some "second"
  /\ failed_dir (snd r3) !! "0704.0001_1700000100.gz" = Some "third"
  /\ failed_dir (snd r3) !! name = Some "first"
  /\ dom (failed_dir (snd r3))
     = {[ name; "0704.0001_1700000100.gz"; "fail.log" ]}
  /\ failed_dir (snd r3) !! "fail.log"
     = Some ("[2023-11-14 22:13:20] 0704.0001.gz: timeout" +:+ newline
             +:+ "[2023-11-14 22:15:00] 0704.0001.gz: timeout" +:+ newline
             +:+ "[2023-11-14 22:15:00] 0704.0001.gz: timeout" +:+ newline).
Proof.
  repeat split; vm_compute; reflexivity.
Qed.

(** ** Exit status *)

(** The exit status of the batch script does not depend on what the
    archives did. *)
Lemma batch_exit_status_run dir n is_dir state_file globbed world :
  batch_exit_status (Batch dir n) is_dir state_file globbed world = 0.
Proof.
  unfold batch_exit_status.
  by destruct (main is_dir state_file globbed world).
Qed.

(** C3 (evaluation).  One archive with one item whose conversion fails:
    the pool returns statistics with one failure, the orchestrator marks
    the archive completed, and the batch script exits with status 0;
    the sequential driver, on the same failing item, exits with 1. *)
Theorem batch_exit_status_ignores_failures :
  let item := mkItem "2208.00001.gz"
                     (mkRun None (Ret false) F.zero (F.of_int 5)) in
  let pool_stats :=
    stats <$> play [Take O; Finish O; Collect; Shutdown (F.of_int 6)]
                   (init_pool [item] 4 F.zero) in
  let world := fun _ : string => PoolReturned pool_stats in
  let globbed := [("arXiv_src_2208_071.tar", "/data/arXiv_src_2208_071.tar")] in
  (failed_files <$> pool_stats) = Some 1
  /\ snd (main true None globbed world)
     = [MonitorStarted; PoolStarted "arXiv_src_2208_071.tar";
        Marked "arXiv_src_2208_071.tar" "completed"; MonitorStopped]
  /\ batch_exit_status (Batch "/data" 4) true None globbed world = 0
  /\ sequential_main true ["2208.00001.gz"] (fun _ => false) = 1
  /\ sequential_main true ["2208.00001.gz"] (fun _ => true) = 0.
Proof. repeat split; vm_compute; reflexivity. Qed.

(** * Further properties

    Properties of the code around the design document's claims: names
    and extensions, the quarantine, one conversion, the sequential
    driver, the worker alone, the store over several runs, priorities,
    the intake of an archive and the names of attachments. *)

(** ** Names and extensions *)

Lemma string_length_app (s t : string) :
  String.length (s +:+ t) = (String.length s + String.length t)%nat.
Proof. induction s as [|c s IH]; simpl; [done|]. by rewrite IH. Qed.

Lemma string_app_nil_r (s : string) : s +:+ "" = s.
Proof.
  induction s as [|c s IH]; [done|].
  change (String c s +:+ "") with (String c (s +:+ "")). by rewrite IH.
Qed.

Lemma substring_0_app (pre s : string) :
  String.substring 0 (String.length pre) (pre +:+ s) = pre.
Proof.
  induction pre as [|c pre IH]; simpl.
  - by destruct s.
  - by rewrite IH.
Qed.

Lemma substring_skip_app (pre s : string) n :
  String.substring (String.length pre) n (pre +:+ s) = String.substring 0 n s.
Proof. induction pre as [|c pre IH]; simpl; done. Qed.

Lemma substring_0_full (s : string) :
  String.substring 0 (String.length s) s = s.
Proof. induction s as [|c s IH]; simpl; [done|]. by rewrite IH. Qed.

Lemma substring_split (s : string) k :
  (k <= String.length s)%nat ->
  s = String.substring 0 k s
      +:+ String.substring k (String.length s - k) s.
Proof.
  revert k. induction s as [|c s IH]; intros k Hk; simpl in *.
  - destruct k; [done|lia].
  - destruct k as [|k]; simpl.
    + by rewrite substring_0_full.
    + change (String c (String.substring 0 k s) +:+ ?y)
        with (String c (String.substring 0 k s +:+ y)).
      f_equal. apply IH. lia.
Qed.

Lemma rfind_dot_app (pre ext : string) :
  Path.rfind_dot ext = None ->
  Path.rfind_dot (pre +:+ "." +:+ ext) = Some (String.length pre).
Proof.
  intros He. induction pre as [|c pre IH].
  - change ("" +:+ "." +:+ ext) with (String "." ext).
    cbn [Path.rfind_dot]. by rewrite He.
  - change (String c pre +:+ "." +:+ ext)
      with (String c (pre +:+ "." +:+ ext)).
    cbn [Path.rfind_dot String.length]. by rewrite IH.
Qed.

Lemma rfind_dot_Some (s : string) i :
  Path.rfind_dot s = Some i ->
  exists pre ext, s = pre +:+ "." +:+ ext /\ String.length pre = i
                  /\ Path.rfind_dot ext = None.
Proof.
  revert i. induction s as [|c s IH]; intros i H; simpl in H; [done|].
  destruct (Path.rfind_dot s) as [j|] eqn:E.
  - injection H as <-. destruct (IH j eq_refl) as (pre & ext & -> & <- & He).
    by exists (String c pre), ext.
  - destruct (Ascii.eqb c ".") eqn:Ec; [|done]. injection H as <-.
    apply Ascii.eqb_eq in Ec. subst c. by exists "", s.
Qed.

(** A name with a non-empty stem and a non-empty last extension. *)
Lemma split_point_app (pre ext : string) :
  pre <> "" -> ext <> "" -> Path.rfind_dot ext = None ->
  Path.split_point (pre +:+ "." +:+ ext) = Some (String.length pre).
Proof.
  intros Hp He Hd. unfold Path.split_point. rewrite rfind_dot_app by done.
  rewrite !string_length_app. simpl.
  destruct pre; [done|]. destruct ext; [done|]. simpl.
  replace (_ <? _)%nat with true; [done|].
  symmetry. apply Nat.ltb_lt. lia.
Qed.

Lemma suffix_app (pre ext : string) :
  pre <> "" -> ext <> "" -> Path.rfind_dot ext = None ->
  Path.suffix (pre +:+ "." +:+ ext) = "." +:+ ext
  /\ Path.stem (pre +:+ "." +:+ ext) = pre.
Proof.
  intros Hp He Hd. unfold Path.suffix, Path.stem.
  rewrite split_point_app by done. split.
  - rewrite substring_skip_app, string_length_app.
    replace (String.length pre + String.length ("." +:+ ext)
             - String.length pre)%nat
      with (String.length ("." +:+ ext)) by lia.
    apply substring_0_full.
  - apply substring_0_app.
Qed.

Lemma suffix_inv (name : string) :
  Path.suffix name <> "" ->
  exists pre ext, name = pre +:+ "." +:+ ext /\ pre <> "" /\ ext <> ""
                  /\ Path.rfind_dot ext = None
                  /\ Path.suffix name = "." +:+ ext /\ Path.stem name = pre.
Proof.
  intros Hs. unfold Path.suffix in Hs.
  destruct (Path.split_point name) as [i|] eqn:E; [|done].
  unfold Path.split_point in E.
  destruct (Path.rfind_dot name) as [j|] eqn:Ej; [|done].
  destruct ((0 <? j) && (S j <? String.length name))%nat eqn:B; [|done].
  injection E as <-. apply andb_prop in B as [B1 B2].
  apply Nat.ltb_lt in B1, B2.
  destruct (rfind_dot_Some _ _ Ej) as (pre & ext & -> & Hl & Hd).
  assert (Hp : pre <> "") by (intros ->; simpl in Hl; lia).
  assert (He : ext <> "").
  { intros ->. rewrite string_length_app in B2. simpl in B2. lia. }
  destruct (suffix_app pre ext Hp He Hd) as [S1 S2].
  exists pre, ext. by repeat split.
Qed.

Lemma stem_suffix (name : string) : Path.stem name +:+ Path.suffix name = name.
Proof.
  destruct (string_dec (Path.suffix name) "") as [E|E].
  - rewrite E. unfold Path.suffix, Path.stem in *.
    destruct (Path.split_point name) as [i|] eqn:Es.
    + unfold Path.split_point in Es.
      destruct (Path.rfind_dot name) as [j|] eqn:Ej; [|done].
      destruct ((0 <? j) && (S j <? String.length name))%nat eqn:B; [|done].
      injection Es as <-. apply andb_prop in B as [B1 B2].
      apply Nat.ltb_lt in B1, B2.
      destruct (String.length name - j)%nat eqn:L; [lia|].
      destruct (rfind_dot_Some _ _ Ej) as (pre & ext & -> & Hl & Hd).
      rewrite <- Hl, substring_skip_app in E.
      change ("." +:+ ext) with (String "." ext) in E. simpl in E.
      discriminate E.
    + apply string_app_nil_r.
  - destruct (suffix_inv name E) as (pre & ext & -> & _ & _ & _ & -> & ->).
    done.
Qed.

Lemma string_app_assoc (s t u : string) : (s +:+ t) +:+ u = s +:+ (t +:+ u).
Proof.
  induction s as [|c s IH]; [done|].
  change ((String c (s +:+ t)) +:+ u = String c (s +:+ (t +:+ u))).
  change (String c ((s +:+ t) +:+ u) = String c (s +:+ (t +:+ u))).
  by rewrite IH.
Qed.

Lemma list_ascii_app (s t : string) :
  list_ascii_of_string (s +:+ t)
  = (list_ascii_of_string s ++ list_ascii_of_string t)%list.
Proof.
  induction s as [|c s IH]; [done|].
  change (String c s +:+ t) with (String c (s +:+ t)). simpl. by rewrite IH.
Qed.

Lemma endswith_app (pre suf : string) : Path.endswith (pre +:+ suf) suf = true.
Proof.
  unfold Path.endswith. rewrite string_length_app.
  apply andb_true_intro. split; [apply Nat.leb_le; lia|].
  replace (String.length pre + String.length suf - String.length suf)%nat
    with (String.length pre) by lia.
  rewrite substring_skip_app, substring_0_full. apply String.eqb_refl.
Qed.

Lemma endswith_inv (s suf : string) :
  Path.endswith s suf = true -> exists pre, s = pre +:+ suf.
Proof.
  unfold Path.endswith. intros H. apply andb_prop in H as [Hl He].
  apply Nat.leb_le in Hl. apply String.eqb_eq in He.
  exists (String.substring 0 (String.length s - String.length suf) s).
  pose proof (substring_split s (String.length s - String.length suf)
                ltac:(lia)) as E.
  replace (String.length s - (String.length s - String.length suf))%nat
    with (String.length suf) in E by lia.
  by rewrite He in E.
Qed.

Lemma lower_char_dot c : Path.lower_char c = "."%char <-> c = "."%char.
Proof.
  destruct c as [[] [] [] [] [] [] [] []]; vm_compute; split; congruence.
Qed.

Lemma rfind_dot_lower s : Path.rfind_dot (Path.lower s) = Path.rfind_dot s.
Proof.
  induction s as [|c s IH]; [done|]. simpl. rewrite IH.
  destruct (Path.rfind_dot s); [done|].
  destruct (Ascii.eqb c ".") eqn:E.
  - apply Ascii.eqb_eq in E. subst c. reflexivity.
  - apply Ascii.eqb_neq in E.
    destruct (Ascii.eqb (Path.lower_char c) ".") eqn:E'; [|done].
    apply Ascii.eqb_eq in E'. apply (proj1 (lower_char_dot c)) in E'.
    by destruct E.
Qed.

Lemma lower_app (s t : string) :
  Path.lower (s +:+ t) = Path.lower s +:+ Path.lower t.
Proof.
  induction s as [|c s IH]; [done|].
  change (String c s +:+ t) with (String c (s +:+ t)). simpl.
  rewrite IH. done.
Qed.

(** The lower-cased last extension is never [.tar.gz]: it holds one dot. *)
Lemma lower_suffix_one_dot name :
  Path.lower (Path.suffix name) <> ".tar.gz".
Proof.
  intros H. destruct (string_dec (Path.suffix name) "") as [E|E].
  { by rewrite E in H. }
  destruct (suffix_inv name E) as (pre & ext & _ & _ & _ & Hd & Hs & _).
  rewrite Hs, lower_app in H.
  change (Path.lower ".") with "." in H.
  change ("." +:+ Path.lower ext) with (String "." (Path.lower ext)) in H.
  injection H as H.
  apply (f_equal Path.rfind_dot) in H. rewrite rfind_dot_lower, Hd in H.
  discriminate H.
Qed.

Lemma endswith_tar_gz_suffix name :
  Path.endswith name ".tar.gz" = true -> Path.suffix name = ".gz".
Proof.
  intros H. apply endswith_inv in H as [pre ->].
  change ".tar.gz" with (".tar" +:+ "." +:+ "gz").
  rewrite <- string_app_assoc.
  apply suffix_app; try done. by destruct pre.
Qed.

(** X1.  [get_file_type] classifies a name by its last extension alone,
    whatever the case of its letters: a TeX archive when it is [.gz], a
    PDF file when it is [.pdf], unknown otherwise.  The entry [.tar.gz]
    of the list of TeX extensions and the test on the end of the name
    add nothing, since a last extension holds one dot and a name that
    ends in [.tar.gz] has the last extension [.gz]. *)
Theorem get_file_type_by_last_extension (name : string) :
  (get_file_type name = "tex" <-> Path.lower (Path.suffix name) = ".gz")
  /\ (get_file_type name = "pdf" <-> Path.lower (Path.suffix name) = ".pdf")
  /\ (get_file_type name = "unknown" <->
        Path.lower (Path.suffix name) <> ".gz"
        /\ Path.lower (Path.suffix name) <> ".pdf").
Proof.
  pose proof (lower_suffix_one_dot name) as Hone.
  pose proof (endswith_tar_gz_suffix name) as Hend.
  unfold get_file_type, SUPPORTED_PDF_EXTENSIONS, SUPPORTED_TEX_EXTENSIONS,
    Path.str_in. cbn [existsb].
  set (ls := Path.lower (Path.suffix name)) in *.
  destruct (String.eqb_spec ls ".pdf") as [Ep|Ep].
  { rewrite Ep. simpl. repeat split; try done.
    intros [_ H]. done. }
  destruct (String.eqb_spec ls ".gz") as [Eg|Eg].
  { rewrite Eg. simpl. repeat split; try done.
    intros [H _]. done. }
  destruct (String.eqb_spec ls ".tar.gz") as [Et|Et]; [done|].
  destruct (Path.endswith name ".tar.gz") eqn:Ee.
  { exfalso. apply Eg. unfold ls. by rewrite (Hend eq_refl). }
  simpl. repeat split; try done.
Qed.

(** X2.  [get_base_name] strips [.tar.gz], and otherwise the last
    extension; so the archives [b.gz] and [b.tar.gz] have the same base
    name [b], which names the output directory of both, for every
    non-empty [b] that does not itself end in [.tar] (that is, when
    [b.gz] does not end in [.tar.gz]).  For [b = x.tar] they differ:
    the base name of [x.tar.gz] is [x] and that of [x.tar.tar.gz] is
    [x.tar]. *)
Theorem get_base_name_strips_extension :
  (forall b, get_base_name (b +:+ ".tar.gz") = b)
  /\ (forall b, b <> "" -> Path.endswith (b +:+ ".gz") ".tar.gz" = false ->
        get_base_name (b +:+ ".gz") = b)
  /\ (forall b, b <> "" -> Path.endswith (b +:+ ".gz") ".tar.gz" = false ->
        get_base_name (b +:+ ".gz") = get_base_name (b +:+ ".tar.gz"))
  /\ (forall b, Path.endswith (b +:+ ".gz") ".tar.gz" = true <->
                exists x, b = x +:+ ".tar")
  /\ get_base_name ("x.tar" +:+ ".gz") = "x"
  /\ get_base_name ("x.tar" +:+ ".tar.gz") = "x.tar".
Proof.
  assert (H1 : forall b, get_base_name (b +:+ ".tar.gz") = b).
  { intros b. unfold get_base_name. rewrite endswith_app.
    rewrite string_length_app.
    replace (String.length b + String.length ".tar.gz" - 7)%nat
      with (String.length b) by (simpl; lia).
    apply substring_0_app. }
  assert (H2 : forall b, b <> "" ->
            Path.endswith (b +:+ ".gz") ".tar.gz" = false ->
            get_base_name (b +:+ ".gz") = b).
  { intros b Hb He. unfold get_base_name. rewrite He.
    change ".gz" with ("." +:+ "gz"). by apply suffix_app. }
  split; [exact H1|]. split; [exact H2|].
  split; [intros b Hb He; by rewrite H1, H2|].
  split; [|split; vm_compute; reflexivity].
  intros b. split.
  - intros He. unfold Path.endswith in He.
    apply andb_true_iff in He as [Hle He].
    apply Nat.leb_le in Hle. apply String.eqb_eq in He.
    pose proof (substring_split (b +:+ ".gz")
                  (String.length (b +:+ ".gz") - String.length ".tar.gz")
                  ltac:(lia)) as E.
    replace (String.length (b +:+ ".gz")
             - (String.length (b +:+ ".gz") - String.length ".tar.gz"))%nat
      with (String.length ".tar.gz") in E by lia.
    rewrite He in E.
    set (x := String.substring 0
                (String.length (b +:+ ".gz") - String.length ".tar.gz")
                (b +:+ ".gz")) in E.
    exists x. change ".tar.gz" with (".tar" +:+ ".gz") in E.
    rewrite <- string_app_assoc in E.
    apply (f_equal list_ascii_of_string) in E.
    rewrite !list_ascii_app in E. apply app_inv_tail in E.
    apply (f_equal string_of_list_ascii) in E.
    rewrite <- list_ascii_app in E.
    by rewrite !string_of_list_ascii_of_string in E.
  - intros [x ->]. rewrite string_app_assoc.
    change (".tar" +:+ ".gz") with ".tar.gz". apply endswith_app.
Qed.

Lemma get_base_name_strips_extension_witness :
  get_base_name "2208.00001.gz" = get_base_name "2208.00001.tar.gz".
Proof.
  apply (proj1 (proj2 (proj2 get_base_name_strips_extension)) "2208.00001");
    [discriminate|reflexivity].
Defined.

(** ** The quarantine beyond the clash of names *)

Lemma string_app_not_nil (s t : string) : s <> "" -> s +:+ t <> "".
Proof. destruct s; [done|]. intros _. discriminate. Qed.

Lemma target_name_fresh now name dir :
  exists_in name dir = true -> target_name now name dir <> name.
Proof.
  unfold target_name. intros -> E.
  apply (f_equal String.length) in E.
  rewrite <- (stem_suffix name) in E at 3.
  rewrite !string_length_app in E. cbn [String.length] in E. lia.
Qed.

Lemma target_name_not_log now name dir :
  name <> "fail.log" -> target_name now name dir <> "fail.log".
Proof.
  unfold target_name. intros Hn. destruct (exists_in name dir); [|done].
  intros E. apply (f_equal list_ascii_of_string) in E.
  rewrite !list_ascii_app in E.
  assert (H : In "_"%char (list_ascii_of_string "fail.log")).
  { rewrite <- E. apply in_or_app. right. apply in_or_app. left. by left. }
  cbn in H. intuition discriminate.
Qed.

(** X3.  A quarantine move loses no quarantined file as long as the
    time-stamped name is free: every file of the quarantine directory
    other than the log keeps its content, the file of the same name
    included; and the file moved is where the move has put it. *)
Theorem quarantine_keeps_files_while_stamp_is_free
    now stamp name info fs fs' :
  safe_move_to_failed now stamp name info fs = (true, fs') ->
  failed_dir fs
    !! (Path.stem name +:+ "_" +:+ pretty now +:+ Path.suffix name) = None ->
  forall other content, other <> "fail.log" ->
    failed_dir fs !! other = Some content ->
    failed_dir fs' !! other = Some content.
Proof.
  intros H Hfree other content Hl Ho.
  rewrite (safe_move_keeps_other_files _ _ _ _ _ _ _ H); [done| |done].
  unfold target_name, exists_in. case_bool_decide as Hx.
  - intros ->. congruence.
  - intros ->. apply Hx. by eexists.
Qed.

Lemma quarantine_keeps_files_while_stamp_is_free_witness :
  let fs := mkFs {["0704.0001.gz" := "second"]}
                 {["0704.0001.gz" := "first"]} in
  failed_dir
    (snd (safe_move_to_failed 1700000100 "2023-11-14 22:15:00"
            "0704.0001.gz" (Some "LaTeXML") fs))
    !! "0704.0001.gz" = Some "first".
Proof.
  intros fs.
  apply (quarantine_keeps_files_while_stamp_is_free 1700000100
           "2023-11-14 22:15:00" "0704.0001.gz" (Some "LaTeXML") fs).
  - reflexivity.
  - reflexivity.
  - discriminate.
  - reflexivity.
Defined.

Lemma safe_move_to_failed_spec now stamp name msg fs :
  name <> "fail.log" -> msg <> "" ->
  match source_dir fs !! name with
  | None => safe_move_to_failed now stamp name (Some msg) fs = (false, fs)
  | Some content =>
      exists fs',
        safe_move_to_failed now stamp name (Some msg) fs = (true, fs')
        /\ source_dir fs' = delete name (source_dir fs)
        /\ failed_dir fs' !! target_name now name (failed_dir fs)
           = Some content
        /\ failed_dir fs' !! "fail.log"
           = Some (default "" (failed_dir fs !! "fail.log")
                   +:+ "[" +:+ stamp +:+ "] " +:+ name +:+ ": " +:+ msg
                   +:+ newline)
  end.
Proof.
  intros Hn Hm. unfold safe_move_to_failed.
  destruct (source_dir fs !! name) as [content|] eqn:Hs; [|done].
  apply String.eqb_neq in Hm. rewrite Hm.
  pose proof (target_name_not_log now name (failed_dir fs) Hn) as Ht.
  eexists. split; [done|]. cbn [source_dir failed_dir].
  unfold write_failure_log. repeat split.
  - rewrite lookup_insert_ne by done. by rewrite lookup_insert_eq.
  - rewrite lookup_insert_eq. by rewrite lookup_insert_ne by done.
Qed.


(** [safe_move_to_failed], a call of it raising or not. *)
Lemma safe_move_to_failed_with_spec fault now stamp name msg fs :
  name <> "fail.log" -> msg <> "" ->
  let target := target_name now name (failed_dir fs) in
  let line := "[" +:+ stamp +:+ "] " +:+ name +:+ ": " +:+ msg +:+ newline in
  let r := fst (safe_move_to_failed_with fault now stamp name (Some msg) fs) in
  let fs' :=
    snd (safe_move_to_failed_with fault now stamp name (Some msg) fs) in
  match r with
  | Ret true =>
      exists content,
        source_dir fs !! name = Some content
        /\ source_dir fs' = delete name (source_dir fs)
        /\ failed_dir fs' !! target = Some content
  | Ret false => source_dir fs' = source_dir fs
  | Raise e => is_Exception e = false
  end
  /\ (forall content, source_dir fs !! name = Some content ->
        source_dir fs' !! name = Some content
        \/ (source_dir fs' = delete name (source_dir fs)
            /\ failed_dir fs' !! target = Some content))
  /\ (forall other, other <> name ->
        source_dir fs' !! other = source_dir fs !! other)
  /\ (forall other, other <> target -> other <> "fail.log" ->
        failed_dir fs' !! other = failed_dir fs !! other)
  /\ (failed_dir fs' !! "fail.log" = failed_dir fs !! "fail.log"
      \/ exists more,
           failed_dir fs' !! "fail.log"
           = Some (default "" (failed_dir fs !! "fail.log") +:+ more))
  /\ (fault = Obeys ->
      match source_dir fs !! name with
      | None => r = Ret false /\ fs' = fs
      | Some content =>
          r = Ret true
          /\ failed_dir fs' !! "fail.log"
             = Some (default "" (failed_dir fs !! "fail.log") +:+ line)
      end).
Proof.
  intros Hn Hm target line r fs'. subst r fs'.
  pose proof (target_name_not_log now name (failed_dir fs) Hn) as Ht.
  fold target in Ht.
  pose proof (safe_move_to_failed_spec now stamp name msg fs Hn Hm) as Hspec.
  assert (Hmsg : String.eqb msg "" = false) by (by apply String.eqb_neq).
  destruct fault as [|e|e target_after|e appended];
    cbn [safe_move_to_failed_with].
  - destruct (source_dir fs !! name) as [content|] eqn:Hs.
    + destruct Hspec as (fs' & E & H1 & H2 & H3). rewrite E.
      cbn [fst snd]. fold target line in H2, H3.
      split; [by exists content|].
      split; [intros c0 Hc0; right; by simplify_eq|].
      split; [intros other Hx; rewrite H1; by rewrite lookup_delete_ne|].
      split.
      { intros other Hx Hl.
        by apply (safe_move_keeps_other_files now stamp name (Some msg) fs). }
      split; [right; by exists line|]. done.
    + rewrite Hspec. cbn [fst snd]. repeat split; try done. by left.
  - destruct (is_Exception e) eqn:He; cbn [fst snd];
      (split; [done|]); (split; [by left|]); repeat split; try done;
      by left.
  - fold target.
    assert (Hlog : partial_alter (fun _ => target_after) target
                     (failed_dir fs) !! "fail.log"
                   = failed_dir fs !! "fail.log")
      by (by rewrite lookup_partial_alter_ne).
    destruct (is_Exception e) eqn:He; cbn [fst snd source_dir failed_dir];
      (split; [done|]); (split; [by left|]); (split; [done|]);
      (split; [by intros other Hx _; rewrite lookup_partial_alter_ne|]);
      (split; [by left|done]).
  - fold target. rewrite Hmsg. cbn [negb].
    destruct (source_dir fs !! name) as [content|] eqn:Hs; cycle 1.
    { cbn [fst snd]. repeat split; try done. by left. }
    set (moved := <[target := content]> (failed_dir fs)).
    set (logged := match appended with
                   | Some more =>
                       <["fail.log" := default "" (moved !! "fail.log")
                                       +:+ more]> moved
                   | None => moved
                   end).
    assert (Htarget : logged !! target = Some content).
    { unfold logged, moved. destruct appended.
      - rewrite lookup_insert_ne by done. by rewrite lookup_insert_eq.
      - by rewrite lookup_insert_eq. }
    assert (Hother : forall other, other <> target -> other <> "fail.log" ->
              logged !! other = failed_dir fs !! other).
    { intros other Hx Hl. unfold logged, moved. destruct appended.
      - rewrite lookup_insert_ne by done. by rewrite lookup_insert_ne.
      - by rewrite lookup_insert_ne. }
    assert (Hlog : logged !! "fail.log" = failed_dir fs !! "fail.log"
                   \/ exists more,
                        logged !! "fail.log"
                        = Some (default "" (failed_dir fs !! "fail.log")
                                +:+ more)).
    { unfold logged, moved. destruct appended as [more|].
      - right. exists more. rewrite lookup_insert_eq.
        by rewrite lookup_insert_ne.
      - left. by rewrite lookup_insert_ne. }
    destruct (is_Exception e) eqn:He; cbn [fst snd source_dir failed_dir].
    + split; [by exists content|].
      split; [intros c0 Hc0; right; by simplify_eq|].
      split; [by intros other Hx; rewrite lookup_delete_ne|]. done.
    + split; [done|].
      split; [intros c0 Hc0; right; by simplify_eq|].
      split; [by intros other Hx; rewrite lookup_delete_ne|]. done.
Qed.

(** X4.  [safe_move_to_failed], whatever the calls it makes meet.  It
    lets no exception escape that [except Exception] catches.  When it
    reports [True] the file has left the source directory and its
    content is in the quarantine directory under the target name; when
    it reports [False] the source directory is as it was.  However it
    ends, the file is still in the source directory or its content is
    in the quarantine directory under the target name, no other file of
    the source directory is touched, nor any file of the quarantine
    directory but the target and the log, and the log keeps what it
    held and is at most appended to.  When no call raises, a file
    missing from the source directory is reported by [False] with
    nothing changed, and otherwise the move is reported by [True] and a
    non-empty message appends one line to the log, which names the file
    by its original name. *)
Theorem quarantine_moves_and_logs fault now stamp name msg fs :
  name <> "fail.log" -> msg <> "" ->
  let target := target_name now name (failed_dir fs) in
  let line := "[" +:+ stamp +:+ "] " +:+ name +:+ ": " +:+ msg +:+ newline in
  let r := fst (safe_move_to_failed_with fault now stamp name (Some msg) fs) in
  let fs' :=
    snd (safe_move_to_failed_with fault now stamp name (Some msg) fs) in
  match r with
  | Ret true =>
      exists content,
        source_dir fs !! name = Some content
        /\ source_dir fs' = delete name (source_dir fs)
        /\ failed_dir fs' !! target = Some content
  | Ret false => source_dir fs' = source_dir fs
  | Raise e => is_Exception e = false
  end
  /\ (forall content, source_dir fs !! name = Some content ->
        source_dir fs' !! name = Some content
        \/ (source_dir fs' = delete name (source_dir fs)
            /\ failed_dir fs' !! target = Some content))
  /\ (forall other, other <> name ->
        source_dir fs' !! other = source_dir fs !! other)
  /\ (forall other, other <> target -> other <> "fail.log" ->
        failed_dir fs' !! other = failed_dir fs !! other)
  /\ (failed_dir fs' !! "fail.log" = failed_dir fs !! "fail.log"
      \/ exists more,
           failed_dir fs' !! "fail.log"
           = Some (default "" (failed_dir fs !! "fail.log") +:+ more))
  /\ (fault = Obeys ->
      match source_dir fs !! name with
      | None => r = Ret false /\ fs' = fs
      | Some content =>
          r = Ret true
          /\ failed_dir fs' !! "fail.log"
             = Some (default "" (failed_dir fs !! "fail.log") +:+ line)
      end).
Proof. apply safe_move_to_failed_with_spec. Qed.

Lemma quarantine_moves_and_logs_witness :
  let fs := mkFs {["0704.0001.gz" := "second"]}
                 {["0704.0001.gz" := "first"]} in
  let r := safe_move_to_failed_with
             (MoveRaises (OtherException "No space left on device")
                         (Some "sec"))
             1700000100 "2023-11-14 22:15:00" "0704.0001.gz"
             (Some "LaTeXML") fs in
  fst r = Ret false
  /\ source_dir (snd r) = source_dir fs
  /\ failed_dir (snd r) !! "0704.0001.gz" = Some "first"
  /\ failed_dir (snd r) !! "fail.log" = None.
Proof.
  intros fs r.
  pose proof (quarantine_moves_and_logs
                (MoveRaises (OtherException "No space left on device")
                            (Some "sec"))
                1700000100 "2023-11-14 22:15:00" "0704.0001.gz" "LaTeXML" fs
                ltac:(discriminate) ltac:(discriminate)) as H.
  cbv zeta in H. fold r in H.
  assert (E : fst r = Ret false) by (vm_compute; reflexivity).
  rewrite E in H. destruct H as (Hsrc & _ & _ & Hother & _).
  split; [exact E|]. split; [exact Hsrc|].
  split; [|vm_compute; reflexivity].
  rewrite Hother; [reflexivity| |discriminate].
  vm_compute. discriminate.
Defined.

(** What a call of [safe_move_to_failed] does to the source directory,
    whatever the message and the name. *)
Lemma safe_move_source fault now stamp name info fs :
  let fs' := snd (safe_move_to_failed_with fault now stamp name info fs) in
  (source_dir fs' = source_dir fs
   \/ (is_Some (source_dir fs !! name)
       /\ source_dir fs' = delete name (source_dir fs)))
  /\ (fault = Obeys -> source_dir fs' = delete name (source_dir fs)).
Proof.
  destruct fault as [|e|e target_after|e appended];
    cbn [safe_move_to_failed_with].
  - unfold safe_move_to_failed.
    destruct (source_dir fs !! name) as [content|] eqn:Hs; cbn [snd source_dir].
    + split; [right; by split|done].
    + split; [by left|]. intros _. symmetry. by apply delete_id.
  - cbn [snd]. split; [by left|done].
  - cbn [snd source_dir]. split; [by left|done].
  - destruct (source_dir fs !! name) as [content|] eqn:Hs;
      [|split; [by left|done]].
    split; [|done]. right. split; [done|].
    by destruct (match info with
                 | Some msg => negb (String.eqb msg "")
                 | None => false
                 end).
Qed.

(** ** One conversion *)

Section ConversionFacts.

Variable str : exn -> string.

Ltac io_cases :=
  repeat (simplify_eq/=;
          match goal with
          | H : context [match ?x with _ => _ end] |- _ =>
              destruct x eqn:?
          | |- context [match ?x with _ => _ end] =>
              destruct x eqn:?
          end); simplify_eq/=.

Ltac frame :=
  repeat split; cbn [files output_dir]; try done;
  try (by apply string_app_not_nil);
  try (intros; cbn [files output_dir];
       by repeat first
            [ rewrite lookup_insert_ne by done
            | rewrite lookup_delete_ne by done
            | rewrite lookup_partial_alter_ne by done ]);
  try (intros; cbn [files output_dir];
       by rewrite ?lookup_insert_eq, ?lookup_delete_eq).

(** A helper that keeps to the temporary directories hands the
    workspace on as it got it. *)
Ltac tidy_up :=
  repeat match goal with
         | L : leaves_alone ?m, H : ?m ?w = (_, ?w') |- _ =>
             let E := fresh in
             pose proof (L w) as E; rewrite H in E; cbn [snd] in E;
             subst w'; clear H
         end.

Lemma process_answer c name ws :
  match fst (process str c name ws) with
  | Raise e => True
  | Ret (true, msg) => msg = ""
  | Ret (false, msg) => msg <> ""
  end.
Proof.
  unfold process, finally, except_Exception, io_bind, io_ret,
    output_exists, rmtree, move_output.
  io_cases; try done; by apply string_app_not_nil.
Qed.

Lemma process_tidy c name ws :
  tidy c ->
  let '(r, ws') := process str c name ws in
  files ws' = files ws
  /\ (forall other, other <> get_base_name name ->
        output_dir ws' !! other = output_dir ws !! other)
  /\ (forall msg, r = Ret (true, msg) ->
        output_dir ws' !! get_base_name name = Some (temp_output c)).
Proof.
  intros (T1 & T2 & T3 & T4 & T5 & T6 & T7 & T8).
  unfold process, finally, except_Exception, io_bind, io_ret,
    output_exists, rmtree, move_output.
  io_cases; tidy_up; frame.
Qed.

Lemma process_single_file_spec c name ws :
  let '(r, ws') := process_single_file str c name ws in
  match r with
  | Raise e => is_Exception e = false /\ get_file_type name = "tex"
  | Ret (true, msg) => msg = "" /\ get_file_type name = "tex"
  | Ret (false, msg) => msg <> ""
  end
  /\ (get_file_type name <> "tex" -> ws' = ws)
  /\ (tidy c ->
      files ws' = files ws
      /\ (forall other, other <> get_base_name name ->
            output_dir ws' !! other = output_dir ws !! other)
      /\ (forall msg, r = Ret (true, msg) ->
            output_dir ws' !! get_base_name name = Some (temp_output c))).
Proof.
  unfold process_single_file, except_Exception, io_bind, io_ret.
  destruct (String.eqb (get_file_type name) "pdf") eqn:Hpdf; [frame|].
  destruct (String.eqb (get_file_type name) "tex") eqn:Htex;
    [|frame].
  apply String.eqb_eq in Htex.
  pose proof (process_answer c name ws) as Ha.
  pose proof (process_tidy c name ws) as Ht.
  destruct (process str c name ws) as [[[[] msg]|e] ws1]; cbn [fst] in Ha.
  - subst msg. split; [done|]. split; [done|]. intros T.
    destruct (Ht T) as (H1 & H2 & H3). split; [done|]. split; [done|].
    intros msg _. by apply (H3 "").
  - split; [done|]. split; [done|]. intros T.
    destruct (Ht T) as (H1 & H2 & H3). by repeat split.
  - destruct (is_Exception e) eqn:He.
    + split; [by apply string_app_not_nil|]. split; [done|]. intros T.
      destruct (Ht T) as (H1 & H2 & H3). by repeat split.
    + split; [done|]. split; [done|]. intros T.
      destruct (Ht T) as (H1 & H2 & H3). by repeat split.
Qed.

Lemma cleanup_outcome c name ws :
  let '(r, ws') := cleanup_failed_output_directory c name ws in
  files ws' = files ws
  /\ (forall other, other <> get_base_name name ->
        output_dir ws' !! other = output_dir ws !! other)
  /\ (cleanup_output c = Done ->
        output_dir ws' !! get_base_name name = None)
  /\ match r with
     | Raise e => is_Exception e = false
     | Ret _ => True
     end.
Proof.
  unfold cleanup_failed_output_directory, except_Exception, io_bind,
    io_ret, output_exists, rmtree, exists_in.
  io_cases; frame.
  intros _. match goal with H : bool_decide _ = false |- _ =>
    apply bool_decide_eq_false in H; by apply eq_None_not_Some in H end.
Qed.

Lemma failover_spec c name ws :
  let '(r, ws') := process_single_file_with_failover str c name ws in
  let target := target_name (move_time c) name (failed_dir (files ws)) in
  match r with
  | Raise e => is_Exception e = false
  | Ret true => get_file_type name = "tex"
  | Ret false => True
  end
  /\ (tidy c ->
      (forall other, other <> get_base_name name ->
         output_dir ws' !! other = output_dir ws !! other)
      /\ (source_dir (files ws') = source_dir (files ws)
          \/ (is_Some (source_dir (files ws) !! name)
              /\ source_dir (files ws') = delete name (source_dir (files ws))))
      /\ match r with
         | Ret true =>
             files ws' = files ws
             /\ output_dir ws' !! get_base_name name = Some (temp_output c)
         | Ret false =>
             (cleanup_output c = Done ->
                output_dir ws' !! get_base_name name = None)
             /\ (quarantine_fault c = Obeys ->
                   source_dir (files ws') = delete name (source_dir (files ws)))
         | Raise e => True
         end
      /\ (name <> "fail.log" ->
          (forall content, source_dir (files ws) !! name = Some content ->
             source_dir (files ws') !! name = Some content
             \/ (source_dir (files ws') = delete name (source_dir (files ws))
                 /\ failed_dir (files ws') !! target = Some content))
          /\ (forall other, other <> target -> other <> "fail.log" ->
                failed_dir (files ws') !! other
                = failed_dir (files ws) !! other)
          /\ (failed_dir (files ws') !! "fail.log"
              = failed_dir (files ws) !! "fail.log"
              \/ exists more,
                   failed_dir (files ws') !! "fail.log"
                   = Some (default "" (failed_dir (files ws) !! "fail.log")
                           +:+ more))
          /\ (r = Ret false -> quarantine_fault c = Obeys ->
              forall content, source_dir (files ws) !! name = Some content ->
                failed_dir (files ws') !! target = Some content
                /\ exists msg, msg <> ""
                   /\ failed_dir (files ws') !! "fail.log"
                      = Some (default "" (failed_dir (files ws) !! "fail.log")
                              +:+ "[" +:+ log_stamp c +:+ "] " +:+ name
                              +:+ ": " +:+ msg +:+ newline)))).
Proof.
  unfold process_single_file_with_failover, io_bind.
  pose proof (process_single_file_spec c name ws) as H.
  destruct (process_single_file str c name ws) as [[[[] msg]|e] ws1];
    destruct H as (Hr & _ & Ht); cbn [negb].
  - unfold io_ret. destruct Hr as [-> Htex]. split; [done|]. intros T.
    destruct (Ht T) as (Hf & Ho & Hb). rewrite Hf.
    split; [done|]. split; [by left|]. split; [split; [done|by apply (Hb "")]|].
    intros Hn. split; [by left|]. split; [done|]. split; [by left|done].
  - pose proof (cleanup_outcome c name ws1) as H.
    destruct (cleanup_failed_output_directory c name ws1) as [[[]|e] ws2];
      destruct H as (Hf2 & Ho2 & Hb2 & Hr2).
    + unfold move_to_failed, io_ret.
      pose proof (safe_move_to_failed_with_spec (quarantine_fault c)
                    (move_time c) (log_stamp c) name msg (files ws2)) as Hspec.
      pose proof (safe_move_source (quarantine_fault c) (move_time c)
                    (log_stamp c) name (Some msg) (files ws2)) as Hsrc.
      cbv zeta in Hspec, Hsrc.
      destruct (safe_move_to_failed_with (quarantine_fault c) (move_time c)
                  (log_stamp c) name (Some msg) (files ws2))
        as [moved fs] eqn:Hm.
      cbn [fst snd] in Hspec, Hsrc.
      assert (Hans : match moved with
                     | Ret _ => True
                     | Raise e => is_Exception e = false
                     end).
      { destruct (quarantine_fault c) as [|e|e ta|e ap];
          cbn [safe_move_to_failed_with] in Hm.
        - destruct (safe_move_to_failed (move_time c) (log_stamp c) name
                      (Some msg) (files ws2)). by injection Hm as <- _.
        - injection Hm as <- _. by destruct (is_Exception e) eqn:He.
        - injection Hm as <- _. by destruct (is_Exception e) eqn:He.
        - destruct (source_dir (files ws2) !! name);
            [|by injection Hm as <- _].
          destruct (negb (String.eqb msg "")); [|by injection Hm as <- _].
          injection Hm as <- _. by destruct (is_Exception e) eqn:He. }
      assert (Hgoal :
        forall r : py bool,
          (r = Ret false \/ exists e, r = Raise e) ->
          tidy c ->
          (forall other, other <> get_base_name name ->
             output_dir ws2 !! other = output_dir ws !! other)
          /\ (source_dir fs = source_dir (files ws)
              \/ (is_Some (source_dir (files ws) !! name)
                  /\ source_dir fs = delete name (source_dir (files ws))))
          /\ match r with
             | Ret true =>
                 fs = files ws
                 /\ output_dir ws2 !! get_base_name name
                    = Some (temp_output c)
             | Ret false =>
                 (cleanup_output c = Done ->
                    output_dir ws2 !! get_base_name name = None)
                 /\ (quarantine_fault c = Obeys ->
                       source_dir fs = delete name (source_dir (files ws)))
             | Raise e => True
             end
          /\ (name <> "fail.log" ->
              (forall content, source_dir (files ws) !! name = Some content ->
                 source_dir fs !! name = Some content
                 \/ (source_dir fs = delete name (source_dir (files ws))
                     /\ failed_dir fs
                          !! target_name (move_time c) name
                               (failed_dir (files ws))
                        = Some content))
              /\ (forall other,
                    other <> target_name (move_time c) name
                               (failed_dir (files ws)) ->
                    other <> "fail.log" ->
                    failed_dir fs !! other = failed_dir (files ws) !! other)
              /\ (failed_dir fs !! "fail.log"
                  = failed_dir (files ws) !! "fail.log"
                  \/ exists more,
                       failed_dir fs !! "fail.log"
                       = Some (default ""
                                 (failed_dir (files ws) !! "fail.log")
                               +:+ more))
              /\ (r = Ret false -> quarantine_fault c = Obeys ->
                  forall content,
                    source_dir (files ws) !! name = Some content ->
                    failed_dir fs
                      !! target_name (move_time c) name
                           (failed_dir (files ws))
                    = Some content
                    /\ exists msg, msg <> ""
                       /\ failed_dir fs !! "fail.log"
                          = Some (default ""
                                    (failed_dir (files ws) !! "fail.log")
                                  +:+ "[" +:+ log_stamp c +:+ "] " +:+ name
                                  +:+ ": " +:+ msg +:+ newline)))).
      { intros r Hrr T. destruct (Ht T) as (Hf & Ho & _).
        rewrite Hf2, Hf in Hspec, Hsrc.
        split; [intros other Hx; by rewrite Ho2, Ho|].
        split; [exact (proj1 Hsrc)|].
        split.
        { destruct Hrr as [->|[e ->]]; [|done].
          split; [done|exact (proj2 Hsrc)]. }
        intros Hn.
        destruct (Hspec Hn Hr) as (_ & Hcons & _ & Hoth & Hlog & Hobeys).
        split; [done|]. split; [done|]. split; [done|].
        intros _ Hob content Hs. specialize (Hobeys Hob). rewrite Hs in Hobeys.
        destruct Hobeys as [-> Hline].
        destruct (Hspec Hn Hr) as ((c0 & Hc0 & _ & Htg) & _).
        split; [congruence|]. by exists msg. }
      destruct moved as [b|e]; cbn [files output_dir].
      * split; [done|]. intros T.
        exact (Hgoal (Ret false) (or_introl eq_refl) T).
      * split; [done|]. intros T.
        exact (Hgoal (Raise e) (or_intror (ex_intro _ e eq_refl)) T).
    + split; [done|]. intros T. destruct (Ht T) as (Hf & Ho & _).
      rewrite Hf2, Hf.
      split; [intros other Hx; by rewrite Ho2, Ho|].
      split; [by left|]. split; [done|].
      intros Hn. split; [by left|]. split; [done|]. split; [by left|done].
  - destruct Hr as [He _]. split; [done|]. intros T.
    destruct (Ht T) as (Hf & Ho & _). rewrite Hf.
    split; [done|]. split; [by left|]. split; [done|].
    intros Hn. split; [by left|]. split; [done|]. split; [by left|done].
Qed.

(** X5.  [process_single_file] never lets an exception that [except
    Exception] catches escape, and none at all for a file that is no
    TeX archive, which it turns down without a call to the converter
    and without touching anything; it reports success, with an empty
    message, only for a TeX archive, and failure always with a
    non-empty message.  When the helpers of the converter keep to the
    temporary directories it leaves the source and quarantine
    directories as they are, and on success the converted content is in
    the output directory under the base name of the archive. *)
Theorem process_single_file_outcome c name ws :
  let '(r, ws') := process_single_file str c name ws in
  match r with
  | Raise e => is_Exception e = false /\ get_file_type name = "tex"
  | Ret (true, msg) => msg = "" /\ get_file_type name = "tex"
  | Ret (false, msg) => msg <> ""
  end
  /\ (get_file_type name <> "tex" -> ws' = ws)
  /\ (tidy c -> startswith name "." = false ->
      files ws' = files ws
      /\ (forall msg, r = Ret (true, msg) ->
            output_dir ws' !! get_base_name name = Some (temp_output c))).
Proof.
  pose proof (process_single_file_spec c name ws) as H.
  destruct (process_single_file str c name ws) as [r ws'].
  destruct H as (H1 & H2 & H3). split; [done|]. split; [done|].
  intros T _. destruct (H3 T) as (Hf & _ & Hb). done.
Qed.

(** X6.  [process_single_file_with_failover] never lets an exception
    that [except Exception] catches escape, and returns [True] only for
    a TeX archive.  When the helpers of the converter keep to the
    temporary directories: after [True] the converted content is in the
    output directory and the source and quarantine directories are as
    they were; after [False] no output directory of the base name is
    left when its removal works, and when the quarantine move meets no
    fault the file has left the source directory and is in the
    quarantine directory under the target name, with one line appended
    to the log that carries a non-empty message.  Whatever the move
    meets and however the call ends, no other file of the source
    directory is touched, the file is still in the source directory or
    else in the quarantine directory under the target name, and the log
    keeps what it held. *)
Theorem failover_outcome c name ws :
  let '(r, ws') := process_single_file_with_failover str c name ws in
  let target := target_name (move_time c) name (failed_dir (files ws)) in
  match r with
  | Raise e => is_Exception e = false
  | Ret true => get_file_type name = "tex"
  | Ret false => True
  end
  /\ (tidy c -> startswith name "." = false -> name <> "fail.log" ->
      match r with
      | Ret true =>
          files ws' = files ws
          /\ output_dir ws' !! get_base_name name = Some (temp_output c)
      | Ret false =>
          (cleanup_output c = Done ->
             output_dir ws' !! get_base_name name = None)
          /\ (quarantine_fault c = Obeys ->
              source_dir (files ws') = delete name (source_dir (files ws))
              /\ forall content,
                   source_dir (files ws) !! name = Some content ->
                   failed_dir (files ws') !! target = Some content
                   /\ exists msg, msg <> ""
                      /\ failed_dir (files ws') !! "fail.log"
                         = Some (default ""
                                   (failed_dir (files ws) !! "fail.log")
                                 +:+ "[" +:+ log_stamp c +:+ "] " +:+ name
                                 +:+ ": " +:+ msg +:+ newline))
      | Raise e => True
      end
      /\ (forall other, other <> name ->
            source_dir (files ws') !! other = source_dir (files ws) !! other)
      /\ (forall content, source_dir (files ws) !! name = Some content ->
            source_dir (files ws') !! name = Some content
            \/ (source_dir (files ws') = delete name (source_dir (files ws))
                /\ failed_dir (files ws') !! target = Some content))
      /\ (failed_dir (files ws') !! "fail.log"
          = failed_dir (files ws) !! "fail.log"
          \/ exists more,
               failed_dir (files ws') !! "fail.log"
               = Some (default "" (failed_dir (files ws) !! "fail.log")
                       +:+ more))).
Proof.
  pose proof (failover_spec c name ws) as H.
  destruct (process_single_file_with_failover str c name ws) as [r ws'].
  cbv zeta in H. destruct H as [H1 H2]. split; [done|].
  intros T _ Hn. destruct (H2 T) as (_ & Hsrc & Hr & Hrest).
  destruct (Hrest Hn) as (Hcons & _ & Hlog & Hline).
  split.
  { destruct r as [[]|e]; [done| |done].
    destruct Hr as [Hc Hd]. split; [done|]. intros Hob.
    split; [by apply Hd|]. intros content Hs. by apply Hline. }
  split; [|by split].
  intros other Hx. destruct Hsrc as [->|[_ ->]]; [done|].
  by rewrite lookup_delete_ne.
Qed.

(** X7.  The worker and its converter.  With
    [process_single_file_with_failover] as the converter of a work
    item, the worker's [except Exception] handler has nothing to catch.
    A record of status success means that the item is a TeX archive for
    which the converter returned [True]: with helpers that keep to the
    temporary directories, and a name that does not begin with a
    period, the converted content is in the output directory and the
    file in place.  A record of status failure means
    that the converter returned [False] for a TeX archive; it carries
    the time the conversion took, and the file has then left the source
    directory if the quarantine move met no fault and is otherwise
    where it was or gone from there.  A skipped record means that the
    file is no TeX archive; it carries the time 0. *)
Theorem worker_record_reflects_conversion c ws w :
  classify_exn (run w) = None ->
  convert (run w)
  = fst (process_single_file_with_failover str c (path w) ws) ->
  let ws' := snd (process_single_file_with_failover str c (path w) ws) in
  worker_item w = try_item w
  /\ forall r, worker_item w = Ret r ->
       (status r = "success" ->
          get_file_type (path w) = "tex" /\ convert (run w) = Ret true
          /\ (tidy c -> startswith (path w) "." = false ->
              files ws' = files ws
              /\ output_dir ws' !! get_base_name (path w)
                 = Some (temp_output c)))
       /\ (status r = "failure" ->
            time r = elapsed w
            /\ get_file_type (path w) = "tex" /\ convert (run w) = Ret false
            /\ (tidy c -> startswith (path w) "." = false ->
                (source_dir (files ws') = source_dir (files ws)
                 \/ source_dir (files ws')
                    = delete (path w) (source_dir (files ws)))
                /\ (quarantine_fault c = Obeys ->
                    source_dir (files ws')
                    = delete (path w) (source_dir (files ws)))))
       /\ (status r = "skipped" ->
            get_file_type (path w) <> "tex" /\ time r = F.zero).
Proof.
  intros Hc Hconv ws'. subst ws'.
  pose proof (failover_spec c (path w) ws) as H.
  destruct (process_single_file_with_failover str c (path w) ws)
    as [r0 ws1]. cbn [fst snd] in *. cbv zeta in H. destruct H as [Hans H].
  unfold worker_item, try_item. rewrite Hc, Hconv. cbn [mbind py_bind Py.bind].
  destruct (String.eqb (get_file_type (path w)) "pdf") eqn:Hpdf.
  { split; [done|]. intros r [= <-]. cbn [status time].
    repeat split; try done.
    apply String.eqb_eq in Hpdf. congruence. }
  destruct (String.eqb (get_file_type (path w)) "tex") eqn:Htex.
  2:{ split; [done|]. intros r [= <-]. cbn [status time].
      repeat split; try done.
      apply String.eqb_neq in Htex. done. }
  apply String.eqb_eq in Htex.
  destruct r0 as [[]|e]; cbn [mbind py_bind Py.bind].
  - split; [done|]. intros r [= <-]. cbn [status time].
    split; [|done]. intros _. split; [done|]. split; [done|].
    intros T _. destruct (H T) as (_ & _ & Hr & _). done.
  - split; [done|]. intros r [= <-]. cbn [status time].
    split; [done|]. split; [|done]. intros _.
    split; [done|]. split; [done|]. split; [done|].
    intros T _. destruct (H T) as (_ & Hsrc & [_ Hob] & _).
    split; [|done]. destruct Hsrc as [?|[_ ?]]; [by left|by right].
  - rewrite Hans. split; [done|]. intros r [=].
Qed.

End ConversionFacts.

Lemma leaves_alone_lift {A : Type} (x : py A) : leaves_alone (lift x).
Proof. intros ws. reflexivity. Qed.

Lemma tidy_lift u1 u2 m u4 l u6 h out o1 o2 u8 o3 q t stamp :
  tidy (mkConversion (lift u1) (lift u2) (lift m) (lift u4) (lift l)
          (lift u6) (lift h) out o1 o2 (lift u8) o3 q t stamp).
Proof. repeat split; apply leaves_alone_lift. Qed.

Lemma process_single_file_outcome_witness :
  let c := mkConversion (lift (Ret tt)) (lift (Ret tt))
             (lift (Ret (Some "main.tex"))) (lift (Ret tt))
             (lift (Ret (false, "Fatal:expected:{"))) (lift (Ret tt))
             (lift (Ret (true, ""))) "2208.00001.html" Done Done
             (lift (Ret tt)) Done Obeys 1700000100 "2023-11-14 22:15:00" in
  let ws := mkWs (mkFs {["2208.00001.gz" := "archive"]} ∅)
                 {["2207.00002" := "old"]} in
  let r := process_single_file (fun _ => "error") c "2208.00001.gz" ws in
  fst r = Ret (false, "LaTeXML转换失败: Fatal:expected:{")
  /\ files (snd r) = files ws.
Proof.
  intros c ws r.
  pose proof (process_single_file_outcome (fun _ => "error") c
                "2208.00001.gz" ws) as H.
  assert (E : process_single_file (fun _ => "error") c "2208.00001.gz" ws
              = (Ret (false, "LaTeXML转换失败: Fatal:expected:{"), snd r))
    by (vm_compute; reflexivity).
  rewrite E in H. destruct H as (_ & _ & Hf).
  split; [vm_compute; reflexivity|].
  exact (proj1 (Hf (tidy_lift _ _ _ _ _ _ _ _ _ _ _ _ _ _ _) eq_refl)).
Defined.

Lemma failover_outcome_witness :
  let c := mkConversion (lift (Ret tt)) (lift (Ret tt))
             (lift (Ret (Some "main.tex"))) (lift (Ret tt))
             (lift (Ret (false, "Fatal:expected:{"))) (lift (Ret tt))
             (lift (Ret (true, ""))) "2208.00001.html" Done Done
             (lift (Ret tt)) Done
             (MoveRaises (OtherException "No space left on device")
                         (Some "arch"))
             1700000100 "2023-11-14 22:15:00" in
  let ws := mkWs (mkFs {["2208.00001.gz" := "archive"]} ∅)
                 {["2208.00001" := "old"]} in
  let r := process_single_file_with_failover (fun _ => "error") c
             "2208.00001.gz" ws in
  fst r = Ret false
  /\ source_dir (files (snd r)) !! "2208.00001.gz" = Some "archive"
  /\ failed_dir (files (snd r)) !! "2208.00001.gz" = Some "arch"
  /\ output_dir (snd r) !! "2208.00001" = None.
Proof.
  intros c ws r.
  pose proof (failover_outcome (fun _ => "error") c "2208.00001.gz" ws) as H.
  assert (E : process_single_file_with_failover (fun _ => "error") c
                "2208.00001.gz" ws = (Ret false, snd r))
    by (vm_compute; reflexivity).
  rewrite E in H. cbv zeta in H. destruct H as (_ & H).
  destruct (H (tidy_lift _ _ _ _ _ _ _ _ _ _ _ _ _ _ _) eq_refl)
    as ((Ho & _) & _ & Hcons & _); [discriminate|].
  split; [vm_compute; reflexivity|].
  split; [vm_compute; reflexivity|].
  split; [vm_compute; reflexivity|].
  exact (Ho eq_refl).
Defined.

Lemma worker_record_reflects_conversion_witness :
  let c := mkConversion (lift (Ret tt)) (lift (Ret tt))
             (lift (Ret (Some "main.tex"))) (lift (Ret tt))
             (lift (Ret (false, "Fatal:expected:{"))) (lift (Ret tt))
             (lift (Ret (true, ""))) "2208.00001.html" Done Done
             (lift (Ret tt)) Done Obeys 1700000100 "2023-11-14 22:15:00" in
  let ws := mkWs (mkFs {["2208.00001.gz" := "archive"]} ∅) ∅ in
  let w := mkItem "2208.00001.gz" (mkRun None (Ret false) F.zero F.zero) in
  worker_item w = try_item w.
Proof.
  intros c ws w.
  apply (worker_record_reflects_conversion (fun _ => "error") c ws w);
    reflexivity.
Defined.

(** ** The sequential driver *)

Lemma count_if_acc {A : Type} (p : A -> bool) (l : list A) (n : Z) :
  fold_left (fun n f => if p f then n + 1 else n) l n = n + count_if p l.
Proof.
  unfold count_if. revert n. induction l as [|x l IH]; intros n; cbn.
  - lia.
  - rewrite IH, (IH (if p x then 0 + 1 else 0)). destruct (p x); lia.
Qed.

Lemma count_if_cons {A : Type} (p : A -> bool) (x : A) (l : list A) :
  count_if p (x :: l) = (if p x then 1 else 0) + count_if p l.
Proof.
  unfold count_if at 1. cbn. rewrite count_if_acc. destruct (p x); lia.
Qed.

Lemma count_if_nonneg {A : Type} (p : A -> bool) (l : list A) :
  0 <= count_if p l.
Proof.
  induction l as [|x l IH]; [done|]. rewrite count_if_cons.
  destruct (p x); lia.
Qed.

Lemma get_file_type_cases name :
  get_file_type name = "pdf" \/ get_file_type name = "tex"
  \/ get_file_type name = "unknown".
Proof. unfold get_file_type. repeat case_match; auto. Qed.

Section DriverFacts.

Variable str : exn -> string.
Variable world : string -> conversion.

Lemma main_loop_counts files t ws :
  match main_loop str world files t ws with
  | (Ret t', _) =>
      successful_count t <= successful_count t'
      /\ failed_count t <= failed_count t'
      /\ successful_count t' + failed_count t'
         = successful_count t + failed_count t
           + count_if (fun f => String.eqb (get_file_type f) "tex") files
      /\ pdf_skipped_count t'
         = pdf_skipped_count t
           + count_if (fun f => String.eqb (get_file_type f) "pdf") files
      /\ skipped_count t'
         = skipped_count t
           + count_if (fun f => String.eqb (get_file_type f) "unknown") files
  | (Raise e, _) => is_Exception e = false
  end.
Proof.
  revert t ws. induction files as [|name rest IH]; intros t ws.
  - cbn. unfold count_if. cbn. lia.
  - cbn [main_loop]. rewrite !count_if_cons.
    destruct (get_file_type_cases name) as [E | [E | E]]; rewrite E.
    + cbn [String.eqb Ascii.eqb Bool.eqb]. cbn.
      specialize (IH (mkTally (successful_count t) (failed_count t)
                        (skipped_count t) (pdf_skipped_count t + 1)) ws).
      destruct main_loop as [[t'|e] ws']; [|done]. cbn in IH. lia.
    + change (String.eqb "tex" "unknown") with false.
      change (String.eqb "tex" "pdf") with false.
      change (String.eqb "tex" "tex") with true. cbv iota.
      unfold io_bind.
      pose proof (failover_spec str (world name) name ws) as H.
      destruct process_single_file_with_failover as [[[]|e] ws1];
        [| |by destruct H].
      * specialize (IH (mkTally (successful_count t + 1) (failed_count t)
                          (skipped_count t) (pdf_skipped_count t)) ws1).
        destruct main_loop as [[t'|e] ws']; [|done]. cbn in IH. lia.
      * specialize (IH (mkTally (successful_count t) (failed_count t + 1)
                          (skipped_count t) (pdf_skipped_count t)) ws1).
        destruct main_loop as [[t'|e] ws']; [|done]. cbn in IH. lia.
    + change (String.eqb "unknown" "unknown") with true. cbv iota.
      change (String.eqb "unknown" "pdf") with false.
      change (String.eqb "unknown" "tex") with false.
      specialize (IH (mkTally (successful_count t) (failed_count t)
                        (skipped_count t + 1) (pdf_skipped_count t)) ws).
      destruct main_loop as [[t'|e] ws']; [|done]. cbn in IH. lia.
Qed.

Lemma count_if_partition (files : list string) :
  count_if (fun f => String.eqb (get_file_type f) "pdf") files
  + count_if (fun f => String.eqb (get_file_type f) "tex") files
  + count_if (fun f => String.eqb (get_file_type f) "unknown") files
  = Z.of_nat (length files).
Proof.
  induction files as [|name rest IH]; [done|].
  rewrite !count_if_cons. cbn [length].
  destruct (get_file_type_cases name) as [E | [E | E]]; rewrite E;
    cbn [String.eqb Ascii.eqb Bool.eqb]; cbn -[count_if Z.of_nat]; lia.
Qed.

(** X8.  The driver's final counts are the statistics it announces before it
    starts: the TeX archives are the successes and the failures, the PDF
    files the PDF skips, and the skipped others are the rest; and no
    exception that [except Exception] catches ends the loop. *)
Theorem driver_counts_match_statistics all_files ws :
  let '(total_files, pdf_count, tex_count) :=
    get_processing_statistics all_files in
  match main_loop str world (files_to_process all_files)
          (mkTally 0 0 0 0) ws with
  | (Ret t, _) =>
      successful_count t + failed_count t = tex_count
      /\ pdf_skipped_count t = pdf_count
      /\ skipped_count t = total_files - pdf_count - tex_count
      /\ 0 <= successful_count t /\ 0 <= failed_count t
  | (Raise e, _) => is_Exception e = false
  end.
Proof.
  unfold get_processing_statistics.
  pose proof (main_loop_counts (files_to_process all_files)
                (mkTally 0 0 0 0) ws) as H.
  pose proof (count_if_partition (files_to_process all_files)) as Hp.
  destruct main_loop as [[t|e] ws']; [|done]. cbn in H. lia.
Qed.

End DriverFacts.

Lemma driver_counts_match_statistics_witness :
  let c := mkConversion (lift (Ret tt)) (lift (Ret tt)) (lift (Ret None))
             (lift (Ret tt)) (lift (Ret (true, ""))) (lift (Ret tt))
             (lift (Ret (true, ""))) "2208.00001.html" Done Done
             (lift (Ret tt)) Done Obeys 1700000100 "2023-11-14 22:15:00" in
  let ws := mkWs (mkFs {["2208.00001.gz" := "archive"]} ∅) ∅ in
  let all_files :=
    [("2208.00001.gz", true); ("paper.pdf", true); ("notes.txt", true);
     ("figures", false)] in
  let r := main_loop (fun _ => "error") (fun _ => c)
             (files_to_process all_files) (mkTally 0 0 0 0) ws in
  exists t,
    fst r = Ret t
    /\ successful_count t + failed_count t = 1
    /\ pdf_skipped_count t = 1 /\ skipped_count t = 1.
Proof.
  intros c ws all_files r.
  pose proof (driver_counts_match_statistics (fun _ => "error") (fun _ => c)
                all_files ws) as H.
  assert (E1 : get_processing_statistics all_files = (3, 1, 1))
    by (vm_compute; reflexivity).
  assert (E2 : main_loop (fun _ => "error") (fun _ => c)
                 (files_to_process all_files) (mkTally 0 0 0 0) ws
               = (Ret (mkTally 0 1 1 1), snd r))
    by (vm_compute; reflexivity).
  rewrite E1, E2 in H. destruct H as (H1 & H2 & H3 & _).
  exists (mkTally 0 1 1 1).
  split; [vm_compute; reflexivity|].
  split; [exact H1|]. split; [exact H2|exact H3].
Defined.

Section DriverSource.

Variable str : exn -> string.
Variable world : string -> conversion.

Lemma main_loop_source names t ws :
  (forall name, tidy (world name)) ->
  List.NoDup names ->
  (forall name, In name names -> is_Some (source_dir (files ws) !! name)) ->
  match main_loop str world names t ws with
  | (Ret t', ws') =>
      source_dir (files ws') ⊆ source_dir (files ws)
      /\ Z.of_nat (size (source_dir (files ws)))
         <= Z.of_nat (size (source_dir (files ws')))
            + (failed_count t' - failed_count t)
      /\ ((forall name, In name names ->
             quarantine_fault (world name) = Obeys) ->
          Z.of_nat (size (source_dir (files ws')))
          + (failed_count t' - failed_count t)
          = Z.of_nat (size (source_dir (files ws))))
  | (Raise e, _) => True
  end.
Proof.
  intros T. revert t ws.
  induction names as [|name rest IH]; intros t ws Hnd Hin.
  - cbn. split; [done|]. split; [lia|]. intros _. lia.
  - apply List.NoDup_cons_iff in Hnd as [Hnotin Hnd].
    assert (Hin' : forall n, In n rest ->
              is_Some (source_dir (files ws) !! n))
      by (intros n Hn; apply Hin; by right).
    assert (Hob' : forall P : string -> Prop,
              (forall n, In n (name :: rest) -> P n) ->
              forall n, In n rest -> P n)
      by (intros P HP n Hn; apply HP; by right).
    cbn [main_loop].
    destruct (String.eqb (get_file_type name) "unknown").
    { specialize (IH (mkTally (successful_count t) (failed_count t)
                        (skipped_count t + 1) (pdf_skipped_count t))
                     ws Hnd Hin').
      destruct main_loop as [[t'|e] ws']; [|done].
      destruct IH as (H1 & H2 & H3). cbn [failed_count] in *.
      split; [done|]. split; [done|]. intros Hob. apply H3.
      by apply (Hob' (fun n => quarantine_fault (world n) = Obeys)). }
    destruct (String.eqb (get_file_type name) "pdf").
    { specialize (IH (mkTally (successful_count t) (failed_count t)
                        (skipped_count t) (pdf_skipped_count t + 1))
                     ws Hnd Hin').
      destruct main_loop as [[t'|e] ws']; [|done].
      destruct IH as (H1 & H2 & H3). cbn [failed_count] in *.
      split; [done|]. split; [done|]. intros Hob. apply H3.
      by apply (Hob' (fun n => quarantine_fault (world n) = Obeys)). }
    unfold io_bind.
    pose proof (failover_spec str (world name) name ws) as H.
    destruct process_single_file_with_failover as [[[]|e] ws1]; [| |done];
      cbv zeta in H; destruct H as [_ H];
      destruct (H (T name)) as (_ & Hsrc & Hr & _).
    + destruct Hr as (Hf & _).
      specialize (IH (mkTally (successful_count t + 1) (failed_count t)
                        (skipped_count t) (pdf_skipped_count t)) ws1 Hnd).
      rewrite Hf in IH. specialize (IH Hin').
      destruct main_loop as [[t'|e] ws']; [|done].
      destruct IH as (H1 & H2 & H3). cbn [failed_count] in *.
      split; [done|]. split; [done|]. intros Hob. apply H3.
      by apply (Hob' (fun n => quarantine_fault (world n) = Obeys)).
    + destruct Hr as [_ Hob1].
      specialize (IH (mkTally (successful_count t) (failed_count t + 1)
                        (skipped_count t) (pdf_skipped_count t)) ws1 Hnd).
      assert (Hrest : forall n, In n rest ->
                is_Some (source_dir (files ws1) !! n)).
      { intros n Hn. destruct Hsrc as [->|[_ ->]]; [by apply Hin'|].
        rewrite lookup_delete_ne by (intros ->; done). by apply Hin'. }
      specialize (IH Hrest).
      destruct main_loop as [[t' |e] ws']; [|done].
      destruct IH as (Hsub & Hsize & Hexact). cbn [failed_count] in *.
      assert (Hne : size (source_dir (files ws)) <> 0%nat).
      { apply map_size_ne_0_lookup. exists name. apply Hin. by left. }
      split; [|split].
      * etrans; [exact Hsub|].
        destruct Hsrc as [->|[_ ->]]; [done|apply delete_subseteq].
      * destruct Hsrc as [E|[_ E]]; rewrite E in Hsize; [lia|].
        rewrite map_size_delete_Some in Hsize by (apply Hin; by left). lia.
      * intros Hob.
        specialize (Hexact
          (Hob' (fun n => quarantine_fault (world n) = Obeys) Hob)).
        rewrite (Hob1 (Hob name (or_introl eq_refl))) in Hexact.
        rewrite map_size_delete_Some in Hexact by (apply Hin; by left). lia.
Qed.

(** X9.  The exit code of the driver and the source directory.  With
    helpers of the converter that keep to the temporary directories, on
    a source directory that holds the files listed, the driver takes
    files out of the source directory and puts none in; it returns 0 or
    1; when it returns 0 the source directory is as it was, and when a
    file has been taken out it returns 1.  When no quarantine move
    meets a fault the converse holds as well: it returns 0 exactly when
    it leaves the source directory as it was, and 1 exactly when some
    file has been taken out of it. *)
Theorem driver_exit_code_and_source all_files ws code ws' :
  (forall name, tidy (world name)) ->
  List.NoDup (files_to_process all_files) ->
  (forall name, In name (files_to_process all_files) ->
     is_Some (source_dir (files ws) !! name)) ->
  arxiv_main str world true all_files ws = (Ret code, ws') ->
  (code = 0 \/ code = 1)
  /\ source_dir (files ws') ⊆ source_dir (files ws)
  /\ (code = 0 -> source_dir (files ws') = source_dir (files ws))
  /\ ((size (source_dir (files ws')) < size (source_dir (files ws)))%nat ->
      code = 1)
  /\ ((forall name, In name (files_to_process all_files) ->
         quarantine_fault (world name) = Obeys) ->
      (code = 0 <-> source_dir (files ws') = source_dir (files ws))
      /\ (code = 1 <->
          (size (source_dir (files ws')) < size (source_dir (files ws)))%nat)).
Proof.
  intros T Hnd Hin. unfold arxiv_main. cbn [negb].
  destruct (is_empty (files_to_process all_files)).
  { unfold io_ret. intros [= <- <-]. repeat split; try done; try lia.
    all: by left. }
  unfold io_bind.
  pose proof (main_loop_source (files_to_process all_files)
                (mkTally 0 0 0 0) ws T Hnd Hin) as H.
  pose proof (main_loop_counts str world (files_to_process all_files)
                (mkTally 0 0 0 0) ws) as Hc.
  destruct main_loop as [[t|e] ws1]; [|done].
  unfold io_ret. intros [= <- <-]. destruct H as (Hsub & Hsize & Hexact).
  destruct Hc as (_ & Hpos & _). cbn [failed_count] in *.
  pose proof (map_subseteq_size _ _ Hsub) as Hle.
  destruct (Z.eqb_spec (failed_count t) 0) as [E|E].
  - assert (source_dir (files ws1) = source_dir (files ws)) as Heq.
    { apply map_subseteq_size_eq; [done|lia]. }
    rewrite Heq. repeat split; try done; try lia. all: by left.
  - split; [by right|]. split; [done|]. split; [done|]. split; [done|].
    intros Hob. specialize (Hexact Hob).
    repeat split; try done; try lia.
    intros Heq. rewrite Heq in Hexact. lia.
Qed.

End DriverSource.

Lemma driver_exit_code_and_source_witness :
  let c := mkConversion (lift (Ret tt)) (lift (Ret tt)) (lift (Ret None))
             (lift (Ret tt)) (lift (Ret (true, ""))) (lift (Ret tt))
             (lift (Ret (true, ""))) "2208.00001.html" Done Done
             (lift (Ret tt)) Done Obeys 1700000100 "2023-11-14 22:15:00" in
  let ws := mkWs (mkFs {["2208.00001.gz" := "archive"]} ∅) ∅ in
  let r := arxiv_main (fun _ => "error") (fun _ => c) true
             [("2208.00001.gz", true); ("figures", false)] ws in
  fst r = Ret 1
  /\ (size (source_dir (files (snd r))) < size (source_dir (files ws)))%nat.
Proof.
  intros c ws r.
  assert (T : forall name : string, tidy ((fun _ => c) name))
    by (intros _; apply tidy_lift).
  assert (Hnd : List.NoDup (files_to_process
                   [("2208.00001.gz", true); ("figures", false)])).
  { repeat constructor. intros []. }
  assert (Hin : forall name,
            In name (files_to_process
                       [("2208.00001.gz", true); ("figures", false)]) ->
            is_Some (source_dir (files ws) !! name)).
  { intros name [<- | []]. vm_compute. by eexists. }
  assert (Hr : arxiv_main (fun _ => "error") (fun _ => c) true
                 [("2208.00001.gz", true); ("figures", false)] ws
               = (Ret 1, snd r)).
  { vm_compute. reflexivity. }
  pose proof (driver_exit_code_and_source (fun _ => "error") (fun _ => c)
                _ _ _ _ T Hnd Hin Hr)
    as (_ & _ & _ & _ & Hob).
  destruct (Hob (fun _ _ => eq_refl)) as [_ [H _]].
  split; [vm_compute; reflexivity|exact (H eq_refl)].
Defined.

(** ** The statistics of a run *)

Lemma count_status_app s rs rs' :
  count_status s (rs ++ rs') = count_status s rs + count_status s rs'.
Proof.
  unfold count_status. rewrite List.filter_app, length_app. lia.
Qed.

Lemma count_status_perm s rs rs' :
  rs ≡ₚ rs' -> count_status s rs = count_status s rs'.
Proof.
  intros H. unfold count_status. f_equal. apply Permutation_length.
  induction H as [|x l l' _ IH|x y l|l l' l'' _ IH1 _ IH2]; simpl.
  - done.
  - destruct (String.eqb (status x) s); by rewrite ?IH.
  - destruct (String.eqb (status x) s), (String.eqb (status y) s);
      try done. apply perm_swap.
  - by etrans.
Qed.

Lemma measured_perm (rs rs' : list result) :
  rs ≡ₚ rs' ->
  map time (List.filter measured rs) ≡ₚ map time (List.filter measured rs').
Proof.
  intros H.
  induction H as [|x l l' _ IH|x y l|l l' l'' _ IH1 _ IH2]; simpl.
  - done.
  - destruct (measured x); simpl; by rewrite IH.
  - destruct (measured x), (measured y); simpl; try done. apply perm_swap.
  - by etrans.
Qed.

Lemma collect_result_fields st r :
  total_files (collect_result st r) = total_files st
  /\ processed_files (collect_result st r) = processed_files st + 1
  /\ successful_files (collect_result st r)
     = successful_files st + count_status "success" [r]
  /\ failed_files (collect_result st r)
     = failed_files st + count_status "failure" [r]
  /\ skipped_files (collect_result st r)
     = skipped_files st + count_status "skipped" [r]
  /\ start_time (collect_result st r) = start_time st
  /\ end_time (collect_result st r) = end_time st.
Proof.
  unfold collect_result, count_status. cbn [List.filter].
  destruct (String.eqb (status r) "success") eqn:E1.
  { apply String.eqb_eq in E1. rewrite E1. cbn. repeat split; lia. }
  destruct (String.eqb (status r) "failure") eqn:E2.
  { apply String.eqb_eq in E2. rewrite E2. cbn. repeat split; lia. }
  destruct (String.eqb (status r) "skipped") eqn:E3;
    cbn; repeat split; lia.
Qed.

Lemma collect_all_fields rs : forall st,
  total_files (collect_all st rs) = total_files st
  /\ processed_files (collect_all st rs)
     = processed_files st + Z.of_nat (length rs)
  /\ successful_files (collect_all st rs)
     = successful_files st + count_status "success" rs
  /\ failed_files (collect_all st rs)
     = failed_files st + count_status "failure" rs
  /\ skipped_files (collect_all st rs)
     = skipped_files st + count_status "skipped" rs
  /\ start_time (collect_all st rs) = start_time st
  /\ end_time (collect_all st rs) = end_time st.
Proof.
  induction rs as [|r rs IH]; intros st.
  - unfold count_status. cbn. repeat split; lia.
  - change (collect_all st (r :: rs))
      with (collect_all (collect_result st r) rs).
    destruct (IH (collect_result st r)) as (H1 & H2 & H3 & H4 & H5 & H6 & H7).
    destruct (collect_result_fields st r)
      as (G1 & G2 & G3 & G4 & G5 & G6 & G7).
    change (r :: rs) with ([r] ++ rs)%list.
    rewrite !count_status_app, length_app. cbn [length].
    repeat split; try congruence; lia.
Qed.

Lemma set_end_time_collect_result t st r :
  set_end_time t (collect_result st r)
  = collect_result (set_end_time t st) r.
Proof.
  unfold collect_result, set_end_time. cbn.
  by repeat case_match.
Qed.

Lemma reachable_stats file_list num_workers now s :
  reachable (init_pool file_list num_workers now) s ->
  set_end_time F.zero (stats s)
  = collect_all (new_stats (Z.of_nat (length file_list)) now) (collected s).
Proof.
  intros [n Hn].
  remember (init_pool file_list num_workers now) as s0 eqn:E.
  induction Hn as [s|n s s1 s2 _ IH Hstep]; subst.
  - done.
  - specialize (IH eq_refl). destruct Hstep as [a H].
    destruct s1 as [fq rq ws st sts col]. pool_fields.
    destruct a as [i|i| |t]; cbn [step_fn] in H; pool_fields.
    + destruct (ws !! i) as [[|w|]|]; try done.
      destruct fq as [|[w|] q]; try done; by injection H as <-.
    + destruct (ws !! i) as [[|w|]|]; try done.
      destruct (worker_item w); by injection H as <-.
    + destruct st as [[|k]|]; try done. destruct rq as [|r rq]; try done.
      injection H as <-. pool_fields.
      by rewrite set_end_time_collect_result, IH, collect_all_app.
    + destruct st as [[|k]|]; try done. by injection H as <-.
Qed.

Lemma run_collects_outcomes file_list num_workers now sched st :
  process_files file_list num_workers now sched = Some st ->
  exists rs,
    rs ≡ₚ outcomes file_list /\ length rs = length file_list
    /\ set_end_time F.zero st
       = collect_all (new_stats (Z.of_nat (length file_list)) now) rs.
Proof.
  unfold process_files. intros H.
  destruct (play sched (init_pool file_list num_workers now)) as [s|] eqn:Hp;
    [|done].
  cbn in H. destruct (stage s) eqn:Hs; [done|]. injection H as <-.
  apply play_reachable in Hp.
  pose proof (reachable_stats _ _ _ _ Hp) as Hst.
  destruct (reachable_pool_accounts _ _ _ _ Hp) as [Hacc Hcnt].
  unfold remaining in Hcnt. rewrite Hs in Hcnt.
  exists (collected s). split; [|split; [lia|done]].
  pose proof (Permutation_length Hacc) as Hl.
  rewrite !length_app in Hl.
  pose proof (outcomes_length_le file_list).
  destruct (result_queue s); [|simpl in Hl; lia].
  destruct (outcomes (busy_items (workers s))); [|simpl in Hl; lia].
  destruct (outcomes (queued (file_queue s))); [|simpl in Hl; lia].
  by rewrite Hacc, !app_nil_r.
Qed.

(** The statistics of the pool left alone. *)
Lemma left_alone_statistics file_list num_workers now sched st :
  process_files file_list num_workers now sched = Some st ->
  total_files st = Z.of_nat (length file_list)
  /\ processed_files st = Z.of_nat (length file_list)
  /\ successful_files st = count_status "success" (outcomes file_list)
  /\ failed_files st = count_status "failure" (outcomes file_list)
  /\ skipped_files st = count_status "skipped" (outcomes file_list)
  /\ start_time st = now
  /\ processing_times st
     ≡ₚ map time (List.filter measured (outcomes file_list)).
Proof.
  intros H.
  destruct (run_collects_outcomes _ _ _ _ _ H) as (rs & Hall & Hlen & Hst).
  destruct (collect_all_fields rs
              (new_stats (Z.of_nat (length file_list)) now))
    as (H1 & H2 & H3 & H4 & H5 & H6 & _).
  pose proof (collect_all_times rs
                (new_stats (Z.of_nat (length file_list)) now)) as Ht.
  rewrite <- Hst in H1, H2, H3, H4, H5, H6, Ht. cbn in *.
  rewrite !(count_status_perm _ _ _ Hall) in *. rewrite Hlen in H2.
  repeat split; try done.
  rewrite Ht. by apply measured_perm.
Qed.

(** ** The worker alone, and the end of a run *)

(** X11.  One worker alone on a queue puts one record per item, in the order
    of the queue, as far as the first sentinel, on which it leaves
    whatever follows; on an exhausted queue it waits; the first item
    that costs it ends it after the records of the items before. *)
Theorem worker_process_alone l :
  Forall survives l ->
  worker_process (map Some l) = (outcomes l, WaitingForTask)
  /\ (forall q,
        worker_process (map Some l ++ None :: q)
        = (outcomes l, LeftOnSentinel))
  /\ (forall w e q,
        worker_item w = Raise e ->
        worker_process (map Some l ++ Some w :: q)
        = (outcomes l,
           if is_interrupt_or_exit e then LeftOnInterrupt e else Crashed e)).
Proof.
  induction 1 as [|w l [r Hr] _ (IH1 & IH2 & IH3)].
  - repeat split; try done. intros w e q Hw. cbn. rewrite Hw.
    by destruct (is_interrupt_or_exit e).
  - rewrite (outcomes_cons_ret _ _ _ Hr). cbn. rewrite Hr.
    repeat split.
    + by rewrite IH1.
    + intros q. by rewrite IH2.
    + intros w' e q Hw. by rewrite (IH3 _ _ _ Hw).
Qed.

Lemma worker_process_alone_witness :
  let t := F.of_int 3 in
  let l := [ mkItem "2208.00001.gz" (mkRun None (Ret true) F.zero t);
             mkItem "2208.00002.pdf" (mkRun None (Ret true) F.zero t) ] in
  worker_process
    (map Some l
     ++ [None; Some (mkItem "2208.00003.gz" (mkRun None (Ret true) F.zero t))])
  = (outcomes l, LeftOnSentinel).
Proof.
  intros t l.
  apply (worker_process_alone l).
  repeat constructor; eexists; vm_compute; reflexivity.
Defined.

Lemma waiting_count_middle l1 x l2 :
  waiting_count (l1 ++ x :: l2)
  = (waiting_count l1 + waiting_count [x] + waiting_count l2)%nat.
Proof.
  unfold waiting_count. rewrite List.filter_app, length_app. simpl.
  destruct x; simpl; lia.
Qed.

Lemma waiting_count_insert ws i old new :
  ws !! i = Some old ->
  (waiting_count (<[i := new]> ws) + waiting_count [old]
   = waiting_count ws + waiting_count [new])%nat.
Proof.
  intros Hi. pose proof (lookup_lt_Some _ _ _ Hi) as Hlt.
  pose proof (take_drop_middle ws i old Hi) as E.
  rewrite insert_take_drop by done.
  remember (take i ws) as l1 eqn:E1. remember (drop (S i) ws) as l2 eqn:E2.
  clear E1 E2. subst ws. rewrite !waiting_count_middle. lia.
Qed.

Lemma waiting_count_pos ws :
  (0 < waiting_count ws)%nat -> exists i, ws !! i = Some Waiting.
Proof.
  induction ws as [|[|w|] ws IH]; cbn; intros H.
  - lia.
  - by exists O.
  - destruct (IH H) as [i Hi]. by exists (S i).
  - destruct (IH H) as [i Hi]. by exists (S i).
Qed.

Lemma all_gone ws :
  waiting_count ws = O -> busy_items ws = [] ->
  Forall (fun w => w = Gone) ws.
Proof.
  induction ws as [|[|w|] ws IH]; cbn; intros Hw Hb; try done.
  constructor; [done|]. by apply IH.
Qed.

Lemma all_waiting ws :
  Forall (fun w => w <> Gone) ws -> busy_items ws = [] ->
  waiting_count ws = length ws.
Proof.
  induction 1 as [|[|w|] ws Hx _ IH]; cbn; intros Hb; try done.
  f_equal. by apply IH.
Qed.

Lemma outcomes_full l :
  length (outcomes l) = length l -> Forall survives l.
Proof.
  induction l as [|w l IH]; intros H; [constructor|].
  destruct (worker_item w) as [r|e] eqn:Hw.
  - rewrite (outcomes_cons_ret _ _ _ Hw) in H. simpl in H.
    constructor; [by exists r|]. apply IH. lia.
  - rewrite (outcomes_cons_raise _ _ _ Hw) in H. simpl in H.
    pose proof (outcomes_length_le l). lia.
Qed.

Lemma queue_of_items (q : list (option work_item)) :
  Forall (fun o => is_Some o) q -> queued q = [] -> q = [].
Proof. destruct 1 as [|o q [w ->] _]; [done|]. by rewrite queued_cons_Some. Qed.

Lemma reachable_shutdown file_list num_workers now s :
  reachable (init_pool file_list num_workers now) s ->
  stage s = Finished ->
  file_queue s = replicate (waiting_count (workers s)) None
  /\ busy_items (workers s) = [] /\ result_queue s = [].
Proof.
  intros [n Hn]. revert s Hn.
  induction n as [|n IH]; intros s Hn Hs.
  - inversion Hn; subst. done.
  - inversion Hn as [|n' s0 s1 s2 Hn1 Hstep]; subst.
    assert (Hr1 : reachable (init_pool file_list num_workers now) s1)
      by (by exists n).
    specialize (IH s1 Hn1). destruct Hstep as [a H].
    destruct a as [i|i| |t]; cbn [step_fn] in H.
    + destruct (workers s1 !! i) as [[|w|]|] eqn:Hw; try done.
      destruct (file_queue s1) as [|[w|] q] eqn:Hq; try done;
        injection H as <-; pool_fields;
        destruct (IH Hs) as (Hfq & Hb & Hrq).
      * pose proof (waiting_count_insert _ i _ (Busy w) Hw) as Hc.
        cbn in Hc. destruct (waiting_count (workers s1)); [lia|done].
      * pose proof (waiting_count_insert _ i _ Gone Hw) as Hc.
        cbn in Hc.
        destruct (busy_items_insert _ i _ Gone Hw) as (l1 & l2 & E1 & E2).
        rewrite busy_items_single in E1, E2.
        destruct (waiting_count (workers s1)) as [|k] eqn:Hk; [lia|].
        cbn in Hfq. injection Hfq as ->.
        repeat split; [f_equal; lia|congruence|done].
    + destruct (workers s1 !! i) as [[|w|]|] eqn:Hw; try done.
      assert (stage s1 = Finished) as Hs1.
      { destruct (worker_item w); injection H as <-; done. }
      destruct (IH Hs1) as (_ & Hb & _).
      by destruct (busy_items_nil _ _ _ Hb Hw).
    + destruct (stage s1) as [[|k]|]; try done.
      destruct (result_queue s1); try done. by injection H as <-.
    + destruct (stage s1) as [[|k]|] eqn:Hs1; try done.
      injection H as <-. pool_fields.
      destruct (reachable_pool_accounts _ _ _ _ Hr1) as [Hacc Hcnt].
      unfold remaining in Hcnt. rewrite Hs1 in Hcnt.
      pose proof (Permutation_length Hacc) as Hl.
      rewrite !length_app in Hl.
      pose proof (outcomes_length_le file_list).
      assert (Hsurv : Forall survives file_list)
        by (apply outcomes_full; lia).
      destruct (reachable_pool_inv _ _ _ _ Hsurv Hr1)
        as [_ Hsv _ _ Hcol _].
      destruct Hcol as [Hsome Hgone]; [by rewrite Hs1|].
      apply Forall_app in Hsv as [Hsb Hsq].
      rewrite (outcomes_length _ Hsb), (outcomes_length _ Hsq) in Hl.
      assert (Hb : busy_items (workers s1) = [])
        by (apply length_zero_iff_nil; lia).
      assert (Hq : queued (file_queue s1) = [])
        by (apply length_zero_iff_nil; lia).
      rewrite (queue_of_items _ Hsome Hq), (all_waiting _ Hgone Hb).
      split; [done|split; [done|]]. apply length_zero_iff_nil. lia.
Qed.

(** ** The store over several runs *)

Lemma dict_set_keys_in {V : Type} k k' (v : V) d :
  In k (map fst (dict_set k' v d)) <-> k = k' \/ In k (map fst d).
Proof.
  induction d as [|[k0 v0] d IH]; cbn.
  - intuition.
  - destruct (String.eqb_spec k' k0) as [->|Hne]; cbn; [intuition|].
    rewrite IH. intuition.
Qed.

Lemma found_files_complete (globbed : list (string * string)) :
  forall (acc : list (string * string)) k,
  In k (map fst acc) \/ In k (map fst globbed) ->
  In k (map fst (fold_left (fun d '(name, p) => dict_set name p d)
                           globbed acc)).
Proof.
  induction globbed as [|[name p] globbed IH]; intros acc k H; cbn.
  - by destruct H.
  - apply IH. destruct H as [H|[<-|H]]; [left|left|right; done];
      apply dict_set_keys_in; auto.
Qed.

Lemma discover_keys d found k :
  In k (map fst (discover d found))
  <-> k = fst found \/ In k (map fst d).
Proof.
  destruct found as [filename filepath]. cbn [discover fst].
  unfold dict_mem. destruct (dict_get filename d) eqn:Hget.
  - split; [auto|]. intros [->|H]; [|done].
    destruct (in_dec string_dec filename (map fst d)) as [Hin|Hnin];
      [done|]. apply dict_get_None in Hnin. congruence.
  - apply dict_set_keys_in.
Qed.

Lemma discover_complete found : forall (d : store) k,
  In k (map fst found) \/ In k (map fst d) ->
  In k (map fst (fold_left discover found d)).
Proof.
  induction found as [|f found IH]; intros d k H; cbn.
  - by destruct H.
  - apply IH. destruct H as [[<-|H]|H]; [right|left; done|right];
      apply discover_keys; auto.
Qed.

Lemma globbed_in_store state_file globbed name :
  In name (map fst globbed) ->
  In name (map fst (fst (initialize_state state_file globbed))).
Proof.
  intros H. unfold initialize_state. cbn [fst].
  apply discover_complete. left. apply found_files_complete. by right.
Qed.

Lemma rescan_same_store state_file globbed (d : store) :
  map fst d = map fst (fst (initialize_state state_file globbed)) ->
  fst (initialize_state (Some d) globbed) = d.
Proof.
  intros Hk. unfold initialize_state at 1. cbn [fst].
  change (default [] (Some d)) with d.
  apply nothing_to_discover. intros k Hin. rewrite Hk.
  apply globbed_in_store.
  apply found_files_keys in Hin as [[]|Hin]. exact Hin.
Qed.

(** X13.  A discovery scan is complete and idempotent: every file found is a
    key of the store it writes back, and a second scan of the same
    directory over that store gives the same store and the same
    backlog. *)
Theorem discovery_scan_idempotent state_file globbed :
  (forall name, In name (map fst globbed) ->
     dict_mem name (fst (initialize_state state_file globbed)) = true)
  /\ initialize_state (Some (fst (initialize_state state_file globbed)))
       globbed
     = initialize_state state_file globbed.
Proof.
  split.
  - intros name H. apply (globbed_in_store state_file) in H.
    unfold dict_mem.
    destruct (dict_get name (fst (initialize_state state_file globbed)))
      eqn:Hget; [done|]. by apply dict_get_None in Hget.
  - pose proof (rescan_same_store state_file globbed _ eq_refl) as H1.
    pose proof (initialize_state_pending
                  (Some (fst (initialize_state state_file globbed)))
                  globbed) as H2.
    pose proof (initialize_state_pending state_file globbed) as H3.
    rewrite H1, <- H3 in H2.
    destruct (initialize_state (Some _) globbed) as [a b].
    destruct (initialize_state state_file globbed) as [a' b'].
    cbn [fst snd] in *. congruence.
Qed.

Lemma dict_get_Some_In {V : Type} k (v : V) d :
  dict_get k d = Some v -> In (k, v) d.
Proof.
  induction d as [|[k0 v0] d IH]; cbn; [done|].
  destruct (String.eqb_spec k k0) as [->|Hne].
  - intros [= ->]. by left.
  - intros H. right. by apply IH.
Qed.

Lemma dict_get_mark name filename status d :
  dict_get name (mark filename status d)
  = if String.eqb name filename
    then (fun e => mkEntry (entry_path e) status (priority e))
           <$> dict_get name d
    else dict_get name d.
Proof.
  unfold mark. destruct (String.eqb_spec name filename) as [->|Hne].
  - destruct (dict_get filename d) as [e|] eqn:Hget.
    + by rewrite dict_get_set_eq.
    + by rewrite Hget.
  - destruct (dict_get filename d) as [e|]; [|done].
    apply dict_get_set_ne. congruence.
Qed.

Lemma process_archive_store world filename d :
  exists status,
    (status = "completed" \/ status = "failed")
    /\ fst (process_archive world filename d) = mark filename status d.
Proof.
  unfold process_archive. destruct (world filename); eauto.
Qed.

Lemma process_tasks_keys world tasks : forall d,
  map fst (fst (process_tasks world tasks d)) = map fst d.
Proof.
  induction tasks as [|[filename info] tasks IH]; intros d; [done|].
  cbn [process_tasks].
  destruct (process_archive_store world filename d) as (st & _ & E).
  destruct (process_archive world filename d) as [d1 evs1].
  cbn [fst] in E. subst d1. specialize (IH (mark filename st d)).
  destruct (process_tasks world tasks (mark filename st d)) as [d2 evs2].
  cbn [fst] in *. by rewrite IH, mark_keys.
Qed.

Lemma process_tasks_get world tasks : forall d name,
  (~ In name (map fst tasks) ->
     dict_get name (fst (process_tasks world tasks d)) = dict_get name d)
  /\ (In name (map fst tasks) ->
      forall e', dict_get name (fst (process_tasks world tasks d)) = Some e' ->
        entry_status e' = "completed" \/ entry_status e' = "failed").
Proof.
  induction tasks as [|[filename info] tasks IH]; intros d name.
  { split; [done|intros []]. }
  cbn [process_tasks].
  destruct (process_archive_store world filename d) as (st & Hst & E).
  destruct (process_archive world filename d) as [d1 evs1].
  cbn [fst] in E. subst d1.
  destruct (IH (mark filename st d) name) as [IH1 IH2].
  destruct (process_tasks world tasks (mark filename st d)) as [d2 evs2].
  cbn [fst map] in *. split.
  - intros Hnin. cbn [map fst In] in Hnin.
    rewrite IH1 by tauto. rewrite dict_get_mark.
    destruct (String.eqb_spec name filename) as [->|Hne]; [|done].
    destruct Hnin. by left.
  - intros Hin e' Hget. cbn [map fst In] in Hin.
    destruct (in_dec string_dec name (map fst tasks)) as [Hr|Hr];
      [by apply IH2|].
    destruct Hin as [<-|Hin]; [|done].
    rewrite IH1, dict_get_mark, String.eqb_refl in Hget by done.
    destruct (dict_get filename d); [|done].
    injection Hget as <-. exact Hst.
Qed.

Lemma filter_nil_iff {A : Type} (p : A -> bool) (l : list A) :
  (forall x, In x l -> p x = false) -> List.filter p l = [].
Proof.
  induction l as [|x l IH]; intros H; [done|]. cbn.
  rewrite (H x) by (by left). apply IH. intros y Hy. apply H. by right.
Qed.

Lemma process_tasks_leaves_nothing_pending world (d : store) :
  NoDup (map fst d) ->
  List.filter is_pending
    (fst (process_tasks world
            (sort_desc task_priority (List.filter is_pending d)) d)) = [].
Proof.
  intros Hnd. apply filter_nil_iff. intros [name e'] Hin.
  set (tasks := sort_desc task_priority (List.filter is_pending d)) in *.
  assert (Hnd' : NoDup (map fst (fst (process_tasks world tasks d))))
    by (by rewrite process_tasks_keys).
  pose proof (dict_get_In _ _ _ Hnd' Hin) as Hget.
  destruct (process_tasks_get world tasks d name) as [H1 H2].
  unfold is_pending. cbn [snd]. apply String.eqb_neq.
  destruct (in_dec string_dec name (map fst tasks)) as [Hr|Hr].
  - destruct (H2 Hr e' Hget) as [-> | ->]; discriminate.
  - intros Hp. apply Hr. rewrite H1 in Hget by done.
    apply dict_get_Some_In in Hget.
    apply (in_map fst tasks (name, e')).
    apply (Permutation_in _ (Permutation_sym (sort_desc_perm _ _))).
    apply List.filter_In. split; [done|].
    unfold is_pending. cbn [snd]. by apply String.eqb_eq.
Qed.

Lemma discovery_scan_idempotent_witness :
  let globbed := [("arXiv_src_2201_005.tar", "/data/arXiv_src_2201_005.tar");
                  ("arXiv_src_2203_001.tar", "/data/arXiv_src_2203_001.tar")] in
  dict_mem "arXiv_src_2203_001.tar" (fst (initialize_state None globbed))
  = true.
Proof.
  intros globbed.
  apply (proj1 (discovery_scan_idempotent None globbed)).
  right. by left.
Defined.

(** ** Priorities of archives named in arXiv's way *)

Lemma search_skip c p pre s :
  Forall (fun c' => c' <> c) pre ->
  Re.search (Re.Lit c :: p) (pre ++ s) = Re.search (Re.Lit c :: p) s.
Proof.
  induction 1 as [|c' pre Hc _ IH]; [done|].
  cbn [app Re.search Re.match_here].
  destruct (Ascii.eqb_spec c c') as [->|_]; [done|]. exact IH.
Qed.

Lemma digit_value c :
  Re.is_digit c = true -> 0 <= Z.of_nat (nat_of_ascii c) - 48 <= 9.
Proof.
  unfold Re.is_digit. cbv zeta. intros H.
  apply andb_true_iff in H as [H1 H2].
  apply Nat.leb_le in H1, H2. lia.
Qed.

Lemma int_of_digits_bounds g :
  all_digits g -> 0 <= int_of_digits g < 10 ^ Z.of_nat (length g).
Proof.
  induction g as [|c g IH] using rev_ind; intros H.
  - cbn. lia.
  - apply Forall_app in H as [Hg Hc]. apply Forall_cons in Hc as [Hc _].
    specialize (IH Hg). apply digit_value in Hc.
    rewrite int_of_digits_app, length_app. cbn [length].
    replace (Z.of_nat (length g + 1)) with (Z.of_nat (length g) + 1) by lia.
    rewrite Z.pow_add_r by lia.
    change (int_of_digits [c]) with (10 * 0 + (Z.of_nat (nat_of_ascii c) - 48)).
    change (10 ^ Z.of_nat 1) with 10. change (10 ^ 1) with 10. lia.
Qed.

(** The name of an archive in arXiv's way, after a prefix. *)
Lemma priority_of_archive_name pre g1 g2 :
  Forall (fun c => c <> "s"%char) pre ->
  g1 <> [] -> g2 <> [] -> all_digits g1 -> all_digits g2 ->
  get_priority_from_filename
    (string_of_list_ascii
       (pre ++ list_ascii_of_string "src_" ++ g1 ++ ["_"%char] ++ g2
        ++ list_ascii_of_string ".tar"))
  = int_of_digits g1 * 10 ^ Z.of_nat (length g2) + int_of_digits g2.
Proof.
  intros Hpre H1 H2 Hd1 Hd2. unfold get_priority_from_filename.
  rewrite list_ascii_of_string_of_list_ascii.
  change Re.src_tar
    with (Re.Lit "s"%char
          :: (Re.lit "rc_" ++ [Re.Digits; Re.Lit "_"%char; Re.Digits]
              ++ Re.lit ".tar"))%list.
  rewrite search_skip by done.
  change (Re.Lit "s"%char
          :: (Re.lit "rc_" ++ [Re.Digits; Re.Lit "_"%char; Re.Digits]
              ++ Re.lit ".tar"))%list with Re.src_tar.
  pose proof (src_tar_complete g1 g2 [] H1 H2 Hd1 Hd2) as Hm.
  rewrite app_nil_r in Hm.
  assert (Hs : forall s, Re.match_here Re.src_tar s = Some [g1; g2] ->
                         Re.search Re.src_tar s = Some [g1; g2]).
  { intros s E. destruct s; cbn [Re.search]; by rewrite E. }
  rewrite (Hs _ Hm). apply int_of_digits_app.
Qed.

(** X15.  Priorities order the archives named in arXiv's way.  No priority is
    negative.  For two archives whose sequence numbers are written with
    the same number of digits, the one of the later period has the
    higher priority, and within one period the one of the higher
    sequence number.  The number of digits matters: sequence number 1
    of period 2203 written with one digit comes after sequence number
    005 of period 2201. *)
Theorem priority_orders_archive_names :
  (forall filename, 0 <= get_priority_from_filename filename)
  /\ (forall pre pre' g1 g2 h1 h2,
        Forall (fun c => c <> "s"%char) pre ->
        Forall (fun c => c <> "s"%char) pre' ->
        g1 <> [] -> g2 <> [] -> all_digits g1 -> all_digits g2 ->
        h1 <> [] -> h2 <> [] -> all_digits h1 -> all_digits h2 ->
        length g2 = length h2 ->
        let name a b :=
          string_of_list_ascii
            (a ++ list_ascii_of_string "src_" ++ fst b ++ ["_"%char]
             ++ snd b ++ list_ascii_of_string ".tar") in
        get_priority_from_filename (name pre (g1, g2))
        < get_priority_from_filename (name pre' (h1, h2))
        <-> int_of_digits g1 < int_of_digits h1
            \/ (int_of_digits g1 = int_of_digits h1
                /\ int_of_digits g2 < int_of_digits h2))
  /\ get_priority_from_filename "arXiv_src_2203_1.tar"
     < get_priority_from_filename "arXiv_src_2201_005.tar".
Proof.
  split; [|split].
  - intros filename.
    destruct (priority_by_pattern filename)
      as [(g1 & g2 & (pre & post & _ & _ & _ & Hd1 & Hd2) & ->) | [_ ->]];
      [|done].
    apply int_of_digits_bounds. by apply Forall_app.
  - intros pre pre' g1 g2 h1 h2 Hp Hp' Hg1 Hg2 Hdg1 Hdg2 Hh1 Hh2 Hdh1 Hdh2
      Hlen name. subst name. cbn [fst snd].
    rewrite !priority_of_archive_name by done. rewrite Hlen.
    pose proof (int_of_digits_bounds g2 Hdg2) as B1.
    pose proof (int_of_digits_bounds h2 Hdh2) as B2. rewrite Hlen in B1.
    pose proof (int_of_digits_bounds g1 Hdg1) as B3.
    pose proof (int_of_digits_bounds h1 Hdh1) as B4.
    generalize dependent (10 ^ Z.of_nat (length h2)). intros M B1 B2.
    generalize dependent (int_of_digits g1).
    generalize dependent (int_of_digits h1).
    generalize dependent (int_of_digits g2).
    generalize dependent (int_of_digits h2). intros. nia.
  - vm_compute. reflexivity.
Qed.

Lemma priority_orders_archive_names_witness :
  get_priority_from_filename "arXiv_src_2201_005.tar"
  < get_priority_from_filename "arXiv_src_2203_001.tar".
Proof.
  apply (proj2 (proj1 (proj2 priority_orders_archive_names)
                  (list_ascii_of_string "arXiv_")
                  (list_ascii_of_string "arXiv_")
                  (list_ascii_of_string "2201") (list_ascii_of_string "005")
                  (list_ascii_of_string "2203") (list_ascii_of_string "001")
                  ltac:(repeat constructor; discriminate)
                  ltac:(repeat constructor; discriminate)
                  ltac:(discriminate) ltac:(discriminate)
                  ltac:(repeat constructor) ltac:(repeat constructor)
                  ltac:(discriminate) ltac:(discriminate)
                  ltac:(repeat constructor) ltac:(repeat constructor)
                  eq_refl)).
  left. vm_compute. reflexivity.
Defined.

(** ** The intake of one archive *)

Lemma move_visible_files_sound raises dir entries :
  forall acc arxiv name e,
  move_visible_files raises dir entries acc = Ret arxiv ->
  arxiv !! name = Some e ->
  acc !! name = Some e
  \/ (In (name, e) entries /\ is_file e = true
      /\ startswith name "." = false).
Proof.
  induction entries as [|[n x] entries IH]; intros acc arxiv name e H Hl;
    cbn [move_visible_files] in H.
  - injection H as <-. by left.
  - destruct (is_file x && negb (startswith n ".")) eqn:Hc.
    + destruct (raises dir n); [done|].
      apply andb_true_iff in Hc as [Hf Hv]. apply negb_true_iff in Hv.
      destruct (IH _ _ _ _ H Hl) as [Ha|(Hin & ? & ?)];
        [|right; split; [by right|done]].
      destruct (decide (n = name)) as [->|Hne].
      * rewrite lookup_insert_eq in Ha. injection Ha as ->.
        right. split; [by left|done].
      * rewrite lookup_insert_ne in Ha by done. by left.
    + destruct (IH _ _ _ _ H Hl) as [Ha|(Hin & ? & ?)]; [by left|].
      right. split; [by right|done].
Qed.

Lemma move_visible_files_keeps raises dir entries : forall acc arxiv name,
  move_visible_files raises dir entries acc = Ret arxiv ->
  is_Some (acc !! name) -> is_Some (arxiv !! name).
Proof.
  induction entries as [|[n x] entries IH]; intros acc arxiv name H Hs;
    cbn [move_visible_files] in H.
  - by injection H as <-.
  - destruct (is_file x && negb (startswith n ".")).
    + destruct (raises dir n); [done|]. apply (IH _ _ _ H).
      destruct (decide (n = name)) as [->|Hne].
      * rewrite lookup_insert_eq. by eexists.
      * by rewrite lookup_insert_ne.
    + by apply (IH _ _ _ H).
Qed.

Lemma move_visible_files_frame raises dir entries : forall acc arxiv name,
  move_visible_files raises dir entries acc = Ret arxiv ->
  ~ In name (map fst entries) -> arxiv !! name = acc !! name.
Proof.
  induction entries as [|[n x] entries IH]; intros acc arxiv name H Hn;
    cbn [move_visible_files map fst In] in *.
  - by injection H as <-.
  - destruct (is_file x && negb (startswith n ".")).
    + destruct (raises dir n); [done|].
      rewrite (IH _ _ _ H) by tauto. apply lookup_insert_ne. tauto.
    + apply (IH _ _ _ H). tauto.
Qed.

Lemma move_visible_files_complete raises dir entries :
  forall acc arxiv name e,
  move_visible_files raises dir entries acc = Ret arxiv ->
  In (name, e) entries -> is_file e = true -> startswith name "." = false ->
  is_Some (arxiv !! name)
  /\ (List.NoDup (map fst entries) -> arxiv !! name = Some e).
Proof.
  induction entries as [|[n x] entries IH];
    intros acc arxiv name e H Hin Hf Hv; [done|].
  cbn [move_visible_files] in H.
  destruct Hin as [[= -> ->]|Hin].
  - rewrite Hf, Hv in H. cbn [negb andb] in H.
    destruct (raises dir name); [done|]. split.
    + apply (move_visible_files_keeps _ _ _ _ _ _ H).
      rewrite lookup_insert_eq. by eexists.
    + intros Hnd. apply List.NoDup_cons_iff in Hnd as [Hnin _].
      cbn [map fst] in Hnin.
      rewrite (move_visible_files_frame _ _ _ _ _ _ H) by done.
      apply lookup_insert_eq.
  - destruct (is_file x && negb (startswith n ".")).
    + destruct (raises dir n); [done|].
      destruct (IH _ _ _ _ H Hin Hf Hv) as [H1 H2]. split; [done|].
      intros Hnd. apply List.NoDup_cons_iff in Hnd as [_ Hnd]. by apply H2.
    + destruct (IH _ _ _ _ H Hin Hf Hv) as [H1 H2]. split; [done|].
      intros Hnd. apply List.NoDup_cons_iff in Hnd as [_ Hnd]. by apply H2.
Qed.

(** A move that raises ends the inner loop, and only that. *)
Lemma move_visible_files_raises raises dir entries : forall acc,
  match move_visible_files raises dir entries acc with
  | Ret _ =>
      forall name e, In (name, e) entries -> is_file e = true ->
        startswith name "." = false -> raises dir name = None
  | Raise x =>
      exists name e, In (name, e) entries /\ is_file e = true
                     /\ startswith name "." = false
                     /\ raises dir name = Some x
  end.
Proof.
  induction entries as [|[n x] entries IH]; intros acc;
    cbn [move_visible_files]; [by intros ? ? []|].
  destruct (is_file x && negb (startswith n ".")) eqn:Hc.
  - apply andb_true_iff in Hc as [Hf Hv]. apply negb_true_iff in Hv.
    destruct (raises dir n) as [y|] eqn:Hr.
    + exists n, x. split; [by left|done].
    + specialize (IH (<[n := x]> acc)).
      destruct (move_visible_files raises dir entries _) as [mid|y].
      * intros name e [[= -> ->]|Hin] He Hvis; [done|by apply (IH name e)].
      * destruct IH as (name & e & Hin & ?). exists name, e.
        split; [by right|done].
  - specialize (IH acc).
    destruct (move_visible_files raises dir entries acc) as [mid|y].
    + intros name e [[= -> ->]|Hin] He Hvis; [|by apply (IH name e)].
      rewrite He, Hvis in Hc. done.
    + destruct IH as (name & e & Hin & ?). exists name, e.
      split; [by right|done].
Qed.

Lemma move_extracted_files_sound raises filename temp_tar_dir :
  forall acc arxiv name e,
  move_extracted_files raises filename temp_tar_dir acc = Ret arxiv ->
  arxiv !! name = Some e ->
  acc !! name = Some e
  \/ exists d entries,
       In (d, Directory entries) temp_tar_dir /\ d <> filename
       /\ In (name, e) entries /\ is_file e = true
       /\ startswith name "." = false.
Proof.
  induction temp_tar_dir as [|[d [c|entries]] rest IH];
    intros acc arxiv name e H Hl; cbn [move_extracted_files] in H.
  - injection H as <-. by left.
  - destruct (IH _ _ _ _ H Hl) as [Ha|(d' & en & Hin & ?)]; [by left|].
    right. exists d', en. split; [by right|done].
  - destruct (String.eqb d filename) eqn:Hd; cbn [negb] in H.
    + destruct (IH _ _ _ _ H Hl) as [Ha|(d' & en & Hin & ?)]; [by left|].
      right. exists d', en. split; [by right|done].
    + apply String.eqb_neq in Hd.
      destruct (move_visible_files raises d entries acc) as [mid|x] eqn:Hm;
        [|done].
      destruct (IH _ _ _ _ H Hl) as [Ha|(d' & en & Hin & ?)].
      * destruct (move_visible_files_sound _ _ _ _ _ _ _ Hm Ha)
          as [?|(? & ? & ?)]; [by left|].
        right. exists d, entries. split; [by left|done].
      * right. exists d', en. split; [by right|done].
Qed.

Lemma move_extracted_files_keeps raises filename temp_tar_dir :
  forall acc arxiv name,
  move_extracted_files raises filename temp_tar_dir acc = Ret arxiv ->
  is_Some (acc !! name) -> is_Some (arxiv !! name).
Proof.
  induction temp_tar_dir as [|[d [c|entries]] rest IH];
    intros acc arxiv name H Hs; cbn [move_extracted_files] in H.
  - by injection H as <-.
  - by apply (IH _ _ _ H).
  - destruct (negb (String.eqb d filename)); [|by apply (IH _ _ _ H)].
    destruct (move_visible_files raises d entries acc) as [mid|x] eqn:Hm;
      [|done].
    apply (IH _ _ _ H). by apply (move_visible_files_keeps _ _ _ _ _ _ Hm).
Qed.

Lemma move_extracted_files_complete raises filename temp_tar_dir :
  forall acc arxiv d entries name e,
  move_extracted_files raises filename temp_tar_dir acc = Ret arxiv ->
  In (d, Directory entries) temp_tar_dir -> d <> filename ->
  In (name, e) entries -> is_file e = true -> startswith name "." = false ->
  is_Some (arxiv !! name).
Proof.
  induction temp_tar_dir as [|[d' [c|en]] rest IH];
    intros acc arxiv d entries name e H Hin Hd He Hf Hv; [done| |];
    cbn [move_extracted_files] in H.
  - destruct Hin as [[=]|Hin]. by apply (IH _ _ _ _ _ e H Hin).
  - destruct Hin as [[= -> ->]|Hin].
    + apply String.eqb_neq in Hd. rewrite Hd in H. cbn [negb] in H.
      destruct (move_visible_files raises d entries acc) as [mid|x] eqn:Hm;
        [|done].
      apply (move_extracted_files_keeps _ _ _ _ _ _ H).
      by apply (move_visible_files_complete _ _ _ _ _ _ _ Hm He).
    + destruct (negb (String.eqb d' filename));
        [|by apply (IH _ _ _ _ _ e H Hin)].
      destruct (move_visible_files raises d' en acc) as [mid|x] eqn:Hm;
        [|done].
      by apply (IH _ _ _ _ _ e H Hin).
Qed.

Lemma move_extracted_files_raises raises filename temp_tar_dir : forall acc,
  match move_extracted_files raises filename temp_tar_dir acc with
  | Ret _ =>
      forall d entries name e,
        In (d, Directory entries) temp_tar_dir -> d <> filename ->
        In (name, e) entries -> is_file e = true ->
        startswith name "." = false -> raises d name = None
  | Raise x =>
      exists d entries name e,
        In (d, Directory entries) temp_tar_dir /\ d <> filename
        /\ In (name, e) entries /\ is_file e = true
        /\ startswith name "." = false /\ raises d name = Some x
  end.
Proof.
  induction temp_tar_dir as [|[d' [c|en]] rest IH]; intros acc;
    cbn [move_extracted_files].
  - by intros ? ? ? ? [].
  - specialize (IH acc).
    destruct (move_extracted_files raises filename rest acc) as [mid|y].
    + intros d entries name e [[=]|Hin]. by apply IH.
    + destruct IH as (d & entries & name & e & Hin & ?).
      exists d, entries, name, e. split; [by right|done].
  - destruct (String.eqb d' filename) eqn:Hd; cbn [negb].
    + apply String.eqb_eq in Hd. specialize (IH acc).
      destruct (move_extracted_files raises filename rest acc) as [mid|y].
      * intros d entries name e [[= -> ->]|Hin]; [done|by apply IH].
      * destruct IH as (d & entries & name & e & Hin & ?).
        exists d, entries, name, e. split; [by right|done].
    + apply String.eqb_neq in Hd.
      pose proof (move_visible_files_raises raises d' en acc) as Hv.
      destruct (move_visible_files raises d' en acc) as [mid|x].
      * specialize (IH mid).
        destruct (move_extracted_files raises filename rest mid) as [fin|y].
        -- intros d entries name e [[= -> ->]|Hin];
             [intros _; apply Hv|by apply IH].
        -- destruct IH as (d & entries & name & e & Hin & ?).
           exists d, entries, name, e. split; [by right|done].
      * destruct Hv as (name & e & ?). exists d', en, name, e.
        split; [by left|]. done.
Qed.

(** X16.  The intake of an archive.  When the moves into an empty
    intake directory return, an entry is there only if it is a visible
    regular file, or a visible link that leads to one, directly inside
    one of the extracted directories (not the archive itself, not a
    file at the top of the archive, not a file further down), and as it
    was there, a link as a link; every such entry is there under its
    name; no move of such an entry raised; and when the archive unpacks
    to one directory, each of them is there as it was.  When the moves
    do not return, the exception is that of the move of such an entry;
    and when no such move raises they return. *)
Theorem intake_is_one_level_down raises filename temp_tar_dir :
  let extracted name e :=
    exists d entries,
      In (d, Directory entries) temp_tar_dir /\ d <> filename
      /\ In (name, e) entries /\ is_file e = true
      /\ startswith name "." = false in
  (forall arxiv,
     move_extracted_files raises filename temp_tar_dir ∅ = Ret arxiv ->
     (forall name e, arxiv !! name = Some e -> extracted name e)
     /\ (forall name e, extracted name e -> is_Some (arxiv !! name))
     /\ (forall d entries name e,
           In (d, Directory entries) temp_tar_dir -> d <> filename ->
           In (name, e) entries -> is_file e = true ->
           startswith name "." = false -> raises d name = None)
     /\ (forall tar d entries name e,
           temp_tar_dir = [(filename, File tar); (d, Directory entries)] ->
           List.NoDup (map fst entries) -> extracted name e ->
           arxiv !! name = Some e))
  /\ (forall x,
        move_extracted_files raises filename temp_tar_dir ∅ = Raise x ->
        exists d entries name e,
          In (d, Directory entries) temp_tar_dir /\ d <> filename
          /\ In (name, e) entries /\ is_file e = true
          /\ startswith name "." = false /\ raises d name = Some x)
  /\ ((forall d name, raises d name = None) ->
      exists arxiv,
        move_extracted_files raises filename temp_tar_dir ∅ = Ret arxiv).
Proof.
  intros extracted.
  pose proof (move_extracted_files_raises raises filename temp_tar_dir ∅)
    as Hr.
  split; [|split].
  - intros arxiv H. rewrite H in Hr. split; [|split; [|split]].
    + intros name e Hl.
      by destruct (move_extracted_files_sound _ _ _ _ _ _ _ H Hl).
    + intros name e (d & entries & Hin & Hd & He & Hf & Hv).
      by apply (move_extracted_files_complete _ _ _ _ _ _ _ _ _ H Hin Hd He).
    + exact Hr.
    + intros tar d entries name e -> Hnd (d' & en & Hin & Hd & He & Hf & Hv).
      destruct Hin as [[=]|[[= -> ->]|[]]].
      cbn [move_extracted_files] in H.
      apply String.eqb_neq in Hd. rewrite Hd in H. cbn [negb] in H.
      destruct (move_visible_files raises d' en ∅) as [mid|x] eqn:Hm;
        [|done].
      injection H as <-.
      by apply (move_visible_files_complete _ _ _ _ _ _ _ Hm He Hf Hv).
  - intros x H. by rewrite H in Hr.
  - intros Hnone.
    destruct (move_extracted_files raises filename temp_tar_dir ∅)
      as [arxiv|x]; [by exists arxiv|].
    destruct Hr as (d & entries & name & e & _ & _ & _ & _ & _ & Hx).
    by rewrite Hnone in Hx.
Qed.

Lemma intake_is_one_level_down_witness :
  let temp_tar_dir :=
    [ ("arXiv_src_2208_071.tar", File "tar");
      ("2208", Directory [ ("2208.00001.gz", RegularFile "a");
                           (".DS_Store", RegularFile "b");
                           ("2208.00002.gz", LinkToFile "../2208.00001.gz");
                           ("nested", OtherEntry) ]) ] in
  exists arxiv,
    move_extracted_files (fun _ _ => None) "arXiv_src_2208_071.tar"
      temp_tar_dir ∅ = Ret arxiv
    /\ arxiv !! "2208.00001.gz" = Some (RegularFile "a")
    /\ arxiv !! "2208.00002.gz" = Some (LinkToFile "../2208.00001.gz")
    /\ arxiv !! ".DS_Store" = None /\ arxiv !! "nested" = None.
Proof.
  intros temp_tar_dir.
  destruct (intake_is_one_level_down (fun _ _ => None)
              "arXiv_src_2208_071.tar" temp_tar_dir) as (Hret & _ & Hsome).
  destruct (Hsome (fun _ _ => eq_refl)) as [arxiv H].
  exists arxiv. split; [exact H|].
  destruct (Hret arxiv H) as (Hsound & _ & _ & Hone).
  assert (Hnd : List.NoDup
                  (map fst [ ("2208.00001.gz", RegularFile "a");
                             (".DS_Store", RegularFile "b");
                             ("2208.00002.gz", LinkToFile "../2208.00001.gz");
                             ("nested", OtherEntry) ])).
  { repeat constructor; cbn; intuition discriminate. }
  split; [|split; [|split]].
  - apply (Hone "tar" "2208" _ _ _ eq_refl Hnd).
    eexists _, _. split; [right; by left|]. split; [discriminate|].
    split; [by left|done].
  - apply (Hone "tar" "2208" _ _ _ eq_refl Hnd).
    eexists _, _. split; [right; by left|]. split; [discriminate|].
    split; [right; right; by left|done].
  - destruct (arxiv !! ".DS_Store") as [e|] eqn:Hl; [|done].
    destruct (Hsound _ _ Hl) as (_ & _ & _ & _ & _ & _ & Hv). discriminate Hv.
  - destruct (arxiv !! "nested") as [e|] eqn:Hl; [|done].
    destruct (Hsound _ _ Hl) as (d & en & Hin & _ & He & Hf & _).
    destruct Hin as [[=]|[[= <- <-]|[]]].
    destruct He as [[=]|[[=]|[[=]|[[= <-]|[]]]]]. discriminate Hf.
Defined.

(** ** The name of an attachment *)

Lemma free_name_spec file_name assets fuel : forall c dest,
  1 <= c <= 100 -> 101 <= Z.of_nat fuel + c ->
  dest = candidate file_name (c - 1) ->
  match free_name fuel c dest (Path.stem file_name) (Path.suffix file_name)
          assets with
  | Placed d =>
      exists k, c - 1 <= k <= 99 /\ d = candidate file_name k
        /\ assets !! d = None
        /\ forall j, c - 1 <= j < k ->
             is_Some (assets !! candidate file_name j)
  | GaveUp =>
      forall j, c - 1 <= j <= 99 -> is_Some (assets !! candidate file_name j)
  | OutOfFuel => False
  end.
Proof.
  induction fuel as [|fuel IH]; intros c dest Hc Hf ->; [lia|].
  cbn [free_name]. unfold exists_in. case_bool_decide as Hx.
  - destruct (Z.gtb_spec (c + 1) 100) as [Hlim|Hlim].
    + intros j Hj. by replace j with (c - 1) by lia.
    + specialize (IH (c + 1)
                    (Path.stem file_name +:+ "_" +:+ pretty c
                     +:+ Path.suffix file_name)).
      assert (Hcand : Path.stem file_name +:+ "_" +:+ pretty c
                      +:+ Path.suffix file_name
                      = candidate file_name (c + 1 - 1)).
      { unfold candidate. replace (c + 1 - 1) with c by lia.
        destruct (Z.eqb_spec c 0); [lia|done]. }
      specialize (IH ltac:(lia) ltac:(lia) Hcand).
      destruct free_name as [d| |]; [| |done].
      * destruct IH as (k & Hk & -> & Hnone & Hprev).
        exists k. repeat split; [lia|lia|done|].
        intros j Hj. destruct (decide (j = c - 1)) as [->|Hne]; [done|].
        apply Hprev. lia.
      * intros j Hj. destruct (decide (j = c - 1)) as [->|Hne]; [done|].
        apply IH. lia.
  - exists (c - 1). repeat split; [lia|lia| |intros j Hj; lia].
    by apply eq_None_not_Some.
Qed.

(** X17.  The copy of an attachment never replaces a file of the assets
    directory.  The name chosen is the first free one among the name of
    the file and the stem with the counters 1 to 99; when all of these
    are taken the file is given up, the name with counter 100 being
    formed but never tried; and the search always ends. *)
Theorem asset_name_is_fresh file_name assets :
  match asset_name file_name assets with
  | Placed dest =>
      assets !! dest = None
      /\ exists k, 0 <= k <= 99 /\ dest = candidate file_name k
           /\ forall j, 0 <= j < k ->
                is_Some (assets !! candidate file_name j)
  | GaveUp =>
      forall j, 0 <= j <= 99 -> is_Some (assets !! candidate file_name j)
  | OutOfFuel => False
  end.
Proof.
  unfold asset_name.
  pose proof (free_name_spec file_name assets 100 1 file_name
                ltac:(lia) ltac:(lia) eq_refl) as H.
  destruct free_name as [d| |]; [|done|done].
  destruct H as (k & Hk & -> & Hnone & Hprev). split; [done|].
  exists k. repeat split; [lia|lia|done].
Qed.

(** ** A pool without workers *)

Lemma no_worker_no_step file_list num_workers now :
  num_workers <= 0 -> file_list <> [] ->
  forall s, ~ step (init_pool file_list num_workers now) s.
Proof.
  intros Hk Hfl s [a H]. unfold init_pool in H.
  replace (Z.to_nat num_workers) with O in H by lia.
  destruct file_list as [|w l]; [done|].
  destruct a as [i|i| |t]; cbn in H; try done.
Qed.

(** X18.  A pool of no worker.  [--workers 0] passes the command line;
    with no worker (or a negative number of them) and at least one file
    nothing ever moves: the parent waits for its first record, and
    [process_files] does not return under any schedule.  On an empty
    list of files it returns at once, with or without workers. *)
Theorem pool_without_workers_never_returns file_list num_workers now :
  num_workers <= 0 -> file_list <> [] ->
  (forall s, reachable (init_pool file_list num_workers now) s ->
             s = init_pool file_list num_workers now)
  /\ (forall sched, process_files file_list num_workers now sched = None)
  /\ forall k t,
       process_files [] k now [Shutdown t]
       = Some (set_end_time t (new_stats 0 now)).
Proof.
  intros Hk Hfl.
  assert (Hstay : forall s,
            reachable (init_pool file_list num_workers now) s ->
            s = init_pool file_list num_workers now).
  { intros s [n Hn]. revert s Hn.
    induction n as [|n IH]; intros s Hn.
    - by inversion Hn.
    - inversion Hn as [|n' s0 s1 s2 Hn1 Hstep]; subst.
      rewrite (IH s1 Hn1) in Hstep.
      by apply no_worker_no_step in Hstep. }
  split; [exact Hstay|]. split; [|done].
  intros sched. unfold process_files.
  destruct (play sched (init_pool file_list num_workers now)) as [s|] eqn:Hp;
    [|done].
  apply play_reachable, Hstay in Hp. subst s.
  destruct file_list; [done|]. done.
Qed.

Lemma pool_without_workers_never_returns_witness :
  let w := mkItem "2208.00001.gz"
                  (mkRun None (Ret true) F.zero (F.of_int 3)) in
  process_files [w] 0 F.zero [Take O; Finish O; Collect; Shutdown F.zero]
  = None.
Proof.
  intros w.
  apply (pool_without_workers_never_returns [w] 0 F.zero); [lia|done].
Defined.

(** * Exceptions and signals

    The orchestrator when an exception leaves it and the pool when a
    signal reaches it: the store, the backlog and the counts of the
    pool in every run, and what the report of a run can rely on. *)

(** ** The orchestrator under faults *)

Lemma NoDup_keys_filter {V : Type} (p : string * V -> bool)
    (d : list (string * V)) :
  NoDup (map fst d) -> NoDup (map fst (List.filter p d)).
Proof.
  induction d as [|[k v] d IH]; intros H; [done|].
  apply NoDup_cons in H as [Hk Hd]. cbn [List.filter].
  destruct (p (k, v)); [|by apply IH].
  cbn [map fst]. apply NoDup_cons. split; [|by apply IH].
  intros Hin. apply Hk. apply list_elem_of_In in Hin.
  apply list_elem_of_In. apply in_map_iff in Hin as ([k' v'] & <- & Hin).
  apply List.filter_In in Hin as [Hin _].
  apply (in_map fst d (k', v')). exact Hin.
Qed.




(** The loop under faults is the loop without them over the first [k]
    tasks, followed at most by the start of the pool for the next. *)
Lemma process_tasks_ev_cut world world' tasks :
  (forall f o, world f = Settled o \/ world f = EscapedMarked o ->
               world' f = o) ->
  forall d,
  exists k extra,
    (k <= length tasks)%nat
    /\ fst (fst (process_tasks_ev world tasks d))
       = fst (process_tasks world' (take k tasks) d)
    /\ snd (fst (process_tasks_ev world tasks d))
       = (snd (process_tasks world' (take k tasks) d) ++ extra)%list
    /\ (extra = []
        \/ exists name info,
             tasks !! k = Some (name, info) /\ extra = [PoolStarted name])
    /\ (snd (process_tasks_ev world tasks d) = true ->
        k = length tasks /\ extra = []).
Proof.
  intros Hw'.
  induction tasks as [|[filename info] tasks IH]; intros d.
  - exists O, []. cbn. split; [lia|]. split; [done|]. split; [done|].
    split; [by left|done].
  - cbn [process_tasks_ev process_archive_ev].
    assert (Hw : forall o, world' filename = o ->
              process_archive (fun _ => o) filename d
              = process_archive world' filename d).
    { intros o <-. done. }
    destruct (world filename) as [o|started|o] eqn:Hwf;
      unfold process_archive_ev.
    + rewrite (Hw o) by (apply Hw'; by left).
      destruct (process_archive world' filename d) as [d1 evs1] eqn:Hpa.
      destruct (IH d1) as (k & extra & Hk & Hd & Hevs & Hextra & Hret).
      exists (S k), extra.
      destruct (process_tasks_ev world tasks d1) as [[d2 evs2] r].
      cbn [fst snd take process_tasks length] in *. rewrite Hpa.
      destruct (process_tasks world' (take k tasks) d1) as [d3 evs3].
      cbn [fst snd] in *. subst.
      split; [lia|]. split; [done|]. split; [by rewrite app_assoc|].
      split; [done|]. intros Hr. destruct (Hret Hr) as [-> ->]. done.
    + exists O, (if started then [PoolStarted filename] else []).
      cbn [fst snd take process_tasks length app].
      split; [lia|]. split; [done|]. split; [done|].
      split; [|done]. destruct started; [right|by left].
      by exists filename, info.
    + rewrite (Hw o) by (apply Hw'; by right).
      exists 1%nat, [].
      cbn [fst snd take process_tasks length]. rewrite take_0.
      destruct (process_archive world' filename d) as [d1 evs1] eqn:Hpa.
      cbn [fst snd process_tasks]. rewrite !app_nil_r.
      split; [lia|]. split; [done|]. split; [done|]. split; [by left|done].
Qed.

Lemma process_tasks_started world tasks : forall d,
  sublist (started_names (snd (process_tasks world tasks d)))
          (map fst tasks).
Proof.
  induction tasks as [|[filename info] tasks IH]; intros d; [done|].
  cbn [process_tasks]. specialize (IH (fst (process_archive world filename d))).
  unfold process_archive in *.
  destruct (world filename); cbn [fst snd] in *;
    destruct (process_tasks world tasks _) as [d2 evs2];
    cbn [snd started_names omap app map fst] in *.
  - by apply sublist_cons.
  - by apply sublist_skip.
  - by apply sublist_skip.
Qed.

Lemma started_names_monitor evs :
  started_names (MonitorStarted :: evs ++ [MonitorStopped])
  = started_names evs.
Proof.
  unfold started_names.
  change (MonitorStarted :: evs ++ [MonitorStopped])%list
    with ([MonitorStarted] ++ evs ++ [MonitorStopped])%list.
  rewrite !omap_app. simpl. by rewrite app_nil_r.
Qed.

Lemma backlog_names state_file globbed :
  NoDup (map fst (default [] state_file)) ->
  NoDup (map fst (snd (initialize_state state_file globbed))).
Proof.
  intros Hnd.
  destruct (initialize_state_grows state_file globbed Hnd)
    as (added & Hd & _ & Hnd').
  rewrite <- Hd in Hnd'. rewrite initialize_state_pending.
  rewrite (sort_desc_perm task_priority). by apply NoDup_keys_filter.
Qed.

(** A run of [main] under faults, in terms of the store after the scan
    and of the backlog: an exception out of the scan apart, the run
    marks the first [k] archives of the backlog. *)
Lemma main_ev_spec state_file globbed w :
  NoDup (map fst (default [] state_file)) ->
  let d := fst (initialize_state state_file globbed) in
  let tasks := snd (initialize_state state_file globbed) in
  let r := main_ev true state_file globbed w in
  match scan_of w with
  | ScanEscapes written =>
      r = mkBatchRun (if written then Some d else state_file) [] false
  | ScanReturns =>
      exists d' k,
        state_after r = Some d'
        /\ (k <= length tasks)%nat
        /\ marked_names (trace r) = map fst (take k tasks)
        /\ (returned r = true -> k = length tasks)
        /\ store_advanced d d'
        /\ (forall name, ~ In name (map fst (take k tasks)) ->
              dict_get name d' = dict_get name d)
        /\ (forall name e', In name (map fst (take k tasks)) ->
              dict_get name d' = Some e' ->
              entry_status e' = "completed" \/ entry_status e' = "failed")
        /\ sublist (started_names (trace r)) (map fst tasks)
        /\ (forall name, In name (started_names (trace r)) ->
              In name (map fst (take (S k) tasks)))
  end.
Proof.
  intros Hnd d tasks r. subst d tasks r. unfold main_ev. cbn [negb].
  pose proof (pending_tasks_in_store state_file globbed) as Hpend.
  destruct (initialize_state state_file globbed) as [d tasks] eqn:Hinit.
  cbn [fst snd] in *.
  destruct (scan_of w) as [|written]; [|done].
  destruct (is_empty tasks) eqn:He.
  { destruct tasks; [|done]. exists d, O. cbn.
    split; [done|]. split; [lia|]. split; [done|]. split; [done|].
    split; [apply store_advanced_refl|]. split; [done|]. split; [done|].
    split; [constructor|done]. }
  set (world' := fun f => match end_of w f with
                          | Settled o | EscapedMarked o => o
                          | EscapedUnmarked _ => RaisedBeforePool
                          end).
  destruct (process_tasks_ev_cut (end_of w) world' tasks) with (d := d)
    as (k & extra & Hk & Hd & Hevs & Hextra & Hret).
  { intros f o [H|H]; unfold world'; by rewrite H. }
  destruct (process_tasks_ev (end_of w) tasks d) as [[d' evs] ret].
  cbn [fst snd state_after trace returned] in *. subst d' evs.
  exists (fst (process_tasks world' (take k tasks) d)), k.
  assert (Hme : marked_names extra = []).
  { destruct Hextra as [->|(name & info & _ & ->)]; done. }
  split; [done|]. split; [done|].
  split.
  { rewrite marked_names_monitor. unfold marked_names at 1.
    rewrite omap_app. fold (marked_names extra). rewrite Hme, app_nil_r.
    apply process_tasks_order. }
  split; [by intros H; apply Hret|].
  split.
  { apply process_tasks_advanced; [|apply store_advanced_refl].
    intros name info Hin. exists info.
    apply Hpend; [done|]. apply list_elem_of_In.
    apply list_elem_of_In in Hin. by apply (subseteq_take k tasks). }
  split;
    [intros name;
     apply (proj1 (process_tasks_get world' (take k tasks) d name))|].
  split;
    [intros name e' Hin;
     apply (proj2 (process_tasks_get world' (take k tasks) d name) Hin)|].
  rewrite started_names_monitor.
  assert (Hsn : started_names
                  (snd (process_tasks world' (take k tasks) d) ++ extra)
                = (started_names (snd (process_tasks world' (take k tasks) d))
                   ++ started_names extra)%list)
    by apply omap_app.
  rewrite Hsn. clear Hsn.
  pose proof (process_tasks_started world' (take k tasks) d) as Hsub.
  rewrite <- firstn_map in Hsub.
  split.
  - rewrite <- (take_drop k (map fst tasks)).
    apply sublist_app; [done|].
    destruct Hextra as [->|(name & info & Hlk & ->)]; [apply sublist_nil_l|].
    cbn. rewrite skipn_map, (drop_S _ _ _ Hlk). cbn.
    apply sublist_skip, sublist_nil_l.
  - intros name Hin. apply in_app_or in Hin as [Hin|Hin].
    + apply list_elem_of_In in Hin. apply (elem_of_sublist _ _ _ Hin) in Hsub.
      rename Hsub into Hin'.
      apply list_elem_of_In. rewrite <- firstn_map.
      destruct (tasks !! k) as [x|] eqn:Hlk.
      * rewrite (take_S_r _ _ (fst x)) by (by rewrite list_lookup_fmap, Hlk).
        apply elem_of_app. by left.
      * apply lookup_ge_None in Hlk.
        rewrite take_ge by (rewrite length_map; lia).
        by rewrite take_ge in Hin' by (rewrite length_map; lia).
    + destruct Hextra as [->|(n & info & Hlk & ->)]; [done|].
      destruct Hin as [<-|[]].
      apply list_elem_of_In. rewrite <- firstn_map.
      rewrite (take_S_r _ _ n) by (by rewrite list_lookup_fmap, Hlk).
      apply elem_of_app. right. by apply list_elem_of_singleton.
Qed.










(** X19.  Within one call of the orchestrator, however it ends, no
    archive is handled twice and none out of turn: the archives it
    marks are the first of the backlog, in the order of the backlog,
    all of it if the call returns; each was a pending entry of the
    store after the scan; the pool is started at most once for an
    archive, in the order of the backlog, and only for an archive that
    is then marked or, in a call that does not return, for the one that
    follows the marked ones. *)
Theorem each_archive_marked_once state_file globbed w :
  NoDup (map fst (default [] state_file)) ->
  let r := main_ev true state_file globbed w in
  let d := fst (initialize_state state_file globbed) in
  let backlog := map fst (snd (initialize_state state_file globbed)) in
  NoDup (marked_names (trace r))
  /\ NoDup (started_names (trace r))
  /\ marked_names (trace r) `prefix_of` backlog
  /\ sublist (started_names (trace r)) backlog
  /\ (returned r = true -> marked_names (trace r) = backlog)
  /\ (forall name, In name (marked_names (trace r)) ->
        exists e, dict_get name d = Some e /\ entry_status e = "pending")
  /\ (forall name, In name (started_names (trace r)) ->
        In name (marked_names (trace r))
        \/ (returned r = false
            /\ backlog !! length (marked_names (trace r)) = Some name)).
Proof.
  intros Hnd r d backlog.
  pose proof (main_ev_spec state_file globbed w Hnd) as H.
  cbv zeta in H. fold d r in H.
  pose proof (backlog_names state_file globbed Hnd) as Hnb.
  fold backlog in Hnb.
  destruct (scan_of w) as [|written]; cycle 1.
  { rewrite H. cbn [trace returned marked_names started_names omap].
    split; [constructor|]. split; [constructor|].
    split; [apply prefix_nil|]. split; [apply sublist_nil_l|].
    split; [done|]. split; [intros name []|intros name []]. }
  destruct H as (d' & k & Hst & Hk & Hm & Hret & _ & _ & _ & Hsub & Hstart).
  rewrite <- firstn_map in Hm. fold backlog in Hm, Hsub.
  assert (Hpre : marked_names (trace r) `prefix_of` backlog).
  { rewrite Hm. apply prefix_take. }
  split; [|split; [|split; [|split; [|split; [|split]]]]]; try done.
  - rewrite Hm. eapply sublist_NoDup; [exact Hnb|apply sublist_take].
  - eapply sublist_NoDup; [exact Hnb|exact Hsub].
  - intros Hr. rewrite Hm, (Hret Hr). apply take_ge.
    unfold backlog. by rewrite length_map.
  - intros name Hin. rewrite Hm in Hin.
    assert (Hb : In name backlog).
    { apply list_elem_of_In. apply list_elem_of_In in Hin.
      revert Hin. apply subseteq_take. }
    apply in_map_iff in Hb as ([n e] & <- & Hb).
    exists e. by apply pending_tasks_in_store.
  - intros name Hin. apply Hstart in Hin.
    rewrite <- firstn_map in Hin. fold backlog in Hin.
    assert (Hlen : length (marked_names (trace r)) = k).
    { rewrite Hm, length_take. unfold backlog. rewrite length_map. lia. }
    rewrite Hlen.
    destruct (backlog !! k) as [x|] eqn:Hlk.
    + rewrite (take_S_r _ _ _ Hlk) in Hin.
      apply in_app_or in Hin as [Hin|[<-|[]]]; [left; by rewrite Hm|].
      right. split; [|done].
      destruct (returned r) eqn:Hr; [|done].
      rewrite (Hret eq_refl) in Hlk. apply lookup_lt_Some in Hlk.
      unfold backlog in Hlk. rewrite length_map in Hlk. lia.
    + left. rewrite Hm. apply lookup_ge_None in Hlk.
      rewrite take_ge in Hin by lia. by rewrite take_ge by lia.
Qed.

Lemma each_archive_marked_once_witness :
  let old := mkEntry "/data/arXiv_src_2201_005.tar" "completed" 2201005 in
  let d := [("arXiv_src_2201_005.tar", old)] in
  let globbed := [("arXiv_src_2201_005.tar", "/data/arXiv_src_2201_005.tar");
                  ("arXiv_src_2203_001.tar", "/data/arXiv_src_2203_001.tar");
                  ("arXiv_src_2202_007.tar", "/data/arXiv_src_2202_007.tar")] in
  let w := mkBatchWorld ScanReturns
             (fun f => if String.eqb f "arXiv_src_2203_001.tar"
                       then Settled PoolRaised else EscapedUnmarked true) in
  trace (main_ev true (Some d) globbed w)
  = [MonitorStarted; PoolStarted "arXiv_src_2203_001.tar";
     Marked "arXiv_src_2203_001.tar" "failed";
     PoolStarted "arXiv_src_2202_007.tar"; MonitorStopped]
  /\ NoDup (marked_names (trace (main_ev true (Some d) globbed w)))
  /\ NoDup (started_names (trace (main_ev true (Some d) globbed w))).
Proof.
  intros old d globbed w.
  split; [vm_compute; reflexivity|].
  destruct (each_archive_marked_once (Some d) globbed w) as (H1 & H2 & _).
  - apply NoDup_singleton.
  - split; [exact H1|exact H2].
Defined.




(** ** The pool under signals *)

Lemma count_status_nonneg s rs : 0 <= count_status s rs.
Proof. unfold count_status. lia. Qed.

Lemma count_status_valid rs :
  Forall valid_status rs ->
  count_status "success" rs + count_status "failure" rs
  + count_status "skipped" rs = Z.of_nat (length rs).
Proof.
  induction 1 as [|r rs Hr _ IH]; [done|].
  change (r :: rs) with ([r] ++ rs)%list.
  rewrite !count_status_app, length_app, Nat2Z.inj_add, <- IH.
  unfold count_status. cbn [List.filter length].
  destruct Hr as [-> | [-> | ->]]; cbn; lia.
Qed.

Lemma outcomes_valid l : Forall valid_status (outcomes l).
Proof.
  apply List.Forall_forall. intros r Hr.
  apply list_elem_of_In, outcomes_in in Hr as [w Hw].
  by apply worker_status in Hw.
Qed.

Lemma pplay_act sched : forall s, pplay (map Act sched) s = play sched s.
Proof.
  induction sched as [|a sched IH]; intros s; [done|].
  cbn [map pplay play pstep_fn]. destruct (step_fn a s); [apply IH|done].
Qed.

Lemma play_steps sched : forall s s',
  play sched s = Some s' -> steps (length sched) s s'.
Proof.
  induction sched as [|a sched IH]; intros s s' H.
  - injection H as <-. constructor.
  - cbn [play] in H. destruct (step_fn a s) as [s1|] eqn:Ha; [|done].
    cbn [length]. eapply steps_cons; [by exists a|by apply IH].
Qed.

Lemma pplay_app events events' s :
  pplay (events ++ events') s = s1 ← pplay events s; pplay events' s1.
Proof.
  revert s. induction events as [|e events IH]; intros s; [done|].
  cbn [app pplay]. destruct (pstep_fn e s); [apply IH|done].
Qed.

(** Once the sentinels are put the parent's bookkeeping is over. *)
Lemma finished_steady e s s' :
  stage s = Finished -> pstep_fn e s = Some s' ->
  stage s' = Finished /\ stats s' = stats s /\ collected s' = collected s.
Proof.
  intros Hs H. destruct e as [[i|i| |t]|point t|i|i];
    cbn [pstep_fn step_fn] in H; rewrite ?Hs in H; try done.
  - destruct (workers s !! i) as [[|w|]|]; try done.
    destruct (file_queue s) as [|[w|] q]; try done; by injection H as <-.
  - destruct (workers s !! i) as [[|w|]|]; try done.
    destruct (worker_item w); by injection H as <-.
  - destruct (workers s !! i) as [[|w|]|]; try done; by injection H as <-.
  - destruct (workers s !! i) as [[|w|]|]; try done; by injection H as <-.
Qed.

Lemma pplay_finished_steady events : forall s s',
  stage s = Finished -> pplay events s = Some s' ->
  stage s' = Finished /\ stats s' = stats s /\ collected s' = collected s.
Proof.
  induction events as [|e events IH]; intros s s' Hs H.
  - by injection H as <-.
  - cbn [pplay] in H. destruct (pstep_fn e s) as [s1|] eqn:He; [|done].
    destruct (finished_steady _ _ _ Hs He) as (H1 & H2 & H3).
    destruct (IH _ _ H1 H) as (H4 & H5 & H6).
    split; [done|]. split; congruence.
Qed.

(** With no signal a run is one of the pool left alone as
    far as the sentinels; what follows them leaves the bookkeeping as
    it is. *)
Lemma uninterrupted_split events : forall s0 s,
  uninterrupted events -> pplay events s0 = Some s ->
  exists sched rest s1,
    events = (map Act sched ++ rest)%list
    /\ play sched s0 = Some s1 /\ pplay rest s1 = Some s
    /\ (rest = [] \/ stage s1 = Finished).
Proof.
  induction events as [|e events IH]; intros s0 s Hu H.
  - exists [], [], s0. cbn. auto.
  - destruct (stage s0) as [n|] eqn:Hst; cycle 1.
    { exists [], (e :: events), s0. cbn [map app play]. auto. }
    apply Forall_cons in Hu as [He Hu]. cbn [pplay] in H.
    destruct (pstep_fn e s0) as [s2|] eqn:Hs; [|done].
    destruct e as [a|point t|i|i]; [| done | | done].
    + cbn [pstep_fn] in Hs.
      destruct (IH s2 s Hu H) as (sched & rest & s1 & -> & Hp & Hrest & Hor).
      exists (a :: sched), rest, s1. cbn [map app play]. rewrite Hs. auto.
    + cbn [pstep_fn] in Hs. by rewrite Hst in Hs.
Qed.

Lemma uninterrupted_run file_list num_workers now events st :
  uninterrupted events ->
  process_files_signalled file_list num_workers now events = Some st ->
  exists sched rest,
    events = (map Act sched ++ rest)%list
    /\ process_files file_list num_workers now sched = Some st.
Proof.
  unfold process_files_signalled, process_files. intros Hu H.
  destruct (pplay events (init_pool file_list num_workers now)) as [s|]
    eqn:Hp; [|done].
  cbn in H. destruct (stage s) eqn:Hs; [done|]. injection H as <-.
  destruct (uninterrupted_split _ _ _ Hu Hp)
    as (sched & rest & s1 & -> & Hplay & Hrest & [->|Hfin]).
  - injection Hrest as ->. exists sched, []. split; [done|].
    rewrite Hplay. cbn. by rewrite Hs.
  - destruct (pplay_finished_steady _ _ _ Hfin Hrest) as (_ & Hst & _).
    exists sched, rest. split; [done|]. rewrite Hplay. cbn.
    by rewrite Hfin, Hst.
Qed.


Lemma settled_step e s s' :
  settled s -> pstep_fn e s = Some s' ->
  settled s'
  /\ exists i,
       (e = Act (Take i) \/ e = Terminate i \/ e = Leave i)
       /\ workers s !! i = Some Waiting
       /\ workers s' = <[i := Gone]> (workers s)
       /\ S (waiting_count (workers s')) = waiting_count (workers s).
Proof.
  intros (Hs & Hb & Hrq & m & Hq & Hm) H.
  assert (Hgone : forall i, workers s !! i = Some Waiting ->
            busy_items (<[i := Gone]> (workers s)) = []
            /\ S (waiting_count (<[i := Gone]> (workers s)))
               = waiting_count (workers s)).
  { intros i Hw. split.
    - destruct (busy_items_insert (workers s) i _ Gone Hw)
        as (l1 & l2 & E1 & E2).
      rewrite busy_items_single in E1, E2. by rewrite E2, <- E1.
    - pose proof (waiting_count_insert (workers s) i Waiting Gone Hw) as E.
      cbn in E. lia. }
  destruct e as [[i|i| |t]|point t|i|i];
    cbn [pstep_fn step_fn] in H; rewrite ?Hs in H; try done.
  - destruct (workers s !! i) as [[|w|]|] eqn:Hw; try done.
    rewrite Hq in H. destruct m as [|m]; [done|]. cbn in H.
    injection H as <-. destruct (Hgone i Hw) as [Hb' Hc].
    split.
    + split; [done|]. split; [done|]. split; [done|].
      exists m. split; [done|]. pool_fields. lia.
    + exists i. pool_fields. auto.
  - destruct (workers s !! i) as [[|w|]|] eqn:Hw; try done.
    by destruct (busy_items_nil _ _ _ Hb Hw).
  - destruct (workers s !! i) as [[|w|]|] eqn:Hw; try done.
    + injection H as <-. destruct (Hgone i Hw) as [Hb' Hc].
      split.
      * split; [done|]. split; [done|]. split; [done|].
        exists m. split; [done|]. pool_fields. lia.
      * exists i. pool_fields. auto.
    + by destruct (busy_items_nil _ _ _ Hb Hw).
  - destruct (workers s !! i) as [[|w|]|] eqn:Hw; try done.
    injection H as <-. destruct (Hgone i Hw) as [Hb' Hc].
    split.
    + split; [done|]. split; [done|]. split; [done|].
      exists m. split; [done|]. pool_fields. lia.
    + exists i. pool_fields. auto.
Qed.

Lemma settled_play events : forall s s',
  settled s -> pplay events s = Some s' ->
  settled s'
  /\ (length events + waiting_count (workers s')
      = waiting_count (workers s))%nat.
Proof.
  induction events as [|e events IH]; intros s s' Hset H.
  - injection H as <-. done.
  - cbn [pplay] in H. destruct (pstep_fn e s) as [s1|] eqn:He; [|done].
    destruct (settled_step _ _ _ Hset He) as (Hset1 & i & _ & _ & _ & Hc).
    destruct (IH _ _ Hset1 H) as [Hset' Hlen].
    split; [done|]. cbn [length]. lia.
Qed.

Lemma reachable_settled file_list num_workers now s :
  reachable (init_pool file_list num_workers now) s ->
  stage s = Finished -> settled s.
Proof.
  intros Hr Hs. destruct (reachable_shutdown _ _ _ _ Hr Hs) as (Hq & Hb & Hrq).
  split; [done|]. split; [done|]. split; [done|]. by eexists.
Qed.

(** Every state of a run without signals is one of the pool left alone,
    or one that follows the sentinels of such a run. *)
Lemma uninterrupted_state file_list num_workers now events s :
  uninterrupted events ->
  pplay events (init_pool file_list num_workers now) = Some s ->
  exists sched rest s1,
    events = (map Act sched ++ rest)%list
    /\ play sched (init_pool file_list num_workers now) = Some s1
    /\ pplay rest s1 = Some s
    /\ (rest = [] /\ s1 = s
        \/ settled s1 /\ settled s
           /\ stats s = stats s1 /\ collected s = collected s1
           /\ (length rest + waiting_count (workers s)
               = waiting_count (workers s1))%nat).
Proof.
  intros Hu Hp.
  destruct (uninterrupted_split _ _ _ Hu Hp)
    as (sched & rest & s1 & -> & Hplay & Hrest & Hor).
  exists sched, rest, s1. split; [done|]. split; [done|]. split; [done|].
  destruct Hor as [->|Hfin].
  - injection Hrest as ->. by left.
  - right.
    pose proof (reachable_settled _ _ _ _ (play_reachable _ _ _ Hplay) Hfin)
      as Hset1.
    destruct (settled_play _ _ _ Hset1 Hrest) as [Hset Hlen].
    destruct (pplay_finished_steady _ _ _ Hfin Hrest) as (_ & H1 & H2).
    done.
Qed.


Lemma count_status_snoc s rs r :
  count_status s (rs ++ [r])%list
  = count_status s rs + count_status s [r].
Proof. apply count_status_app. Qed.

Lemma count_status_one s r : 0 <= count_status s [r] <= 1.
Proof.
  unfold count_status. cbn [List.filter].
  destruct (String.eqb (status r) s); cbn; lia.
Qed.

Lemma count_status_submseteq s (l1 l2 : list result) :
  l1 ⊆+ l2 -> count_status s l1 <= count_status s l2.
Proof.
  induction 1 as [|x l1 l2 _ IH|x y l|x l1 l2 _ IH|l1 l2 l3 _ IH1 _ IH2].
  - done.
  - change (x :: l1) with ([x] ++ l1)%list.
    change (x :: l2) with ([x] ++ l2)%list.
    rewrite !count_status_app. lia.
  - change (y :: x :: l) with ([y] ++ [x] ++ l)%list.
    change (x :: y :: l) with ([x] ++ [y] ++ l)%list.
    rewrite !count_status_app. lia.
  - change (x :: l2) with ([x] ++ l2)%list. rewrite count_status_app.
    pose proof (count_status_one s x). lia.
  - lia.
Qed.

Lemma measured_snoc (rs : list result) r :
  map time (List.filter measured (rs ++ [r]))
  = (map time (List.filter measured rs)
     ++ (if measured r then [time r] else []))%list.
Proof.
  rewrite List.filter_app, map_app. cbn [List.filter].
  by destruct (measured r).
Qed.

Lemma init_signalled_inv file_list num_workers now :
  signalled_inv file_list now (init_pool file_list num_workers now).
Proof.
  unfold init_pool. split; unfold remaining, count_status; pool_fields;
    cbn; try lia; try done.
  rewrite busy_items_replicate_waiting, queued_map_Some. done.
Qed.

Lemma collect_keeps_signalled_inv file_list now fq rq ws n st col r st' :
  signalled_inv file_list now
    (mkPool fq (r :: rq) ws (Collecting (S n)) st col) ->
  (st' = collect_result st r
   \/ exists point, st' = partial_collect point st r) ->
  forall stage',
    (remaining (mkPool fq rq ws stage' st' (col ++ [r])%list) <= n)%nat ->
  forall fq', queued fq' = queued fq ->
  signalled_inv file_list now (mkPool fq' rq ws stage' st' (col ++ [r])%list).
Proof.
  intros [Hacc Hcnt Htot Hstart [Hsum Hproc] Hs Hf Hk Ht] Hst stage' Hrem
    fq' Hq.
  unfold remaining in *. pool_fields.
  pose proof (collect_result_fields st r)
    as (G1 & G2 & G3 & G4 & G5 & G6 & G7).
  pose proof (collect_result_times st r) as G8.
  pose proof (count_status_one "success" r).
  pose proof (count_status_one "failure" r).
  pose proof (count_status_one "skipped" r).
  assert (Hone : count_status "success" [r] + count_status "failure" [r]
                 + count_status "skipped" [r] <= 1).
  { unfold count_status. cbn [List.filter].
    destruct (String.eqb_spec (status r) "success") as [->|];
      [cbn; lia|].
    destruct (String.eqb_spec (status r) "failure") as [->|];
      [cbn; lia|].
    destruct (String.eqb (status r) "skipped"); cbn; lia. }
  split; unfold remaining; pool_fields;
    rewrite ?Hq, ?count_status_snoc, ?measured_snoc, ?length_app;
    cbn [length].
  - etrans; [|exact Hacc]. apply Permutation_submseteq.
    solve_Permutation.
  - lia.
  - destruct Hst as [->|[[] ->]]; cbn; congruence.
  - destruct Hst as [->|[[] ->]]; cbn; congruence.
  - destruct Hst as [->|[[] ->]]; cbn; lia.
  - destruct Hst as [->|[[] ->]]; cbn; lia.
  - destruct Hst as [->|[[] ->]]; cbn; lia.
  - destruct Hst as [->|[[] ->]]; cbn; lia.
  - destruct Hst as [->|[[] ->]]; cbn [partial_collect processing_times];
      rewrite ?G8; try (by apply sublist_inserts_r).
    by apply sublist_app.
Qed.

Lemma shut_down_signalled_inv file_list now t s :
  signalled_inv file_list now s ->
  signalled_inv file_list now (shut_down t s).
Proof.
  intros [Hacc Hcnt Htot Hstart Hproc Hs Hf Hk Ht].
  unfold shut_down. split; unfold remaining in *; pool_fields;
    rewrite ?queued_sentinels; cbn; try done.
  destruct (stage s); lia.
Qed.

Lemma pstep_signalled_inv file_list now e s s' :
  signalled_inv file_list now s -> pstep_fn e s = Some s' ->
  signalled_inv file_list now s'.
Proof.
  intros Hinv H.
  destruct e as [[i|i| |t]|point t|i|i]; cbn [pstep_fn step_fn] in H.
  - destruct Hinv as [Hacc Hcnt Htot Hstart Hproc Hs Hf Hk Ht].
    destruct s as [fq rq ws st sts col]. unfold remaining in *. pool_fields.
    destruct (ws !! i) as [[|w|]|] eqn:Hw; try done.
    destruct fq as [|[w|] q]; try done; injection H as <-;
      split; unfold remaining; pool_fields; try done.
    + destruct (busy_items_insert ws i _ (Busy w) Hw) as (l1 & l2 & E1 & E2).
      rewrite busy_items_single in E1, E2.
      rewrite queued_cons_Some in Hacc. etrans; [|exact Hacc].
      apply Permutation_submseteq.
      rewrite E1, E2. rewrite !outcomes_app.
      rewrite (outcomes_cons w (queued q)). solve_Permutation.
    + destruct (busy_items_insert ws i _ Gone Hw) as (l1 & l2 & E1 & E2).
      rewrite busy_items_single in E1, E2.
      rewrite queued_cons_None in Hacc. by rewrite E2, <- E1.
  - destruct Hinv as [Hacc Hcnt Htot Hstart Hproc Hs Hf Hk Ht].
    destruct s as [fq rq ws st sts col]. unfold remaining in *. pool_fields.
    destruct (ws !! i) as [[|w|]|] eqn:Hw; try done.
    destruct (worker_item w) as [r|e] eqn:Hr; injection H as <-;
      split; unfold remaining; pool_fields; try done.
    + destruct (busy_items_insert ws i _ Waiting Hw) as (l1 & l2 & E1 & E2).
      rewrite busy_items_single in E1, E2. etrans; [|exact Hacc].
      apply Permutation_submseteq.
      rewrite E1, E2. rewrite !outcomes_app.
      rewrite (outcomes_cons_ret w r [] Hr). solve_Permutation.
    + destruct (busy_items_insert ws i _ Gone Hw) as (l1 & l2 & E1 & E2).
      rewrite busy_items_single in E1, E2. etrans; [|exact Hacc].
      rewrite E1, E2. rewrite !outcomes_app.
      by rewrite (outcomes_cons_raise w e [] Hr).
  - destruct s as [fq rq ws st sts col]. pool_fields.
    destruct st as [[|n]|]; try done. destruct rq as [|r rq]; try done.
    injection H as <-.
    eapply collect_keeps_signalled_inv; [exact Hinv|by left| |done].
    unfold remaining. cbn. lia.
  - destruct (stage s) as [[|n]|] eqn:Hst; try done. injection H as <-.
    by apply (shut_down_signalled_inv _ _ t) in Hinv.
  - destruct (stage s) as [[|n]|] eqn:Hst; try done.
    destruct point.
    + injection H as <-. by apply shut_down_signalled_inv.
    + destruct (result_queue s) as [|r rq] eqn:Hrq; [done|].
      injection H as <-. apply shut_down_signalled_inv.
      destruct s as [fq rq0 ws st sts col]. pool_fields. subst.
      eapply collect_keeps_signalled_inv;
        [exact Hinv|right; by exists RecordTaken| |done].
      unfold remaining. cbn. lia.
    + destruct (result_queue s) as [|r rq] eqn:Hrq; [done|].
      injection H as <-. apply shut_down_signalled_inv.
      destruct s as [fq rq0 ws st sts col]. pool_fields. subst.
      eapply collect_keeps_signalled_inv;
        [exact Hinv|right; by exists CountedProcessed| |done].
      unfold remaining. cbn. lia.
    + destruct (result_queue s) as [|r rq] eqn:Hrq; [done|].
      injection H as <-. apply shut_down_signalled_inv.
      destruct s as [fq rq0 ws st sts col]. pool_fields. subst.
      eapply collect_keeps_signalled_inv;
        [exact Hinv|right; by exists CountedStatus| |done].
      unfold remaining. cbn. lia.
  - destruct Hinv as [Hacc Hcnt Htot Hstart Hproc Hs Hf Hk Ht].
    destruct s as [fq rq ws st sts col]. unfold remaining in *. pool_fields.
    destruct st as [|]; [done|].
    destruct (ws !! i) as [[|w|]|] eqn:Hw; try done; injection H as <-;
      split; unfold remaining; pool_fields; try done;
      destruct (busy_items_insert ws i _ Gone Hw) as (l1 & l2 & E1 & E2);
      rewrite busy_items_single in E1, E2; (etrans; [|exact Hacc]);
      rewrite E1, E2; rewrite !outcomes_app; [done|].
    repeat (apply submseteq_app; [done|]).
    apply submseteq_app; [|done]. apply submseteq_app; [done|].
    apply submseteq_app; [|done]. apply submseteq_nil_l.
  - destruct Hinv as [Hacc Hcnt Htot Hstart Hproc Hs Hf Hk Ht].
    destruct s as [fq rq ws st sts col]. unfold remaining in *. pool_fields.
    destruct (ws !! i) as [[|w|]|] eqn:Hw; try done. injection H as <-.
    split; unfold remaining; pool_fields; try done.
    destruct (busy_items_insert ws i _ Gone Hw) as (l1 & l2 & E1 & E2).
    rewrite busy_items_single in E1, E2. by rewrite E2, <- E1.
Qed.

Lemma pplay_signalled_inv file_list now events : forall s s',
  signalled_inv file_list now s -> pplay events s = Some s' ->
  signalled_inv file_list now s'.
Proof.
  induction events as [|e events IH]; intros s s' Hinv H.
  - by injection H as <-.
  - cbn [pplay] in H. destruct (pstep_fn e s) as [s1|] eqn:Hs; [|done].
    eapply IH; [|done]. by eapply pstep_signalled_inv.
Qed.

Lemma measured_submseteq (l1 l2 : list result) :
  l1 ⊆+ l2 ->
  map time (List.filter measured l1) ⊆+ map time (List.filter measured l2).
Proof.
  induction 1 as [|x l1 l2 _ IH|x y l|x l1 l2 _ IH|l1 l2 l3 _ IH1 _ IH2];
    cbn [List.filter].
  - done.
  - destruct (measured x); cbn [map]; [by apply submseteq_skip|done].
  - destruct (measured x), (measured y); cbn [map]; try done.
    apply submseteq_swap.
  - destruct (measured x); cbn [map]; [by apply submseteq_cons|done].
  - by etrans.
Qed.

Lemma signalled_run_inv file_list num_workers now events st :
  process_files_signalled file_list num_workers now events = Some st ->
  exists s,
    pplay events (init_pool file_list num_workers now) = Some s
    /\ stage s = Finished /\ stats s = st
    /\ signalled_inv file_list now s.
Proof.
  unfold process_files_signalled. intros H.
  destruct (pplay events (init_pool file_list num_workers now)) as [s|]
    eqn:Hp; [|done].
  cbn in H. destruct (stage s) eqn:Hs; [done|]. injection H as <-.
  exists s. split; [done|]. split; [done|]. split; [done|].
  eapply pplay_signalled_inv; [apply init_signalled_inv|done].
Qed.

(** No item is counted twice, whatever happens to the run. *)
Lemma signalled_run_counts file_list num_workers now events st :
  process_files_signalled file_list num_workers now events = Some st ->
  total_files st = Z.of_nat (length file_list)
  /\ start_time st = now
  /\ successful_files st + failed_files st + skipped_files st
     <= processed_files st
  /\ processed_files st <= Z.of_nat (length file_list)
  /\ 0 <= successful_files st
       <= count_status "success" (outcomes file_list)
  /\ 0 <= failed_files st <= count_status "failure" (outcomes file_list)
  /\ 0 <= skipped_files st <= count_status "skipped" (outcomes file_list)
  /\ processing_times st
     ⊆+ map time (List.filter measured (outcomes file_list)).
Proof.
  intros H.
  destruct (signalled_run_inv _ _ _ _ _ H) as (s & _ & Hs & <- & Hinv).
  destruct Hinv as [Hacc Hcnt Htot Hstart [Hsum Hproc] Hsu Hfa Hsk Ht].
  assert (Hcol : collected s ⊆+ outcomes file_list).
  { etrans; [|exact Hacc]. by apply submseteq_inserts_r. }
  pose proof (count_status_submseteq "success" _ _ Hcol).
  pose proof (count_status_submseteq "failure" _ _ Hcol).
  pose proof (count_status_submseteq "skipped" _ _ Hcol).
  repeat split; try done; try lia.
  etrans; [by apply sublist_submseteq|]. by apply measured_submseteq.
Qed.

Lemma measure_init_pool file_list num_workers now :
  measure (init_pool file_list num_workers now)
  = (4 * length file_list + 3 * Z.to_nat num_workers + 1)%nat.
Proof.
  unfold init_pool, measure, remaining, busy_count.
  cbn [file_queue result_queue workers stage].
  rewrite length_map, length_replicate.
  replace (List.filter _ (replicate _ Waiting)) with (@nil wstate).
  - simpl. lia.
  - induction (Z.to_nat num_workers); [done|]. simpl. done.
Qed.

Lemma settled_measure s :
  settled s -> (waiting_count (workers s) <= measure s)%nat.
Proof.
  intros (Hs & Hb & Hrq & m & Hq & Hm). unfold measure.
  rewrite Hq, length_replicate. lia.
Qed.

(** C1.  A pool of at least one worker over [file_list], none of whose
    items costs a worker, in a run in which no signal reaches the
    parent or a waiting worker: the run is finite, the parent is never
    stuck before it has finished, and when it has, the records it took
    are exactly the workers' records of the items, one for each, with
    [processed_files] and [successful_files + failed_files +
    skipped_files] both equal to the number of items; some such run
    makes [process_files] return, and whatever such a run returns has
    these counts.  In every run that
    returns, with signals and terminations or without, no item is
    counted twice: [processed_files] is at most the number of items and
    no counter exceeds the number of the items' records of its status. *)
Theorem pool_collects_every_item file_list num_workers now :
  let s0 := init_pool file_list num_workers now in
  let N := length file_list in
  (1 <= num_workers -> Forall survives file_list ->
   (forall events s, uninterrupted events -> pplay events s0 = Some s ->
      (length events <= 4 * N + 3 * Z.to_nat num_workers + 1)%nat)
   /\ (forall events s, uninterrupted events -> pplay events s0 = Some s ->
         stage s <> Finished -> exists a s', pstep_fn (Act a) s = Some s')
   /\ (forall events s, uninterrupted events -> pplay events s0 = Some s ->
         stage s = Finished ->
         collected s ≡ₚ outcomes file_list
         /\ length (outcomes file_list) = N
         /\ processed_files (stats s) = Z.of_nat N
         /\ total_files (stats s) = Z.of_nat N
         /\ successful_files (stats s) + failed_files (stats s)
            + skipped_files (stats s) = Z.of_nat N)
   /\ (exists events st,
         uninterrupted events
         /\ (forall i, ~ In (Terminate i) events)
         /\ process_files_signalled file_list num_workers now events
            = Some st)
   /\ (forall events st,
         uninterrupted events ->
         process_files_signalled file_list num_workers now events = Some st ->
         processed_files st = Z.of_nat N
         /\ successful_files st + failed_files st + skipped_files st
            = Z.of_nat N))
  /\ (forall events st,
        process_files_signalled file_list num_workers now events = Some st ->
        processed_files st <= Z.of_nat N
        /\ successful_files st + failed_files st + skipped_files st
           <= processed_files st
        /\ successful_files st
           <= count_status "success" (outcomes file_list)
        /\ failed_files st <= count_status "failure" (outcomes file_list)
        /\ skipped_files st
           <= count_status "skipped" (outcomes file_list)).
Proof.
  intros s0 N. split.
  - intros Hw Hfl.
    assert (Hend : forall s, reachable s0 s -> stage s = Finished ->
              collected s ≡ₚ outcomes file_list
              /\ length (outcomes file_list) = N
              /\ processed_files (stats s) = Z.of_nat N
              /\ total_files (stats s) = Z.of_nat N
              /\ successful_files (stats s) + failed_files (stats s)
                 + skipped_files (stats s) = Z.of_nat N).
    { intros s Hr Hs.
      pose proof (reachable_pool_inv _ _ _ _ Hfl Hr) as Hinv.
      destruct (pool_finished _ _ _ Hfl Hinv Hs) as (P & A & B & C).
      repeat split; try done. by apply outcomes_length. }
    split; [|split; [|split; [|split]]].
    + intros events s Hu Hp.
      destruct (uninterrupted_state _ _ _ _ _ Hu Hp)
        as (sched & rest & s1 & -> & Hplay & _ & Hor).
      pose proof (steps_measure _ _ _ (play_steps _ _ _ Hplay)) as Hm.
      rewrite measure_init_pool in Hm. fold N in Hm.
      rewrite length_app, length_map.
      destruct Hor as [[-> _]|(Hset1 & _ & _ & _ & Hlen)]; [cbn; lia|].
      apply settled_measure in Hset1. lia.
    + intros events s Hu Hp Hst.
      destruct (uninterrupted_state _ _ _ _ _ Hu Hp)
        as (sched & rest & s1 & -> & Hplay & _ & Hor).
      destruct Hor as [[_ ->]|((_ & _) & (Hfin & _) & _)]; [|done].
      destruct (pool_progress file_list (Z.to_nat num_workers) s)
        as [s' [a Ha]]; try done; [lia| |by exists a, s'].
      apply (reachable_pool_inv _ _ now); [done|].
      by apply (play_reachable sched).
    + intros events s Hu Hp Hst.
      destruct (uninterrupted_state _ _ _ _ _ Hu Hp)
        as (sched & rest & s1 & -> & Hplay & _ & Hor).
      destruct Hor as [[_ ->]|((Hfin & _) & _ & -> & -> & _)].
      * exact (Hend s (play_reachable _ _ _ Hplay) Hst).
      * exact (Hend s1 (play_reachable _ _ _ Hplay) Hfin).
    + destruct (run_completes file_list (Z.to_nat num_workers)
                  ltac:(lia) Hfl (measure s0) s0 ltac:(lia)
                  (init_pool_inv _ _ now Hfl))
        as (sched & s' & Hplay & Hfin).
      exists (map Act sched), (stats s'). split; [|split].
      * apply List.Forall_forall. intros e He.
        apply in_map_iff in He as (a & <- & _). done.
      * intros i Hi. apply in_map_iff in Hi as (a & Ha & _). done.
      * unfold process_files_signalled. fold s0. rewrite pplay_act, Hplay.
        cbn. by rewrite Hfin.
    + intros events st Hu Hrun.
      destruct (uninterrupted_run _ _ _ _ _ Hu Hrun) as (sched & _ & _ & Hs).
      unfold process_files in Hs. fold s0 in Hs.
      destruct (play sched s0) as [s|] eqn:Hplay; [|done]. cbn in Hs.
      destruct (stage s) eqn:Hst; [done|]. injection Hs as <-.
      destruct (Hend s (play_reachable _ _ _ Hplay) Hst)
        as (_ & _ & H1 & _ & H2).
      by split.
  - intros events st Hrun.
    destruct (signalled_run_counts _ _ _ _ _ Hrun)
      as (_ & _ & Hsum & Hp & Hs & Hf & Hk & _).
    repeat split; try done; lia.
Qed.

Lemma pool_collects_every_item_witness :
  let t := F.of_int 3 in
  let file_list :=
    [ mkItem "2208.00001.gz" (mkRun None (Ret true) F.zero t);
      mkItem "2208.00002.pdf" (mkRun None (Ret true) F.zero t);
      mkItem "2208.00003.gz"
             (mkRun None (Raise (OtherException "timeout")) F.zero t) ] in
  let events :=
    (map Act [ Take 0; Take 1; Finish 1; Collect; Take 1; Finish 0;
               Finish 1; Collect; Collect; Shutdown (F.of_int 9);
               Take 0 ]%nat
     ++ [Terminate 1%nat])%list in
  1 <= 2 /\ Forall survives file_list /\ uninterrupted events
  /\ exists st,
       process_files_signalled file_list 2 F.zero events = Some st
       /\ successful_files st + failed_files st + skipped_files st = 3.
Proof.
  intros t file_list events.
  assert (Hw : 1 <= 2) by lia.
  assert (Hfl : Forall survives file_list)
    by (repeat constructor; eexists; reflexivity).
  assert (Hu : uninterrupted events) by (repeat constructor).
  assert (Hrun : process_files_signalled file_list 2 F.zero events
                 = Some (mkStats 3 3 1 1 1 F.zero (F.of_int 9) [t; t]))
    by (vm_compute; reflexivity).
  split; [exact Hw|]. split; [exact Hfl|]. split; [exact Hu|].
  eexists. split; [exact Hrun|].
  destruct (pool_collects_every_item file_list 2 F.zero)
    as [Hcalm _].
  destruct (Hcalm Hw Hfl) as (_ & _ & _ & _ & Hret).
  exact (proj2 (Hret _ _ Hu Hrun)).
Defined.

(** C1 (the claim as it stands).  No worker is terminated in any of
    these runs.  In the first the converter raises [SystemExit]: the
    worker leaves its loop by its own [break], and [process_files]
    returns under no schedule that spares the parent a signal.  In the
    second a signal reaches the parent while it waits for its one
    record: the worker still converts the item and leaves on its
    sentinel, and [process_files] returns statistics that count
    nothing.  In the third a signal reaches the one worker while it
    waits for its first item: it leaves, and [process_files] does not
    return unless the parent is interrupted as well. *)
Lemma outcomes_missing_without_termination :
  let t := F.of_int 3 in
  let lost :=
    mkItem "2208.00001.gz" (mkRun None (Raise SystemExit) F.zero t) in
  let kept := mkItem "2208.00002.gz" (mkRun None (Ret true) F.zero t) in
  let events :=
    [Interrupt AtGet (F.of_int 1); Act (Take O); Act (Finish O);
     Act (Take O)] in
  (workers
     <$> pplay [Act (Take O); Act (Finish O)] (init_pool [lost] 1 F.zero))
  = Some [Gone]
  /\ (forall events, uninterrupted events ->
        process_files_signalled [lost] 1 F.zero events = None)
  /\ (workers <$> pplay events (init_pool [kept] 1 F.zero)) = Some [Gone]
  /\ process_files_signalled [kept] 1 F.zero events
     = Some (mkStats 1 0 0 0 0 F.zero (F.of_int 1) [])
  /\ (forall events,
        Forall (fun e => forall point now, e <> Interrupt point now) events ->
        process_files_signalled [kept] 1 F.zero (Leave O :: events) = None)
  /\ ~ (forall file_list num_workers now events st,
          1 <= num_workers ->
          (forall i, ~ In (Terminate i) events) ->
          process_files_signalled file_list num_workers now events = Some st ->
          successful_files st + failed_files st + skipped_files st
          = Z.of_nat (length file_list)).
Proof.
  intros t lost kept events.
  assert (Hrun : process_files_signalled [kept] 1 F.zero events
                 = Some (mkStats 1 0 0 0 0 F.zero (F.of_int 1) []))
    by (vm_compute; reflexivity).
  split; [vm_compute; reflexivity|]. split; [|split; [|split; [|split]]].
  - intros evs Hu.
    destruct (process_files_signalled [lost] 1 F.zero evs) as [st|] eqn:H;
      [|done].
    destruct (uninterrupted_run _ _ _ _ _ Hu H) as (sched & _ & _ & Hs).
    rewrite (proj2 (lost_item_blocks_every_run [lost] 1 F.zero
                      ltac:(intros Hall;
                            apply Forall_cons in Hall as [[r Hr] _];
                            vm_compute in Hr; discriminate Hr))) in Hs.
    done.
  - vm_compute. reflexivity.
  - exact Hrun.
  - intros evs Hno. unfold process_files_signalled.
    destruct evs as [|e evs]; [done|].
    apply Forall_cons in Hno as [He _].
    destruct e as [[i|i| |now]|point now|i|i].
    + destruct i as [|[|i]]; done.
    + destruct i as [|[|i]]; done.
    + done.
    + done.
    + by destruct (He point now).
    + destruct i as [|[|i]]; done.
    + destruct i as [|[|i]]; done.
  - intros Hall.
    specialize (Hall [kept] 1 F.zero events _ ltac:(lia)
                  ltac:(intros i [H|[H|[H|[H|[]]]]]; discriminate H) Hrun).
    vm_compute in Hall. discriminate Hall.
Qed.

(** X10.  The statistics [process_files] returns do not depend on the
    schedule, on the number of workers or on a termination after the
    sentinels: whenever it returns from a run in which no signal
    reached the parent or a waiting worker, the counters are the
    numbers of records of each status that the items give, every item
    is counted as processed, and the durations are those of the
    measured records.  After a signal the statistics can fall short of
    these and never exceed them. *)
Theorem statistics_independent_of_schedule
    file_list num_workers now events st :
  process_files_signalled file_list num_workers now events = Some st ->
  let N := Z.of_nat (length file_list) in
  let rs := outcomes file_list in
  (uninterrupted events ->
   total_files st = N /\ processed_files st = N
   /\ successful_files st = count_status "success" rs
   /\ failed_files st = count_status "failure" rs
   /\ skipped_files st = count_status "skipped" rs
   /\ start_time st = now
   /\ processing_times st ≡ₚ map time (List.filter measured rs))
  /\ total_files st = N /\ start_time st = now
  /\ successful_files st + failed_files st + skipped_files st
     <= processed_files st <= N
  /\ 0 <= successful_files st <= count_status "success" rs
  /\ 0 <= failed_files st <= count_status "failure" rs
  /\ 0 <= skipped_files st <= count_status "skipped" rs
  /\ processing_times st ⊆+ map time (List.filter measured rs).
Proof.
  intros H N rs. split.
  - intros Hu.
    destruct (uninterrupted_run _ _ _ _ _ Hu H) as (sched & _ & _ & Hs).
    exact (left_alone_statistics _ _ _ _ _ Hs).
  - destruct (signalled_run_counts _ _ _ _ _ H)
      as (H1 & H2 & H3 & H4 & H5 & H6 & H7 & H8).
    done.
Qed.

Lemma statistics_independent_of_schedule_witness :
  let t := F.of_int 3 in
  let file_list :=
    [ mkItem "2208.00001.gz" (mkRun None (Ret true) F.zero t);
      mkItem "2208.00002.pdf" (mkRun None (Ret true) F.zero t);
      mkItem "2208.00003.gz"
             (mkRun None (Raise (OtherException "timeout")) F.zero t) ] in
  let events :=
    [ Act (Take 0); Act (Take 1); Act (Finish 1); Act Collect; Act (Take 1);
      Act (Finish 0); Interrupt CountedProcessed (F.of_int 9);
      Act (Take 0); Terminate 1 ]%nat in
  exists st,
    process_files_signalled file_list 2 F.zero events = Some st
    /\ processed_files st = 2 /\ skipped_files st = 1
    /\ successful_files st <= count_status "success" (outcomes file_list)
    /\ failed_files st <= count_status "failure" (outcomes file_list).
Proof.
  intros t file_list events.
  assert (H : process_files_signalled file_list 2 F.zero events
              = Some (mkStats 3 2 0 0 1 F.zero (F.of_int 9) [])).
  { vm_compute. reflexivity. }
  eexists. split; [exact H|].
  destruct (statistics_independent_of_schedule _ _ _ _ _ H)
    as (_ & _ & _ & _ & H1 & H2 & _).
  split; [reflexivity|]. split; [reflexivity|].
  split; [exact (proj2 H1)|exact (proj2 H2)].
Defined.

Lemma calm_events events :
  uninterrupted events -> (forall i, ~ In (Terminate i) events) ->
  exists sched, events = map Act sched.
Proof.
  induction events as [|e events IH]; intros Hu Hno; [by exists []|].
  apply Forall_cons in Hu as [He Hu].
  destruct IH as [sched ->]; [done|by intros i Hi; apply (Hno i); right|].
  destruct e as [a|point t|i|i]; [by exists (a :: sched)|done| |done].
  destruct (Hno i). by left.
Qed.

(** X12.  The end of a run in which no signal has reached the parent
    or a waiting worker.  Once the parent has put the sentinels, no
    worker holds an item, the result queue is empty and the task queue
    holds sentinels only, one at least for each worker that waits and
    exactly one if none was terminated; whatever still happens is a
    waiting worker that takes its sentinel, is terminated or leaves on
    a signal, it has left its loop afterwards and the statistics are as
    they were; a worker that waits can take its sentinel; and when
    nothing moves any more every worker has gone, and the task queue is
    empty if none was terminated.  After a signal to the parent a
    worker can hold an item when the sentinels are put. *)
Theorem pool_shuts_down_cleanly file_list num_workers now :
  (forall events s,
     uninterrupted events ->
     pplay events (init_pool file_list num_workers now) = Some s ->
     stage s = Finished ->
     busy_items (workers s) = [] /\ result_queue s = []
     /\ (exists m, file_queue s = replicate m None
                   /\ (waiting_count (workers s) <= m)%nat)
     /\ ((forall i, ~ In (Terminate i) events) ->
         file_queue s = replicate (waiting_count (workers s)) None)
     /\ (forall e s', pstep_fn e s = Some s' ->
           exists i, (e = Act (Take i) \/ e = Terminate i \/ e = Leave i)
                     /\ workers s !! i = Some Waiting
                     /\ workers s' = <[i := Gone]> (workers s)
                     /\ stage s' = Finished /\ stats s' = stats s)
     /\ (forall i, workers s !! i = Some Waiting ->
           exists s', pstep_fn (Act (Take i)) s = Some s')
     /\ ((forall e, pstep_fn e s = None) ->
         Forall (fun w => w = Gone) (workers s)
         /\ ((forall i, ~ In (Terminate i) events) -> file_queue s = [])))
  /\ (forall w l t, file_list = w :: l -> 1 <= num_workers ->
        exists s,
          pplay [Act (Take O); Interrupt AtGet t]
                (init_pool file_list num_workers now) = Some s
          /\ stage s = Finished /\ workers s !! O = Some (Busy w)).
Proof.
  split.
  - intros events s Hu Hp Hs.
    assert (Hset : settled s).
    { destruct (uninterrupted_state _ _ _ _ _ Hu Hp)
        as (sched & rest & s1 & _ & Hplay & _ & [[_ ->]|(_ & Hset & _)]);
        [|done].
      exact (reachable_settled _ _ _ _ (play_reachable _ _ _ Hplay) Hs). }
    assert (Hexact : (forall i, ~ In (Terminate i) events) ->
              file_queue s = replicate (waiting_count (workers s)) None).
    { intros Hno. destruct (calm_events _ Hu Hno) as [sched ->].
      rewrite pplay_act in Hp.
      by destruct (reachable_shutdown _ _ _ _ (play_reachable _ _ _ Hp) Hs). }
    pose proof Hset as (_ & Hb & Hrq & m & Hq & Hm).
    split; [done|]. split; [done|]. split; [by exists m|].
    split; [done|]. split; [|split].
    + intros e s' He.
      destruct (settled_step _ _ _ Hset He) as (_ & i & H1 & H2 & H3 & _).
      destruct (finished_steady _ _ _ Hs He) as (H4 & H5 & _).
      by exists i.
    + intros i Hi. cbn [pstep_fn step_fn]. rewrite Hi, Hq.
      destruct m as [|m]; [|by eexists].
      pose proof (waiting_count_insert (workers s) i Waiting Gone Hi) as E.
      cbn in E. lia.
    + intros Hstill.
      assert (Hwc : waiting_count (workers s) = O).
      { destruct (waiting_count (workers s)) as [|k] eqn:Hk; [done|].
        destruct (waiting_count_pos (workers s)) as [i Hi]; [lia|].
        specialize (Hstill (Terminate i)). cbn [pstep_fn] in Hstill.
        by rewrite Hs, Hi in Hstill. }
      split; [by apply all_gone|].
      intros Hno. rewrite (Hexact Hno), Hwc. done.
  - intros w l t -> Hw.
    destruct (Z.to_nat num_workers) as [|k] eqn:Hk; [lia|].
    unfold init_pool. rewrite Hk. cbn. eexists. split; [reflexivity|]. done.
Qed.

Lemma pool_shuts_down_cleanly_witness :
  let t := F.of_int 3 in
  let file_list :=
    [ mkItem "2208.00001.gz" (mkRun None (Ret true) F.zero t) ] in
  let events :=
    [ Act (Take 0); Act (Finish 0); Act Collect; Act (Shutdown (F.of_int 9));
      Terminate 1 ]%nat in
  uninterrupted events
  /\ exists s,
       pplay events (init_pool file_list 2 F.zero) = Some s
       /\ workers s = [Waiting; Gone]
       /\ file_queue s = [None; None]
       /\ busy_items (workers s) = [] /\ result_queue s = []
       /\ exists s', pstep_fn (Act (Take O)) s = Some s'.
Proof.
  intros t file_list events.
  assert (Hu : uninterrupted events) by (repeat constructor).
  assert (Hp : pplay events (init_pool file_list 2 F.zero)
               = Some (mkPool [None; None] [] [Waiting; Gone] Finished
                         (mkStats 1 1 1 0 0 F.zero (F.of_int 9) [t])
                         [mkResult "2208.00001.gz" "success" t]))
    by (vm_compute; reflexivity).
  split; [exact Hu|]. eexists. split; [exact Hp|].
  split; [reflexivity|]. split; [reflexivity|].
  destruct (pool_shuts_down_cleanly file_list 2 F.zero) as [Hcalm _].
  destruct (Hcalm _ _ Hu Hp eq_refl) as (Hb & Hrq & _ & _ & _ & Htake & _).
  split; [exact Hb|]. split; [exact Hrq|]. exact (Htake O eq_refl).
Defined.

(** ** The report of a run *)

Section RunReport.

Variable py_sum : list float -> float.
Variable np_median : list float -> float.
Variable np_percentile : list float -> Z -> float.

Lemma metrics_total (st : ProcessingStats) :
  (exists r, average_time py_sum st = Ret r)
  /\ (exists r, median_time np_median st = Ret r)
  /\ (exists r, max_time st = Ret r)
  /\ (exists r, min_time st = Ret r)
  /\ (exists r, middle_80_percent_time_range np_percentile st = Ret r).
Proof.
  unfold average_time, median_time, max_time, min_time,
    middle_80_percent_time_range, F.div_int.
  destruct (processing_times st) as [|t l]; cbn [is_empty py_max py_min].
  - repeat split; eexists; reflexivity.
  - split; [|repeat split; try (eexists; reflexivity)].
    + destruct (Z.eqb_spec (Z.of_nat (length (t :: l))) 0) as [E|E];
        [cbn [length] in E; lia|by eexists].
    + destruct (length (t :: l) <? 2)%nat; eexists; reflexivity.
Qed.

Lemma report_total now (st : ProcessingStats) :
  0 <= successful_files st -> 0 <= failed_files st ->
  (exists rows,
     generate_csv_report py_sum np_median np_percentile now st = Ret rows
     /\ length rows = 12%nat)
  /\ exists lines,
       print_summary py_sum np_median np_percentile now st = Ret lines.
Proof.
  intros Hs Hf.
  destruct (metrics_total st)
    as ([avg Ha] & [med Hm] & [hi Hh] & [lo Hl] & [range Hr]).
  destruct (success_rate_total st Hs Hf) as [rate Hrate].
  unfold generate_csv_report, print_summary.
  rewrite Ha, Hm, Hh, Hl, Hr, Hrate. cbn [mbind py_bind Py.bind].
  split; [by eexists|].
  destruct (is_empty (processing_times st)); by eexists.
Qed.

(** X20.  The report of a run.  Whatever the schedule, the items, the
    signals and the terminations, the statistics [process_files]
    returns have counters that are not negative and add up to at most
    the number of files, and to that number if no signal reached the
    parent or a waiting worker; on them neither the summary nor the CSV
    report raises: no division by zero, no maximum of an empty list;
    the report has its twelve rows. *)
Theorem report_of_a_run_is_produced
    file_list num_workers now events st later :
  process_files_signalled file_list num_workers now events = Some st ->
  0 <= successful_files st /\ 0 <= failed_files st /\ 0 <= skipped_files st
  /\ successful_files st + failed_files st + skipped_files st
     <= total_files st
  /\ (uninterrupted events ->
      successful_files st + failed_files st + skipped_files st
      = total_files st)
  /\ (exists lines,
        print_summary py_sum np_median np_percentile later st = Ret lines)
  /\ exists rows,
       generate_csv_report py_sum np_median np_percentile later st = Ret rows
       /\ length rows = 12%nat.
Proof.
  intros H.
  destruct (signalled_run_counts _ _ _ _ _ H)
    as (Htot & _ & Hsum & Hp & Hs & Hf & Hk & _).
  destruct (report_total later st)
    as [Hrows Hlines]; [lia|lia|].
  split; [lia|]. split; [lia|]. split; [lia|]. split; [lia|].
  split; [|by split].
  intros Hu.
  destruct (uninterrupted_run _ _ _ _ _ Hu H) as (sched & _ & _ & Hrun).
  destruct (left_alone_statistics _ _ _ _ _ Hrun)
    as (H1 & H2 & H3 & H4 & H5 & _).
  destruct (run_collects_outcomes _ _ _ _ _ Hrun) as (rs & Hall & Hlen & _).
  assert (Hv : Forall valid_status rs).
  { apply List.Forall_forall. intros r Hr.
    apply (Permutation_in _ Hall) in Hr.
    revert r Hr. apply List.Forall_forall, outcomes_valid. }
  pose proof (count_status_valid rs Hv) as Hval.
  rewrite !(count_status_perm _ _ _ Hall) in Hval. lia.
Qed.

End RunReport.

Lemma report_of_a_run_is_produced_witness :
  let t := F.of_int 3 in
  let file_list :=
    [ mkItem "2208.00001.gz" (mkRun None (Ret true) F.zero t);
      mkItem "2208.00002.pdf" (mkRun None (Ret true) F.zero t);
      mkItem "2208.00003.gz"
             (mkRun None (Raise (OtherException "timeout")) F.zero t) ] in
  let events :=
    [ Act (Take 0); Act (Take 1); Act (Finish 1); Act Collect; Act (Take 1);
      Act (Finish 0); Interrupt CountedProcessed (F.of_int 9);
      Act (Take 0); Terminate 1 ]%nat in
  exists st rows,
    process_files_signalled file_list 2 F.zero events = Some st
    /\ generate_csv_report (fun l => fold_left F.add l F.zero)
         (fun _ => t) (fun _ _ => t) (F.of_int 10) st = Ret rows
    /\ length rows = 12%nat.
Proof.
  intros t file_list events.
  assert (H : process_files_signalled file_list 2 F.zero events
              = Some (mkStats 3 2 0 0 1 F.zero (F.of_int 9) [])).
  { vm_compute. reflexivity. }
  destruct (report_of_a_run_is_produced (fun l => fold_left F.add l F.zero)
              (fun _ => t) (fun _ _ => t) _ _ _ _ _ (F.of_int 10) H)
    as (_ & _ & _ & _ & _ & _ & rows & Hr & Hl).
  exists (mkStats 3 2 0 0 1 F.zero (F.of_int 9) []), rows. auto.
Defined.
